(** * Opcode-level code objects: assembler, disassembler, stack-depth analysis

    A verification development for
    [edgedb/lang/common/lang/python/code/__init__.py]: the class [Code], its
    methods [_calc_stack_size], [_calc_flags], [to_code] and the class method
    [from_code].

    Python integers are modelled as [Z], [bytes]/[bytearray] as [list Z] whose
    elements are kept in [0, 255], tuples and [OrderedSet]s as lists, [dict]s as
    [gmap], [set]s as [gset].  A Python object is identified by its identity
    (a number), exceptions are an explicit error result. *)

From Stdlib Require Import ZArith Lia Bool.
From stdpp Require Import base option list gmap sets strings pretty.

Local Open Scope Z_scope.

(** ** Exceptions and results *)

(** The exceptions the embedded code can raise.  [ExtendedJumps] is
    [Exception('extended jumps are not currently supported')], [RuntimeError]
    is the interpreter's "maximum recursion depth exceeded". *)
Inductive Exn : Set :=
| KeyError
| IndexError
| ValueError
| AttributeError
| TypeError
| AssertionError
| RuntimeError
| ExtendedJumps.

#[global] Instance Exn_eq_dec : EqDecision Exn.
Proof. solve_decision. Defined.

Inductive result (A : Type) : Type :=
| Ok (a : A)
| Raise (e : Exn).

Arguments Ok {A} a.
Arguments Raise {A} e.

#[global] Instance result_ret : MRet result := λ A a, Ok a.

#[global] Instance result_bind : MBind result := λ A B k r,
  match r with
  | Ok a => k a
  | Raise e => Raise e
  end.

#[global] Instance result_fmap : FMap result := λ A B f r,
  match r with
  | Ok a => Ok (f a)
  | Raise e => Raise e
  end.

(** Attribute access [obj.attr]: a missing attribute raises [AttributeError]. *)
Definition getattr {A : Type} (o : option A) : result A :=
  match o with
  | Some a => Ok a
  | None => Raise AttributeError
  end.

(** ** Constants *)

(** Python values that occur as constants and docstrings.  On these values
    Python's [==] (used by [OrderedSet]) is structural equality. *)
Inductive Const : Set :=
| CNone
| CStr (s : string)
| CInt (z : Z).

#[global] Instance Const_eq_dec : EqDecision Const.
Proof. solve_decision. Defined.

(** [isinstance(c, str)] *)
Definition is_str (c : Const) : bool :=
  match c with
  | CStr _ => true
  | _ => false
  end.

(** ** The instruction catalog (module [opcodes]) *)

(** Modelled from the spec: the [opcodes] module is not part of the sources at
    hand.  An opcode class carries its numeric id ([code]), the operand
    category flags the code reads ([has_arg], [has_local], ...) and its stack
    effect (push count minus pop count). *)
Record OpClass : Set := {
  code : Z;
  has_arg : bool;
  has_local : bool;
  has_name : bool;
  has_free : bool;
  has_const : bool;
  has_jrel : bool;
  has_jabs : bool;
  stack_effect : Z
}.

#[global] Instance OpClass_eq_dec : EqDecision OpClass.
Proof. solve_decision. Defined.

(** Modelled from the spec: the names the code imports from [opcodes].
    [OPMAP] maps an opcode byte to its class ([None]: [KeyError]). *)
Class Catalog : Set := {
  OP_SETUP_EXCEPT : OpClass;
  OP_SETUP_FINALLY : OpClass;
  OP_JUMP_ABSOLUTE : OpClass;
  OP_JUMP_FORWARD : OpClass;
  OP_FOR_ITER : OpClass;
  OP_EXTENDED_ARG : OpClass;
  OP_YIELD_VALUE : OpClass;
  LOAD_NAME : OpClass;
  STORE_NAME : OpClass;
  DELETE_NAME : OpClass;
  FREE_OPS : list OpClass;
  OPMAP : Z → option OpClass
}.

(** ** Instructions *)

(** An instance of an opcode class.  [op_id] is the identity of the Python
    object: instructions are compared and hashed by identity ([op in seen],
    [ops.index(jump)], [addrs[op]]).  The other fields are the instance
    attributes; [None] means the attribute is not set.  [jrel] and [jabs]
    hold a reference to the target instruction, i.e. its identity. *)
Record Op : Set := {
  op_id : Z;
  op_cls : OpClass;
  arg : option Z;
  local : option string;
  name : option string;
  cell : option string;
  free : option string;
  const : option Const;
  jrel : option Z;
  jabs : option Z;
  lineno : option Z
}.

(** [ops.index(jump)]: the first position holding the object [jump],
    [ValueError] when there is none. *)
Definition ops_index (ops : list Op) (jump : Z) : result nat :=
  match list_find (λ o, op_id o = jump) ops with
  | Some (i, _) => Ok i
  | None => Raise ValueError
  end.

(** ** [Code._calc_stack_size] *)

(** The two mutable containers of [_calc_stack_size] that the closure [walk]
    shares between its calls, and a history variable [visited]: the sequence
    of (position, depth after the stack effect) of the instructions [walk]
    has processed.  [visited] is never read by the algorithm. *)
Record WalkState : Type := {
  seen : gset Z;
  startdepths : gmap Z Z;
  visited : list (nat * Z)
}.

Definition walk_init : WalkState :=
  {| seen := ∅; startdepths := ∅; visited := [] |}.

(** [finally: seen.discard(op)] *)
Definition discard_seen (op : Op) (s : WalkState) : WalkState :=
  {| seen := seen s ∖ {[op_id op]};
     startdepths := startdepths s;
     visited := visited s |}.

Section StackSize.
Context `{Catalog}.

(** The closure [walk(idx, depth, maxdepth)].  The recursion of the source is
    bounded by [fuel], the number of nested calls still allowed; [None] is
    returned only when that bound is hit.  The state is returned on the
    exceptional path as well: the containers are mutated in place. *)
Fixpoint walk (fuel : nat) (ops : list Op) (idx : nat) (depth maxdepth : Z)
    (s : WalkState) : option (WalkState * result Z) :=
  match fuel with
  | O => None
  | S fuel =>
    match ops !! idx with
    | None => Some (s, Ok maxdepth)
    | Some op =>
      if bool_decide (op_id op ∈ seen s)
         || (depth <=? default (-100000) (startdepths s !! op_id op))
      then Some (s, Ok maxdepth)
      else
        let s := {| seen := seen s ∪ {[op_id op]};
                    startdepths := <[op_id op := depth]> (startdepths s);
                    visited := visited s |} in
        let depth := depth + stack_effect (op_cls op) in
        let s := {| seen := seen s; startdepths := startdepths s;
                    visited := visited s ++ [(idx, depth)] |} in
        let maxdepth := if maxdepth <? depth then depth else maxdepth in
        let finally (r : option (WalkState * result Z)) :=
          match r with
          | Some (s, r) => Some (discard_seen op s, r)
          | None => None
          end in
        finally
          (if depth <? 0 then Some (s, Raise AssertionError)
           else
             let jump :=
               if has_jrel (op_cls op) then Some <$> getattr (jrel op)
               else if has_jabs (op_cls op) then Some <$> getattr (jabs op)
               else Ok None in
             match jump with
             | Raise e => Some (s, Raise e)
             | Ok None => walk fuel ops (S idx) depth maxdepth s
             | Ok (Some jump) =>
               let target_depth := depth in
               let '(target_depth, maxdepth) :=
                 if bool_decide (op_cls op = OP_SETUP_EXCEPT
                                 ∨ op_cls op = OP_SETUP_FINALLY)
                 then (target_depth + 3,
                       if maxdepth <? target_depth + 3
                       then target_depth + 3 else maxdepth)
                 else if bool_decide (op_cls op = OP_FOR_ITER)
                 then (target_depth - 2, maxdepth)
                 else (target_depth, maxdepth) in
               match ops_index ops jump with
               | Raise e => Some (s, Raise e)
               | Ok tgt =>
                 match walk fuel ops tgt target_depth maxdepth s with
                 | None => None
                 | Some (s, Raise e) => Some (s, Raise e)
                 | Some (s, Ok maxdepth) =>
                   if bool_decide (op_cls op = OP_JUMP_ABSOLUTE
                                   ∨ op_cls op = OP_JUMP_FORWARD)
                   then Some (s, Ok maxdepth)
                   else walk fuel ops (S idx) depth maxdepth s
                 end
               end
             end)
    end
  end.

(** [return walk(0, 0, 0)], together with the final history.  One nested call
    per instruction and one more are allowed: [walk] never nests deeper, so
    that this run never hits its bound.  The recursion limit of the
    interpreter, which a long run of instructions exceeds, is the first
    parameter of [walk]. *)
Definition calc_stack_size_run (ops : list Op)
    : option (WalkState * result Z) :=
  walk (S (length ops)) ops 0%nat 0 0 walk_init.

End StackSize.

(** ** [OrderedSet] *)

(** Modelled from the spec: [semantix.utils.datastructures.OrderedSet] is not
    part of the sources at hand.  A symbol pool is an ordered, duplicate-free
    sequence with append-if-absent ([add], [append], [extend]) and index
    lookup ([index], [ValueError] for an absent symbol). *)
Section OrderedSet.
Context {A : Type} `{EqDecision A}.

Definition os_add (s : list A) (x : A) : list A :=
  if bool_decide (x ∈ s) then s else s ++ [x].

Definition os_extend (s : list A) (xs : list A) : list A :=
  foldl os_add s xs.

Definition OrderedSet (xs : list A) : list A := os_extend [] xs.

Definition os_index (s : list A) (x : A) : result Z :=
  match list_find (λ y, y = x) s with
  | Some (i, _) => Ok (Z.of_nat i)
  | None => Raise ValueError
  end.
End OrderedSet.

(** ** Code units and code objects *)

(** The class [Code] ([__slots__] and [__init__]); the attribute [name] is
    [code_name] here.  [None] is Python's [None]; the docstring is a Python
    value ([CNone] for [None]). *)
Record Code : Set := {
  ops : list Op;
  vararg : option string;
  varkwarg : option string;
  newlocals : bool;
  filename : string;
  firstlineno : Z;
  code_name : string;
  args : option (list string);
  kwonlyargs : option (list string);
  varnames : option (list string);
  freevars : option (list string);
  cellvars : option (list string);
  docstring : Const
}.

(** [types.CodeType], with the fields in the order of its constructor. *)
Record CodeType : Set := {
  co_argcount : nat;
  co_kwonlyargcount : nat;
  co_nlocals : nat;
  co_stacksize : Z;
  co_flags : Z;
  co_code : list Z;
  co_consts : list Const;
  co_names : list string;
  co_varnames : list string;
  co_filename : string;
  co_name : string;
  co_firstlineno : Z;
  co_lnotab : list Z;
  co_freevars : list string;
  co_cellvars : list string
}.

Definition CO_OPTIMIZED : Z := 0x0001.
Definition CO_NEWLOCALS : Z := 0x0002.
Definition CO_VARARGS : Z := 0x0004.
Definition CO_VARKEYWORDS : Z := 0x0008.
Definition CO_GENERATOR : Z := 0x0020.
Definition CO_NOFREE : Z := 0x0040.

(** Truth value of [None] or a string / of [None] or a sequence. *)
Definition truthy_str (o : option string) : bool :=
  match o with
  | Some s => negb (bool_decide (s = ""%string))
  | None => false
  end.

Definition truthy_seq {A : Type} (o : option (list A)) : bool :=
  match o with
  | Some (_ :: _) => true
  | _ => false
  end.

(** ** Byte arrays *)

Definition is_byte (b : Z) : bool := (0 <=? b) && (b <? 256).

(** [bytearray.append] / [bytearray.extend]: a value outside [range(256)] is a
    [ValueError]. *)
Definition ba_extend (ba : list Z) (xs : list Z) : result (list Z) :=
  if forallb is_byte xs then Ok (ba ++ xs) else Raise ValueError.

(** [ba[i] = v] for a non-negative [i]. *)
Definition ba_setitem (ba : list Z) (i : Z) (v : Z) : result (list Z) :=
  if (i <? Z.of_nat (length ba)) && is_byte v
  then Ok (<[Z.to_nat i := v]> ba)
  else if is_byte v then Raise IndexError else Raise ValueError.

(** [len(x)] as a Python integer. *)
Definition len {A : Type} (l : list A) : Z := Z.of_nat (length l).

(** A [for] loop whose body may raise. *)
Fixpoint for_each {S A : Type} (body : S → A → result S) (s : S) (l : list A)
    : result S :=
  match l with
  | [] => Ok s
  | x :: l => s ← body s x; for_each body s l
  end.

(** ** [Code._calc_flags] and [Code.to_code] *)

(** The five pools of stage 1 of [to_code]. *)
Record Pools : Set := {
  p_varnames : list string;
  p_names : list string;
  p_cellvars : list string;
  p_freevars : list string;
  p_consts : list Const
}.

(** ['rel'] and ['abs'], the first component of an entry of [jumps]. *)
Inductive JumpKind : Set := rel | abs.

#[global] Instance JumpKind_eq_dec : EqDecision JumpKind.
Proof. solve_decision. Defined.

(** The variables stage 2 of [to_code] updates: [code], [addrs], [jumps],
    [lnotab], [lastlineno], [lastlinepos].  The bytearray [code] is written
    [code_] in the definitions below, [code] being the opcode number of a
    class. *)
Record EmitState : Set := {
  st_code : list Z;
  st_addrs : gmap Z Z;
  st_jumps : list (JumpKind * Z * Z);
  st_lnotab : list Z;
  st_lastlineno : Z;
  st_lastlinepos : Z
}.

(** [while inc_pos > 255: lnotab.extend((255, 0)); inc_pos -= 255].  The
    loop runs at most [inc_pos] times, which is the bound given as [fuel]. *)
Fixpoint lnotab_pad_pos (fuel : nat) (lnotab : list Z) (inc_pos : Z)
    : result (list Z * Z) :=
  match fuel with
  | O => Ok (lnotab, inc_pos)
  | S fuel =>
    if 255 <? inc_pos then
      lnotab ← ba_extend lnotab [255; 0];
      lnotab_pad_pos fuel lnotab (inc_pos - 255)
    else Ok (lnotab, inc_pos)
  end.

(** [while inc_line > 255: lnotab.extend((inc_pos, 255)); inc_pos = 0;
    inc_line -= 255], at most [inc_line] times. *)
Fixpoint lnotab_pad_line (fuel : nat) (lnotab : list Z) (inc_pos inc_line : Z)
    : result (list Z * Z * Z) :=
  match fuel with
  | O => Ok (lnotab, inc_pos, inc_line)
  | S fuel =>
    if 255 <? inc_line then
      lnotab ← ba_extend lnotab [inc_pos; 255];
      lnotab_pad_line fuel lnotab 0 (inc_line - 255)
    else Ok (lnotab, inc_pos, inc_line)
  end.

(** The update of [co_lnotab] for an instruction at [addr] that carries the
    line number [line]. *)
Definition lnotab_update (lnotab : list Z) (inc_pos inc_line : Z)
    : result (list Z) :=
  if bool_decide (inc_line = 0) && bool_decide (inc_pos = 0) then
    ba_extend lnotab [0; 0]
  else
    '(lnotab, inc_pos) ← lnotab_pad_pos (Z.to_nat inc_pos) lnotab inc_pos;
    '(lnotab, inc_pos, inc_line) ←
      lnotab_pad_line (Z.to_nat inc_line) lnotab inc_pos inc_line;
    if negb (bool_decide (inc_pos = 0)) || negb (bool_decide (inc_line = 0))
    then ba_extend lnotab [inc_pos; inc_line]
    else Ok lnotab.

(** [addrs[target]] *)
Definition addrs_get (addrs : gmap Z Z) (target : Z) : result Z :=
  match addrs !! target with
  | Some a => Ok a
  | None => Raise KeyError
  end.

(** The body of the stage 3 loop of [to_code] for one entry of [jumps]. *)
Definition relocate (addrs : gmap Z Z) (code_ : list Z)
    (jump : JumpKind * Z * Z) : result (list Z) :=
  let '(kind, addr, target) := jump in
  to ← addrs_get addrs target;
  let to := if bool_decide (kind = rel) then to - (addr + 3) else to in
  if 0xFFFF <? to then Raise ExtendedJumps
  else
    code_ ← ba_setitem code_ (addr + 1) (Z.land to 0xFF);
    ba_setitem code_ (addr + 2) (Z.land (Z.shiftr to 8) 0xFF).

Section Assembler.
Context `{Catalog}.

(** [_calc_stack_size]: the result of [walk(0, 0, 0)], for an interpreter
    that allows the [len(ops) + 1] nested calls [walk] can need.
    [RuntimeError] is what a call of [walk] that hits its bound stands
    for. *)
Definition _calc_stack_size (self : Code) : result Z :=
  match calc_stack_size_run (ops self) with
  | Some (_, r) => r
  | None => Raise RuntimeError
  end.

Definition _OPTIMIZE_NEG_SET : list OpClass :=
  [LOAD_NAME; STORE_NAME; DELETE_NAME].

Definition _calc_flags (self : Code) : Z :=
  let ops_set := op_cls <$> ops self in
  let flags := 0 in
  let flags :=
    if negb (existsb (λ c, bool_decide (c ∈ ops_set)) _OPTIMIZE_NEG_SET)
    then Z.lor flags CO_OPTIMIZED else flags in
  let flags :=
    if bool_decide (OP_YIELD_VALUE ∈ ops_set)
    then Z.lor flags CO_GENERATOR else flags in
  let flags :=
    if negb (existsb (λ c, bool_decide (c ∈ ops_set)) FREE_OPS)
    then Z.lor flags CO_NOFREE else flags in
  let flags :=
    if truthy_str (vararg self) then Z.lor flags CO_VARARGS else flags in
  let flags :=
    if truthy_str (varkwarg self) then Z.lor flags CO_VARKEYWORDS else flags in
  let flags :=
    if newlocals self then Z.lor flags CO_NEWLOCALS else flags in
  flags.

(** The pools before stage 1: [co_varnames] filled from the declared
    arguments, [co_consts] seeded with the docstring; also [co_argcount] and
    [co_kwonlyargcount]. *)
Definition initial_pools (self : Code) : result (Pools * nat * nat) :=
  let co_varnames := [] in
  let co_varnames :=
    if truthy_seq (args self)
    then os_extend co_varnames (default [] (args self)) else co_varnames in
  let co_argcount := length co_varnames in
  let co_varnames :=
    if truthy_seq (kwonlyargs self)
    then os_extend co_varnames (default [] (kwonlyargs self))
    else co_varnames in
  co_kwonlyargcount ←
    match kwonlyargs self with
    | Some l => Ok (length l)
    | None => Raise TypeError
    end;
  let co_varnames :=
    if truthy_str (vararg self)
    then os_add co_varnames (default ""%string (vararg self))
    else co_varnames in
  let co_varnames :=
    if truthy_str (varkwarg self)
    then os_add co_varnames (default ""%string (varkwarg self))
    else co_varnames in
  let co_varnames :=
    if truthy_seq (varnames self)
    then os_extend co_varnames (default [] (varnames self))
    else co_varnames in
  Ok ({| p_varnames := co_varnames; p_names := []; p_cellvars := [];
         p_freevars := []; p_consts := OrderedSet [docstring self] |},
      co_argcount, co_kwonlyargcount).

(** Stage 1, the body of the loop over [self.ops]. *)
Definition harvest (p : Pools) (op : Op) : result Pools :=
  if has_local (op_cls op) then
    x ← getattr (local op);
    Ok {| p_varnames := os_add (p_varnames p) x; p_names := p_names p;
          p_cellvars := p_cellvars p; p_freevars := p_freevars p;
          p_consts := p_consts p |}
  else if has_name (op_cls op) then
    x ← getattr (name op);
    Ok {| p_varnames := p_varnames p; p_names := os_add (p_names p) x;
          p_cellvars := p_cellvars p; p_freevars := p_freevars p;
          p_consts := p_consts p |}
  else if has_free (op_cls op) then
    match cell op with
    | None =>
      x ← getattr (free op);
      Ok {| p_varnames := p_varnames p; p_names := p_names p;
            p_cellvars := p_cellvars p;
            p_freevars := os_add (p_freevars p) x;
            p_consts := p_consts p |}
    | Some cell =>
      Ok {| p_varnames := p_varnames p; p_names := p_names p;
            p_cellvars := os_add (p_cellvars p) cell;
            p_freevars := p_freevars p; p_consts := p_consts p |}
    end
  else if has_const (op_cls op) then
    x ← getattr (const op);
    Ok {| p_varnames := p_varnames p; p_names := p_names p;
          p_cellvars := p_cellvars p; p_freevars := p_freevars p;
          p_consts := os_add (p_consts p) x |}
  else Ok p.

(** Stage 2: the operand of [op] ([None] is the marker [no_arg]) and the
    list [jumps] after it. *)
Definition resolve_arg (p : Pools) (len_co_cellvars : Z)
    (jumps : list (JumpKind * Z * Z)) (addr : Z) (op : Op)
    : result (option Z * list (JumpKind * Z * Z)) :=
  if has_local (op_cls op) then
    x ← getattr (local op); i ← os_index (p_varnames p) x;
    Ok (Some i, jumps)
  else if has_name (op_cls op) then
    x ← getattr (name op); i ← os_index (p_names p) x;
    Ok (Some i, jumps)
  else if has_free (op_cls op) then
    match cell op with
    | None =>
      x ← getattr (free op); i ← os_index (p_freevars p) x;
      Ok (Some (i + len_co_cellvars), jumps)
    | Some cell =>
      i ← os_index (p_cellvars p) cell;
      Ok (Some i, jumps)
    end
  else if has_const (op_cls op) then
    x ← getattr (const op); i ← os_index (p_consts p) x;
    Ok (Some i, jumps)
  else if has_jrel (op_cls op) then
    t ← getattr (jrel op);
    Ok (Some 0, jumps ++ [(rel, addr, t)])
  else if has_jabs (op_cls op) then
    t ← getattr (jabs op);
    Ok (Some 0, jumps ++ [(abs, addr, t)])
  else if has_arg (op_cls op) then
    a ← getattr (arg op);
    Ok (Some a, jumps)
  else Ok (None, jumps).

(** Stage 2: the bytes written for an operand. *)
Definition emit_arg (code_ : list Z) (arg : Z) : result (list Z) :=
  code_ ←
    (if 0xFFFF <? arg then
       code_ ← ba_extend code_ [code OP_EXTENDED_ARG];
       code_ ← ba_extend code_ [Z.land (Z.shiftr arg 16) 0xFF];
       ba_extend code_ [Z.land (Z.shiftr arg 24) 0xFF]
     else Ok code_);
  code_ ← ba_extend code_ [Z.land arg 0xFF];
  ba_extend code_ [Z.land (Z.shiftr arg 8) 0xFF].

(** Stage 2, the body of the loop over [self.ops]. *)
Definition emit_op (p : Pools) (len_co_cellvars : Z) (st : EmitState)
    (op : Op) : result EmitState :=
  let addr := len (st_code st) in
  code_ ← ba_extend (st_code st) [code (op_cls op)];
  let addrs := <[op_id op := addr]> (st_addrs st) in
  '(lnotab, lastlineno, lastlinepos) ←
    match lineno op with
    | None => Ok (st_lnotab st, st_lastlineno st, st_lastlinepos st)
    | Some line =>
      let inc_line := line - st_lastlineno st in
      let inc_pos := addr - st_lastlinepos st in
      lnotab ← lnotab_update (st_lnotab st) inc_pos inc_line;
      Ok (lnotab, line, addr)
    end;
  '(arg, jumps) ← resolve_arg p len_co_cellvars (st_jumps st) addr op;
  code_ ←
    match arg with
    | None => Ok code_
    | Some arg => emit_arg code_ arg
    end;
  Ok {| st_code := code_; st_addrs := addrs; st_jumps := jumps;
        st_lnotab := lnotab; st_lastlineno := lastlineno;
        st_lastlinepos := lastlinepos |}.

(** [to_code] up to the end of stage 2: the pools, [co_argcount],
    [co_kwonlyargcount] and the emission state. *)
Definition to_code_stage2 (self : Code)
    : result (Pools * nat * nat * EmitState) :=
  '(pools, co_argcount, co_kwonlyargcount) ← initial_pools self;
  (* Stage 1 *)
  pools ← for_each harvest pools (ops self);
  (* Stage 2 *)
  let len_co_cellvars := len (p_cellvars pools) in
  st ← for_each (emit_op pools len_co_cellvars)
         {| st_code := []; st_addrs := ∅; st_jumps := []; st_lnotab := [];
            st_lastlineno := firstlineno self; st_lastlinepos := 0 |}
         (ops self);
  Ok (pools, co_argcount, co_kwonlyargcount, st).

Definition to_code (self : Code) : result CodeType :=
  '(pools, co_argcount, co_kwonlyargcount, st) ← to_code_stage2 self;
  (* Stage 3 *)
  code_ ← for_each (relocate (st_addrs st)) (st_code st) (st_jumps st);
  (* Stage 4 *)
  stacksize ← _calc_stack_size self;
  Ok {| co_argcount := co_argcount;
        co_kwonlyargcount := co_kwonlyargcount;
        co_nlocals := length (p_varnames pools);
        co_stacksize := stacksize;
        co_flags := _calc_flags self;
        co_code := code_;
        co_consts := p_consts pools;
        co_names := p_names pools;
        co_varnames := p_varnames pools;
        co_filename := filename self;
        co_name := code_name self;
        co_firstlineno := firstlineno self;
        co_lnotab := st_lnotab st;
        co_freevars := p_freevars pools;
        co_cellvars := p_cellvars pools |}.

End Assembler.

(** ** [Code.from_code] *)

(** [t[i]] for a tuple [t]: a negative index counts from the end, an index out
    of range is an [IndexError]. *)
Definition tuple_get {A : Type} (t : list A) (i : Z) : result A :=
  let j := if i <? 0 then i + len t else i in
  if j <? 0 then Raise IndexError
  else match t !! Z.to_nat j with
       | Some x => Ok x
       | None => Raise IndexError
       end.

(** [dis.findlinestarts] of the Python standard library, in the version of the
    interpreters this code was written for (Python 3.2 and 3.3); it is not
    code of the repository.  The loop runs over the pairs
    [zip(co_lnotab[0::2], co_lnotab[1::2])]. *)
Fixpoint findlinestarts_loop (lnotab : list Z) (lastlineno : option Z)
    (lineno addr : Z) : list (Z * Z) :=
  match lnotab with
  | byte_incr :: line_incr :: lnotab =>
    if bool_decide (byte_incr = 0) then
      findlinestarts_loop lnotab lastlineno (lineno + line_incr) addr
    else if bool_decide (lastlineno = Some lineno) then
      findlinestarts_loop lnotab lastlineno (lineno + line_incr)
        (addr + byte_incr)
    else
      (addr, lineno)
      :: findlinestarts_loop lnotab (Some lineno) (lineno + line_incr)
           (addr + byte_incr)
  | _ => if bool_decide (lastlineno = Some lineno) then [] else [(addr, lineno)]
  end.

Definition findlinestarts (pycode : CodeType) : list (Z * Z) :=
  findlinestarts_loop (co_lnotab pycode) None (co_firstlineno pycode) 0.

(** [dict(pairs)]: a later pair overrides an earlier one with the same key. *)
Definition dict {V : Type} (pairs : list (Z * V)) : gmap Z V :=
  foldl (λ m kv, <[kv.1 := kv.2]> m) ∅ pairs.

(** The variables stage 1 of [from_code] updates besides [i] and
    [extended_arg]: [table], [ops], [freevars], [cellvars].  [table] maps an
    address to the identity of the instruction created there. *)
Record DecodeState : Set := {
  d_table : gmap Z Z;
  d_ops : list Op;
  d_freevars : list string;
  d_cellvars : list string
}.

(** [op = op_cls()], with [op.lineno = line] when [lines] has the address.
    The object created for the opcode byte at address [i] is given the
    identity [i]. *)
Definition new_op (op_cls : OpClass) (i : Z) (line : option Z) : Op :=
  {| op_id := i; op_cls := op_cls; arg := None; local := None; name := None;
     cell := None; free := None; const := None; jrel := None; jabs := None;
     lineno := line |}.

Definition set_arg (op : Op) (a : Z) : Op :=
  {| op_id := op_id op; op_cls := op_cls op; arg := Some a; local := local op;
     name := name op; cell := cell op; free := free op; const := const op;
     jrel := jrel op; jabs := jabs op; lineno := lineno op |}.

Definition set_jrel (op : Op) (t : Z) : Op :=
  {| op_id := op_id op; op_cls := op_cls op; arg := arg op; local := local op;
     name := name op; cell := cell op; free := free op; const := const op;
     jrel := Some t; jabs := jabs op; lineno := lineno op |}.

Definition set_jabs (op : Op) (t : Z) : Op :=
  {| op_id := op_id op; op_cls := op_cls op; arg := arg op; local := local op;
     name := name op; cell := cell op; free := free op; const := const op;
     jrel := jrel op; jabs := Some t; lineno := lineno op |}.

Definition set_name (op : Op) (x : string) : Op :=
  {| op_id := op_id op; op_cls := op_cls op; arg := arg op; local := local op;
     name := Some x; cell := cell op; free := free op; const := const op;
     jrel := jrel op; jabs := jabs op; lineno := lineno op |}.

Definition set_local (op : Op) (x : string) : Op :=
  {| op_id := op_id op; op_cls := op_cls op; arg := arg op; local := Some x;
     name := name op; cell := cell op; free := free op; const := const op;
     jrel := jrel op; jabs := jabs op; lineno := lineno op |}.

Definition set_const (op : Op) (x : Const) : Op :=
  {| op_id := op_id op; op_cls := op_cls op; arg := arg op; local := local op;
     name := name op; cell := cell op; free := free op; const := Some x;
     jrel := jrel op; jabs := jabs op; lineno := lineno op |}.

Definition set_cell (op : Op) (x : string) : Op :=
  {| op_id := op_id op; op_cls := op_cls op; arg := arg op; local := local op;
     name := name op; cell := Some x; free := free op; const := const op;
     jrel := jrel op; jabs := jabs op; lineno := lineno op |}.

Definition set_free (op : Op) (x : string) : Op :=
  {| op_id := op_id op; op_cls := op_cls op; arg := arg op; local := local op;
     name := name op; cell := cell op; free := Some x; const := const op;
     jrel := jrel op; jabs := jabs op; lineno := lineno op |}.

(** [table[a]] *)
Definition table_get (table : gmap Z Z) (a : Z) : result Z :=
  match table !! a with
  | Some t => Ok t
  | None => Raise KeyError
  end.

(** Stage 2 of [from_code], the body of the loop: the address held by a jump
    operand is replaced by the instruction of [table]. *)
Definition resolve_jump (table : gmap Z Z) (op : Op) : result Op :=
  if has_jrel (op_cls op) then
    a ← getattr (jrel op); t ← table_get table a; Ok (set_jrel op t)
  else if has_jabs (op_cls op) then
    a ← getattr (jabs op); t ← table_get table a; Ok (set_jabs op t)
  else Ok op.

Section Disassembler.
Context `{Catalog}.

(** The operand handling of stage 1 for an instruction that is not
    [EXTENDED_ARG]; [i] is the address after the operand. *)
Definition decode_arg (pycode : CodeType) (i arg : Z) (op : Op)
    (st : DecodeState) : result (Op * DecodeState) :=
  let cell_len := len (co_cellvars pycode) in
  if has_jrel (op_cls op) then Ok (set_jrel op (i + arg), st)
  else if has_jabs (op_cls op) then Ok (set_jabs op arg, st)
  else if has_name (op_cls op) then
    x ← tuple_get (co_names pycode) arg; Ok (set_name op x, st)
  else if has_local (op_cls op) then
    x ← tuple_get (co_varnames pycode) arg; Ok (set_local op x, st)
  else if has_const (op_cls op) then
    x ← tuple_get (co_consts pycode) arg; Ok (set_const op x, st)
  else if has_free (op_cls op) then
    match tuple_get (co_cellvars pycode) arg with
    | Raise IndexError =>
      x ← tuple_get (co_freevars pycode) (arg - cell_len);
      Ok (set_free op x,
          {| d_table := d_table st; d_ops := d_ops st;
             d_freevars := os_add (d_freevars st) x;
             d_cellvars := d_cellvars st |})
    | Raise e => Raise e
    | Ok x =>
      Ok (set_cell op x,
          {| d_table := d_table st; d_ops := d_ops st;
             d_freevars := d_freevars st;
             d_cellvars := os_add (d_cellvars st) x |})
    end
  else Ok (op, st).

(** Stage 1 of [from_code], the loop [while i < n]; [rest] is
    [co_code[i:]], so that [co_code[i]] is its first element. *)
Fixpoint decode_ops (pycode : CodeType) (lines : gmap Z Z) (rest : list Z)
    (i extended_arg : Z) (st : DecodeState) : result DecodeState :=
  match rest with
  | [] => Ok st
  | b :: rest =>
    op_cls ← match OPMAP b with
             | Some c => Ok c
             | None => Raise KeyError
             end;
    let op := new_op op_cls i (lines !! i) in
    let st := {| d_table := <[i := op_id op]> (d_table st);
                 d_ops := d_ops st; d_freevars := d_freevars st;
                 d_cellvars := d_cellvars st |} in
    let i := i + 1 in
    if has_arg op_cls then
      match rest with
      | lo :: hi :: rest =>
        let arg := lo + hi * 256 + extended_arg in
        let op := set_arg op arg in
        let i := i + 2 in
        if bool_decide (op_cls = OP_EXTENDED_ARG) then
          decode_ops pycode lines rest i (Z.shiftl arg 16) st
        else
          '(op, st) ← decode_arg pycode i arg op st;
          decode_ops pycode lines rest i extended_arg
            {| d_table := d_table st; d_ops := d_ops st ++ [op];
               d_freevars := d_freevars st; d_cellvars := d_cellvars st |}
      | _ => Raise IndexError
      end
    else
      decode_ops pycode lines rest i extended_arg
        {| d_table := d_table st; d_ops := d_ops st ++ [op];
           d_freevars := d_freevars st; d_cellvars := d_cellvars st |}
  end.

Definition from_code (pycode : CodeType) : result Code :=
  let lines := dict (findlinestarts pycode) in
  (* Stage 1 *)
  st ← decode_ops pycode lines (co_code pycode) 0 0
         {| d_table := ∅; d_ops := []; d_freevars := []; d_cellvars := [] |};
  (* Stage 2 *)
  ops ← for_each (λ acc op, op ← resolve_jump (d_table st) op;
                            Ok (acc ++ [op])) [] (d_ops st);
  (* Stage 3 *)
  let varnames := co_varnames pycode in
  let argcount := co_argcount pycode in
  let argstop := argcount in
  let args := OrderedSet (take argstop varnames) in
  let kwonlyargs :=
    OrderedSet (take (co_kwonlyargcount pycode) (drop argstop varnames)) in
  let argstop := (argstop + co_kwonlyargcount pycode)%nat in
  '(vararg, argstop) ←
    (if bool_decide (Z.land (co_flags pycode) CO_VARARGS ≠ 0) then
       x ← tuple_get varnames (Z.of_nat argstop);
       Ok (Some x, S argstop)
     else Ok (None, argstop));
  '(varkwarg, argstop) ←
    (if bool_decide (Z.land (co_flags pycode) CO_VARKEYWORDS ≠ 0) then
       x ← tuple_get varnames (Z.of_nat argstop);
       Ok (Some x, S argstop)
     else Ok (None, argstop));
  let varnames := OrderedSet (drop argstop (co_varnames pycode)) in
  let docstring :=
    match co_consts pycode with
    | c :: _ => if is_str c then c else CNone
    | [] => CNone
    end in
  Ok {| ops := ops; vararg := vararg; varkwarg := varkwarg;
        newlocals :=
          bool_decide (Z.land (co_flags pycode) CO_NEWLOCALS ≠ 0);
        filename := co_filename pycode;
        firstlineno := co_firstlineno pycode;
        code_name := co_name pycode;
        args := Some args; kwonlyargs := Some kwonlyargs;
        varnames := Some varnames;
        freevars := Some (d_freevars st);
        cellvars := Some (d_cellvars st);
        docstring := docstring |}.

End Disassembler.

(** ** Vocabulary of the statements *)

(** The identities of the instructions of a sequence. *)
Definition op_ids (ops : list Op) : gset Z := list_to_set (op_id <$> ops).

(** The jump operand [walk] reads from an instruction, if it has one. *)
Definition jump_operand (op : Op) : option Z :=
  if has_jrel (op_cls op) then jrel op
  else if has_jabs (op_cls op) then jabs op
  else None.

(** An entry of the history of [walk] with a non-negative depth. *)
Definition nonneg_visit (v : nat * Z) : Prop := 0 ≤ v.2.

(** The jump stage 2 of [to_code] queues for an instruction: its kind and
    its target, when [resolve_arg] reaches the [has_jrel] or the [has_jabs]
    branch. *)
Definition queued_jump (op : Op) : option (JumpKind * Z) :=
  let c := op_cls op in
  if has_local c || has_name c || has_free c || has_const c then None
  else if has_jrel c then (λ t, (rel, t)) <$> jrel op
  else if has_jabs c then (λ t, (abs, t)) <$> jabs op
  else None.

(** The value stage 3 writes for a jump at [addr] whose target is at
    [target_addr]. *)
Definition resolved (kind : JumpKind) (addr target_addr : Z) : Z :=
  if bool_decide (kind = rel) then target_addr - (addr + 3) else target_addr.

(** Jumps at increasing addresses from [lo] on, each with its opcode byte and
    two operand bytes below [hi]. *)
Fixpoint spaced (lo hi : Z) (jumps : list (JumpKind * Z * Z)) : Prop :=
  match jumps with
  | [] => lo ≤ hi
  | (_, addr, _) :: jumps => lo ≤ addr ∧ spaced (addr + 3) hi jumps
  end.

(** ** The layout of the byte code, and instructions up to identity *)

(** The bytes of an instruction: the opcode and, when there is one, the
    operand, low byte first. *)
Definition chunk (c : OpClass) (a : option Z) : list Z :=
  code c :: match a with
            | Some a => [Z.land a 0xFF; Z.land (Z.shiftr a 8) 0xFF]
            | None => []
            end.

(** The instructions of a sequence with their addresses, the first one at
    [addr], for instructions of one byte, or three when [operand] gives an
    operand. *)
Fixpoint place (operand : Op → option Z) (addr : Z) (ops : list Op)
    : list (Z * Op) :=
  match ops with
  | [] => []
  | op :: ops =>
    (addr, op)
    :: place operand (addr + len (chunk (op_cls op) (operand op))) ops
  end.

(** The jumps of placed instructions, as stage 2 of [to_code] queues them. *)
Definition placed_jumps (placed : list (Z * Op)) : list (JumpKind * Z * Z) :=
  omap (λ '(addr, op), (λ '(kind, t), (kind, addr, t)) <$> queued_jump op)
    placed.

(** The addresses of placed instructions, as stage 2 records them. *)
Definition placed_addrs (addrs : gmap Z Z) (placed : list (Z * Op))
    : gmap Z Z :=
  foldl (λ m '(addr, op), <[op_id op := addr]> m) addrs placed.

Section Layout.
Context `{Catalog}.

(** The operand stage 2 writes for an instruction: the index of its symbol,
    its raw argument, or 0 for a jump. *)
Definition placeholder (pools : Pools) (op : Op) : option Z :=
  match resolve_arg pools (len (p_cellvars pools)) [] 0 op with
  | Ok (a, _) => a
  | Raise _ => None
  end.

(** The operand in the final byte code: for a jump at [addr], the value
    stage 3 writes. *)
Definition final_operand (pools : Pools) (addrs : gmap Z Z) (addr : Z)
    (op : Op) : option Z :=
  match queued_jump op with
  | Some (kind, t) => resolved kind addr <$> addrs !! t
  | None => placeholder pools op
  end.

End Layout.

(** At most one operand category, and none without an operand. *)
Definition flags_ok (c : OpClass) : bool :=
  let n := (Nat.b2n (has_local c) + Nat.b2n (has_name c)
            + Nat.b2n (has_free c) + Nat.b2n (has_const c)
            + Nat.b2n (has_jrel c) + Nat.b2n (has_jabs c))%nat in
  (n =? 0)%nat || ((n =? 1)%nat && has_arg c).

(** The symbolic operand of [op'] is that of [op], for the categories other
    than jumps: a local, a name, a constant, a cell or free variable, a raw
    argument. *)
Definition same_operand (op op' : Op) : Prop :=
  let c := op_cls op in
  (has_local c = true → local op' = local op)
  ∧ (has_name c = true → name op' = name op)
  ∧ (has_const c = true → const op' = const op)
  ∧ (has_free c = true →
     match cell op with
     | Some _ => cell op' = cell op
     | None => cell op' = None ∧ free op' = free op
     end)
  ∧ (has_arg c = true →
     has_local c || has_name c || has_free c || has_const c
     || has_jrel c || has_jabs c = false →
     arg op' = arg op).

(** The pools of a code object. *)
Definition pools_of (pycode : CodeType) : Pools :=
  {| p_varnames := co_varnames pycode; p_names := co_names pycode;
     p_cellvars := co_cellvars pycode; p_freevars := co_freevars pycode;
     p_consts := co_consts pycode |}.

(** What stage 1 of [from_code] makes of the instruction [op] placed at
    [addr]: the same class, the line of [lines], the same symbolic operand,
    and for a jump the address recorded for its target. *)
Definition decoded (lines addrs : gmap Z Z) (placed : Z * Op) (op' : Op)
    : Prop :=
  let '(addr, op) := placed in
  op_id op' = addr ∧ op_cls op' = op_cls op ∧ lineno op' = lines !! addr
  ∧ same_operand op op'
  ∧ (has_jrel (op_cls op) = true →
     ∃ t ta, jrel op = Some t ∧ addrs !! t = Some ta ∧ jrel op' = Some ta)
  ∧ (has_jabs (op_cls op) = true →
     ∃ t ta, jabs op = Some t ∧ addrs !! t = Some ta ∧ jabs op' = Some ta).

(** The table stage 1 of [from_code] builds for placed instructions. *)
Definition placed_table (table : gmap Z Z) (placed : list (Z * Op))
    : gmap Z Z :=
  foldl (λ m '(addr, _), <[addr := addr]> m) table placed.

Section Encodable.
Context `{Catalog}.

(** What the decoder needs of an instruction placed at [addr]: a class of
    the catalog with a single category that is not [EXTENDED_ARG], an operand
    that stage 2 resolves, a jump target with an address, and a final operand
    of 16 bits. *)
Definition encodable (pools : Pools) (addrs : gmap Z Z) (placed : Z * Op)
    : Prop :=
  let '(addr, op) := placed in
  OPMAP (code (op_cls op)) = Some (op_cls op)
  ∧ op_cls op ≠ OP_EXTENDED_ARG
  ∧ flags_ok (op_cls op) = true
  ∧ (∃ r, resolve_arg pools (len (p_cellvars pools)) [] 0 op = Ok r)
  ∧ (∀ k t, queued_jump op = Some (k, t) → is_Some (addrs !! t))
  ∧ (∀ x, final_operand pools addrs addr op = Some x → 0 ≤ x ≤ 0xFFFF).

End Encodable.

(** The declared parameter names of a unit, in the order [to_code] puts them
    in [co_varnames]. *)
Definition declared_names (self : Code) : list string :=
  default [] (args self) ++ default [] (kwonlyargs self)
  ++ (if truthy_str (vararg self) then [default ""%string (vararg self)]
      else [])
  ++ (if truthy_str (varkwarg self) then [default ""%string (varkwarg self)]
      else []).

(** The jump targets [t] of [ops] and [t'] of [ops'] are instructions at the
    same position. *)
Definition same_position (ops ops' : list Op) (t t' : Z) : Prop :=
  ∃ k tgt tgt',
    ops !! k = Some tgt ∧ op_id tgt = t
    ∧ ops' !! k = Some tgt' ∧ op_id tgt' = t'.

(** The instruction [op'] of [ops'] is the instruction [op] of [ops]: the
    same opcode, the same symbolic operand, a jump target at the same
    position. *)
Definition op_matches (ops ops' : list Op) (op op' : Op) : Prop :=
  op_cls op' = op_cls op
  ∧ same_operand op op'
  ∧ (has_jrel (op_cls op) = true →
     ∃ t t', jrel op = Some t ∧ jrel op' = Some t'
             ∧ same_position ops ops' t t')
  ∧ (has_jabs (op_cls op) = true →
     ∃ t t', jabs op = Some t ∧ jabs op' = Some t'
             ∧ same_position ops ops' t t').

Section WellFormed.
Context `{Catalog}.

(** A class of the catalog that the decoder reads back: it is the class of
    its opcode number, it is not [EXTENDED_ARG], and it has at most one
    operand category. *)
Definition class_ok (c : OpClass) : Prop :=
  OPMAP (code c) = Some c ∧ c ≠ OP_EXTENDED_ARG ∧ flags_ok c = true.

(** A raw argument of 16 bits. *)
Definition raw_ok (op : Op) : Prop :=
  let c := op_cls op in
  has_local c || has_name c || has_free c || has_const c
  || has_jrel c || has_jabs c = false →
  ∀ a, arg op = Some a → 0 ≤ a ≤ 0xFFFF.

(** The target of every relative jump is a later instruction. *)
Definition forward_jumps (ops : list Op) : Prop :=
  ∀ k op t, ops !! k = Some op → queued_jump op = Some (rel, t) →
    ∃ k' tgt, (k < k')%nat ∧ ops !! k' = Some tgt ∧ op_id tgt = t.

(** Every index of a pool fits in 16 bits. *)
Definition pools_small (pycode : CodeType) : Prop :=
  len (co_varnames pycode) ≤ 0x10000 ∧ len (co_names pycode) ≤ 0x10000
  ∧ len (co_consts pycode) ≤ 0x10000
  ∧ len (co_cellvars pycode) + len (co_freevars pycode) ≤ 0x10000.

(** The units on which encoding followed by decoding is the identity on
    instructions: distinct instruction objects, classes the decoder reads
    back, operands of 16 bits without extended arguments, relative jumps
    forward, distinct parameter names. *)
Definition round_trip_ready (self : Code) (pycode : CodeType) : Prop :=
  NoDup (op_id <$> ops self)
  ∧ Forall (λ op, class_ok (op_cls op)) (ops self)
  ∧ Forall raw_ok (ops self)
  ∧ forward_jumps (ops self)
  ∧ pools_small pycode
  ∧ NoDup (declared_names self).

End WellFormed.

(** The line numbers of placed instructions: the pairs [dis.findlinestarts]
    is to yield. *)
Definition annotated (placed : list (Z * Op)) : list (Z * Z) :=
  omap (λ '(addr, op), (λ line, (addr, line)) <$> lineno op) placed.

(** The line numbers of the instructions increase strictly, from [last]
    on. *)
Fixpoint lines_increasing (last : Z) (ops : list Op) : Prop :=
  match ops with
  | [] => True
  | op :: ops =>
    match lineno op with
    | Some line => last < line ∧ lines_increasing line ops
    | None => lines_increasing last ops
    end
  end.

(** The line numbers the line table can carry: the first instruction has
    one, not below the first line of the unit, and each further line number
    is above the one before. *)
Definition lines_ok (self : Code) : Prop :=
  match ops self with
  | [] => True
  | op :: ops =>
    ∃ line, lineno op = Some line ∧ firstlineno self ≤ line
            ∧ lines_increasing line ops
  end.

(** [j] entries (255, 0) of a line table: the padding of an address increment
    above 255. *)
Fixpoint pos_padding (j : nat) : list Z :=
  match j with
  | O => []
  | S j => 255 :: 0 :: pos_padding j
  end.

(** [m] entries (0, 255) of a line table: the padding of a line increment
    above 255. *)
Fixpoint line_padding (m : nat) : list Z :=
  match m with
  | O => []
  | S m => 0 :: 255 :: line_padding m
  end.

(** ** [Code.__init__] *)

(** The constructor: [ops=None] gives an empty list, the other parameters
    are stored as they are. *)
Definition __init__ (ops : option (list Op)) (vararg varkwarg : option string)
    (newlocals : bool) (filename : string) (firstlineno : Z) (name : string)
    (args kwonlyargs varnames freevars cellvars : option (list string))
    (docstring : Const) : Code :=
  {| ops := match ops with None => [] | Some ops => ops end;
     vararg := vararg; varkwarg := varkwarg; newlocals := newlocals;
     filename := filename; firstlineno := firstlineno; code_name := name;
     args := args; kwonlyargs := kwonlyargs; varnames := varnames;
     freevars := freevars; cellvars := cellvars; docstring := docstring |}.

(** [Code()], every parameter at its default. *)
Definition default_unit : Code :=
  __init__ None None None false "<string>" 0 "<code>" None None None None
    None CNone.

(** ** Vocabulary of the further properties *)






(** The instruction needs a symbol for stage 1 and does not have it. *)
Definition lacks_symbol (op : Op) : Prop :=
  let c := op_cls op in
  (has_local c = true ∧ local op = None)
  ∨ (has_local c = false ∧ has_name c = true ∧ name op = None)
  ∨ (has_local c = false ∧ has_name c = false ∧ has_free c = true
     ∧ cell op = None ∧ free op = None)
  ∨ (has_local c = false ∧ has_name c = false ∧ has_free c = false
     ∧ has_const c = true ∧ const op = None).

(** The line numbers of the instructions do not decrease, from [last] on. *)
Fixpoint lines_nondecreasing (last : Z) (ops : list Op) : Prop :=
  match ops with
  | [] => True
  | op :: ops =>
    match lineno op with
    | Some line => last ≤ line ∧ lines_nondecreasing line ops
    | None => lines_nondecreasing last ops
    end
  end.

(** The stack depths after each instruction of a sequence executed in order
    from the depth [depth]. *)
Fixpoint running_depths (depth : Z) (ops : list Op) : list Z :=
  match ops with
  | [] => []
  | op :: ops =>
    (depth + stack_effect (op_cls op))
    :: running_depths (depth + stack_effect (op_cls op)) ops
  end.

(** An instruction without a jump operand. *)
Definition jump_free (op : Op) : Prop :=
  has_jrel (op_cls op) = false ∧ has_jabs (op_cls op) = false.

(** An instruction of a byte code: the opcode byte, its class, and the two
    operand bytes of a class with an operand. *)
Definition Instr : Set := (Z * OpClass * option (Z * Z))%type.

Definition instr_bytes (it : Instr) : list Z :=
  let '(b, _, operand) := it in
  b :: match operand with
       | Some (lo, hi) => [lo; hi]
       | None => []
       end.

Definition instr_cls (it : Instr) : OpClass := it.1.2.

(** [[x]] for [Some x], nothing for [None]. *)
Definition optional {A : Type} (o : option A) : list A :=
  match o with
  | Some x => [x]
  | None => []
  end.

(** ** Vocabulary of the stack analysis and of the operand bytes *)

(** Every jump instruction of the sequence has its operand, and the operand
    is an instruction of the sequence. *)
Definition closed_jumps (ops : list Op) : Prop :=
  ∀ op, op ∈ ops →
    (has_jrel (op_cls op) || has_jabs (op_cls op)) = true →
    ∃ t, jump_operand op = Some t ∧ t ∈ op_ids ops.

(** [walk] does not return at once from the instruction [op] entered at the
    depth [depth]: [op] is not on the active path, and it has not been
    entered at this depth or a higher one. *)
Definition entered (s : WalkState) (op : Op) (depth : Z) : Prop :=
  (op_id op ∉ seen s)
  ∧ default (-100000) (startdepths s !! op_id op) < depth.

(** The state after [walk] has entered [op] at [idx] and applied its stack
    effect. *)
Definition enter (s : WalkState) (idx : nat) (op : Op) (depth : Z)
    : WalkState :=
  {| seen := seen s ∪ {[op_id op]};
     startdepths := <[op_id op := depth]> (startdepths s);
     visited := visited s ++ [(idx, depth + stack_effect (op_cls op))] |}.

Section OperandBytes.
Context `{Catalog}.



End OperandBytes.

(** ** A sample catalog *)

(** A catalog with the opcode numbering of CPython 3.2, for the examples
    below.  Every theorem of this file is stated for an arbitrary catalog. *)
Module Sample.

Definition mk_cls (c : Z) (a l n f k jr ja : bool) (e : Z) : OpClass :=
  {| code := c; has_arg := a; has_local := l; has_name := n; has_free := f;
     has_const := k; has_jrel := jr; has_jabs := ja; stack_effect := e |}.

Definition POP_TOP := mk_cls 1 false false false false false false false (-1).
Definition NOP := mk_cls 9 false false false false false false false 0.
Definition RETURN_VALUE :=
  mk_cls 83 false false false false false false false (-1).
Definition YIELD_VALUE := mk_cls 86 false false false false false false false 0.
Definition STORE_NAME := mk_cls 90 true false true false false false false (-1).
Definition DELETE_NAME := mk_cls 91 true false true false false false false 0.
Definition FOR_ITER := mk_cls 93 true false false false false true false 1.
Definition LOAD_CONST := mk_cls 100 true false false false true false false 1.
Definition LOAD_NAME := mk_cls 101 true false true false false false false 1.
Definition JUMP_FORWARD :=
  mk_cls 110 true false false false false true false 0.
Definition JUMP_ABSOLUTE :=
  mk_cls 113 true false false false false false true 0.
Definition POP_JUMP_IF_FALSE :=
  mk_cls 114 true false false false false false true (-1).
Definition SETUP_EXCEPT :=
  mk_cls 121 true false false false false true false 0.
Definition SETUP_FINALLY :=
  mk_cls 122 true false false false false true false 0.
Definition LOAD_FAST := mk_cls 124 true true false false false false false 1.
Definition STORE_FAST :=
  mk_cls 125 true true false false false false false (-1).
Definition CALL_FUNCTION :=
  mk_cls 131 true false false false false false false 0.
Definition LOAD_DEREF := mk_cls 136 true false false true false false false 1.
Definition STORE_DEREF :=
  mk_cls 137 true false false true false false false (-1).
Definition EXTENDED_ARG :=
  mk_cls 144 true false false false false false false 0.

Definition classes : list OpClass :=
  [POP_TOP; NOP; RETURN_VALUE; YIELD_VALUE; STORE_NAME; DELETE_NAME;
   FOR_ITER; LOAD_CONST; LOAD_NAME; JUMP_FORWARD; JUMP_ABSOLUTE;
   POP_JUMP_IF_FALSE; SETUP_EXCEPT; SETUP_FINALLY; LOAD_FAST; STORE_FAST;
   CALL_FUNCTION; LOAD_DEREF; STORE_DEREF; EXTENDED_ARG].

Definition lookup_class (b : Z) : option OpClass :=
  snd <$> list_find (λ c, code c = b) classes.

#[export] Instance catalog : Catalog :=
  Build_Catalog SETUP_EXCEPT SETUP_FINALLY JUMP_ABSOLUTE JUMP_FORWARD
    FOR_ITER EXTENDED_ARG YIELD_VALUE LOAD_NAME STORE_NAME DELETE_NAME
    [LOAD_DEREF; STORE_DEREF] lookup_class.

(** An instruction without attributes. *)
Definition op (id : Z) (c : OpClass) : Op := new_op c id None.

(** A code unit with the given instructions, first line and docstring. *)
Definition code_unit (ops : list Op) (firstlineno : Z) (doc : Const) : Code :=
  {| ops := ops; vararg := None; varkwarg := None; newlocals := false;
     filename := "<string>"; firstlineno := firstlineno;
     code_name := "<code>"; args := Some []; kwonlyargs := Some [];
     varnames := Some []; freevars := Some []; cellvars := Some [];
     docstring := doc |}.

(** A code object with the given byte code and constants. *)
Definition pycode (bytes : list Z) (consts : list Const) : CodeType :=
  {| co_argcount := 0; co_kwonlyargcount := 0; co_nlocals := 0;
     co_stacksize := 0; co_flags := 0; co_code := bytes;
     co_consts := consts; co_names := []; co_varnames := [];
     co_filename := "<string>"; co_name := "<code>"; co_firstlineno := 1;
     co_lnotab := []; co_freevars := []; co_cellvars := [] |}.

(** [LOAD_CONST None; JUMP_FORWARD l; NOP; l: RETURN_VALUE] *)
Definition forward_jump : Code :=
  code_unit [set_const (op 0 LOAD_CONST) CNone; set_jrel (op 1 JUMP_FORWARD) 3;
        op 2 NOP; op 3 RETURN_VALUE] 1 CNone.

(** [JUMP_ABSOLUTE l], where [l] is not an instruction of the unit; the
    jump carries a line number below the first line of the unit. *)
Definition dangling_jump : Op :=
  {| op_id := 0; op_cls := JUMP_ABSOLUTE; arg := None; local := None;
     name := None; cell := None; free := None; const := None;
     jrel := None; jabs := Some 99; lineno := Some 0 |}.

Definition dangling_unit : Code := code_unit [dangling_jump] 5 CNone.

(** [SETUP_EXCEPT l; l: NOP] *)
Definition setup_op : Op := set_jrel (op 0 SETUP_EXCEPT) 1.
Definition setup_ops : list Op := [setup_op; op 1 NOP].

(** [l: JUMP_ABSOLUTE l] *)
Definition self_loop : Code :=
  code_unit [set_jabs (op 0 JUMP_ABSOLUTE) 0] 1 CNone.

(** [LOAD_CONST None; RETURN_VALUE] with the docstring 5. *)
Definition int_docstring : Code :=
  code_unit [set_const (op 0 LOAD_CONST) CNone; op 1 RETURN_VALUE] 1
    (CInt 5).

(** [l: JUMP_ABSOLUTE l'], where [l'] is not an instruction of the unit. *)
Definition dangling_unit' : Code :=
  code_unit [set_jabs (op 0 JUMP_ABSOLUTE) 99] 1 CNone.

(** [CALL_FUNCTION 2**32] *)
Definition wide_operand : Code :=
  code_unit [set_arg (op 0 CALL_FUNCTION) (2 ^ 32)] 1 CNone.

(** [POP_TOP] on an empty stack. *)
Definition underflow : Code := code_unit [op 0 POP_TOP] 1 CNone.

(** [EXTENDED_ARG 1; CALL_FUNCTION 0; CALL_FUNCTION 0] *)
Definition extended_bytes : list Z := [144; 1; 0; 131; 0; 0; 131; 0; 0].

(** [op], at the line [line]. *)
Definition at_line (line : Z) (op : Op) : Op :=
  {| op_id := op_id op; op_cls := op_cls op; arg := arg op;
     local := local op; name := name op; cell := cell op; free := free op;
     const := const op; jrel := jrel op; jabs := jabs op;
     lineno := Some line |}.

(** [LOAD_CONST None] at line 1, [JUMP_FORWARD l] at line 2, [NOP] without a
    line number, and [l: RETURN_VALUE] at line 3. *)
Definition annotated_jump : Code :=
  code_unit [at_line 1 (set_const (op 0 LOAD_CONST) CNone);
             at_line 2 (set_jrel (op 1 JUMP_FORWARD) 3);
             op 2 NOP; at_line 3 (op 3 RETURN_VALUE)] 1 CNone.

(** [LOAD_CONST None; RETURN_VALUE], both at line 1. *)
Definition same_line : Code :=
  code_unit [at_line 1 (set_const (op 0 LOAD_CONST) CNone);
             at_line 1 (op 1 RETURN_VALUE)] 1 CNone.

(** [CALL_FUNCTION 0x10000] at line 1. *)
Definition extended_operand : Code :=
  code_unit [at_line 1 (set_arg (op 0 CALL_FUNCTION) 0x10000)] 1 CNone.


(** [LOAD_FAST] without the attribute [local]. *)
Definition no_local : Code := code_unit [op 0 LOAD_FAST] 1 CNone.

(** The byte code of [forward_jump]. *)
Definition forward_jump_bytes : list Z := [100; 0; 0; 110; 1; 0; 9; 83].

(** [SETUP_EXCEPT l; NOP; l: NOP] *)
Definition handler_ops : list Op :=
  [set_jrel (op 0 SETUP_EXCEPT) 2; op 1 NOP; op 2 NOP].

(** [LOAD_CONST None; FOR_ITER l; POP_TOP; l: NOP] *)
Definition iter_ops : list Op :=
  [set_const (op 0 LOAD_CONST) CNone; set_jrel (op 1 FOR_ITER) 3;
   op 2 POP_TOP; op 3 NOP].

(** [l: POP_JUMP_IF_FALSE l] *)
Definition self_jump : Op := set_jabs (op 0 POP_JUMP_IF_FALSE) 0.


(** [n] instructions [NOP], with the identities [first], [first + 1], ... *)
Fixpoint nops (first : Z) (n : nat) : list Op :=
  match n with
  | O => []
  | S n => op first NOP :: nops (first + 1) n
  end.






(** The name of the variable number [n]. *)
Definition name_of (n : nat) : string := String.append "v" (pretty n).




End Sample.
(** * Properties *)

(** ** Results and exceptions *)

Lemma ops_index_raise ops j e : ops_index ops j = Raise e → e = ValueError.
Proof. unfold ops_index. by repeat case_match; intros [= <-]. Qed.


Lemma fmap_getattr_raise {A B} (f : A → B) (o : option A) e :
  f <$> getattr o = Raise e → e = AttributeError.
Proof. destruct o; simpl; congruence. Qed.

Lemma bind_Ok {A B} (m : result A) (k : A → result B) b :
  m ≫= k = Ok b → ∃ a, m = Ok a ∧ k a = Ok b.
Proof. destruct m as [a|e]; [by exists a|done]. Qed.


Ltac inv_bind :=
  repeat match goal with
  | Hb : _ ≫= _ = Ok _ |- _ =>
      let a := fresh "a" in let E := fresh "E" in
      apply bind_Ok in Hb as (a & E & Hb)
  | Hb : (let '(_, _) := ?p in _) = _ |- _ => destruct p
  | Hb : Ok _ = Ok _ |- _ => injection Hb as Hb
  end.

Lemma for_each_inv {S A} (P : S → Prop) (body : S → A → result S) l s s' :
  (∀ s x s', x ∈ l → body s x = Ok s' → P s → P s') →
  for_each body s l = Ok s' → P s → P s'.
Proof.
  revert s. induction l as [|x l IH]; intros s Hbody; simpl.
  - by intros [= <-].
  - intros Hb Hs. apply bind_Ok in Hb as (s1 & E1 & Hb).
    eapply IH; [|done|].
    + intros ?????. eapply Hbody; [by right|done..].
    + eapply Hbody; [by left|done..].
Qed.


(** A loop whose body raises on one of the elements raises. *)
Lemma for_each_fails {S A} (body : S → A → result S) l s x :
  x ∈ l → (∀ s1, ∃ e, body s1 x = Raise e) → ∃ e, for_each body s l = Raise e.
Proof.
  intros Hx Hf. revert s. induction l as [|y l IH]; intros s; [by inversion Hx|].
  simpl. destruct (body s y) as [s1|e] eqn:E; simpl; [|by exists e].
  apply elem_of_cons in Hx as [->|Hx].
  - destruct (Hf s) as [e He]. congruence.
  - by apply IH.
Qed.


Lemma land_255 x : Z.land x 0xFF = x mod 256.
Proof. change 0xFF with (Z.ones 8). by rewrite Z.land_ones by lia. Qed.

Lemma is_byte_land x : is_byte (Z.land x 0xFF) = true.
Proof.
  unfold is_byte. rewrite land_255.
  pose proof (Z.mod_pos_bound x 256 ltac:(lia)).
  apply andb_true_iff. lia.
Qed.

Lemma ba_extend_byte ba x : is_byte x = true → ba_extend ba [x] = Ok (ba ++ [x]).
Proof. intros Hx. unfold ba_extend. simpl. by rewrite Hx. Qed.

Lemma ba_extend_inv ba xs ba' : ba_extend ba xs = Ok ba' → ba' = ba ++ xs.
Proof. unfold ba_extend. case_match; congruence. Qed.



Lemma len_app {A} (l1 l2 : list A) : len (l1 ++ l2) = len l1 + len l2.
Proof. unfold len. rewrite length_app. lia. Qed.

(** Each element of a loop establishes a fact that the rest of the loop
    keeps. *)
Lemma for_each_elem {S A} (Q : A → S → Prop) (body : S → A → result S) l s s' :
  (∀ s x s', body s x = Ok s' → Q x s') →
  (∀ s x s' y, body s x = Ok s' → Q y s → Q y s') →
  for_each body s l = Ok s' → ∀ x, x ∈ l → Q x s'.
Proof.
  intros Hnew Hkeep. revert s. induction l as [|y l IH]; intros s; simpl.
  - intros _ x Hx. by inversion Hx.
  - intros Hb x Hx. apply bind_Ok in Hb as (s1 & E1 & Hb).
    apply elem_of_cons in Hx as [->|Hx]; [|by eapply IH].
    apply Hnew in E1. clear IH. revert s1 E1 Hb.
    induction l as [|z l IH]; intros s1 E1; simpl.
    + by intros [= <-].
    + intros Hb. apply bind_Ok in Hb as (s2 & E2 & Hb).
      eapply IH; [|done]. by eapply Hkeep.
Qed.





(** A loop that appends one result per element. *)
Lemma for_each_append {A B} (f : A → result B) (l : list A) acc r :
  for_each (λ acc x, y ← f x; Ok (acc ++ [y])) acc l = Ok r →
  ∃ l', r = acc ++ l' ∧ Forall2 (λ x y, f x = Ok y) l l'.
Proof.
  revert acc. induction l as [|x l IH]; intros acc; simpl.
  - intros [= <-]. exists []. by rewrite app_nil_r.
  - intros Hb. apply bind_Ok in Hb as (acc1 & E1 & Hb).
    apply bind_Ok in E1 as (y & Ey & [= <-]).
    apply IH in Hb as (l' & -> & Hl'). exists (y :: l').
    split; [by rewrite <- app_assoc|]. by constructor.
Qed.

Lemma os_add_head {A} `{EqDecision A} (d : A) l x :
  ∃ l', os_add (d :: l) x = d :: l'.
Proof. unfold os_add. case_match; [by eexists|]. by exists (l ++ [x]). Qed.

(** ** The stack-depth analysis *)

Section StackSizeProofs.
Context `{Catalog}.

(** Case analysis on the body of [walk], after the instruction has been
    found not to be skipped. *)
Local Ltac walk_cases IH :=
  repeat (case_match; simplify_eq/=); intros; simplify_eq/=.

(** [finally: seen.discard(op)] restores [seen]: a call of [walk] leaves the
    set as it found it, whether it returns or raises. *)
Lemma walk_seen fuel ops idx depth maxdepth s s' r :
  walk fuel ops idx depth maxdepth s = Some (s', r) → seen s' = seen s.
Proof.
  revert idx depth maxdepth s s' r.
  induction fuel as [|fuel IH]; intros idx depth maxdepth s s' r; [done|].
  simpl. destruct (ops !! idx) as [op|] eqn:Hop; [|by intros [= <- <-]].
  destruct (bool_decide (op_id op ∈ seen s)) eqn:Hin; simpl;
    [by intros [= <- <-]|].
  apply bool_decide_eq_false in Hin.
  destruct (depth <=? _) eqn:Hsd; [by intros [= <- <-]|].
  set (s1 := {| seen := seen s ∪ {[op_id op]}; startdepths := _;
                visited := _ |}).
  assert (Hrestore : ∀ s2,
    seen s2 = seen s1 → seen (discard_seen op s2) = seen s).
  { intros s2 E. simpl. rewrite E. simpl.
    apply set_eq. intros x.
    rewrite elem_of_difference, elem_of_union, elem_of_singleton.
    split; [tauto|]. intros Hx. split; [by left|]. by intros ->. }
  match goal with
  | |- context [match ?b with Some _ => _ | None => None end] =>
      destruct b as [[s2 r2]|] eqn:Hbody
  end; [|done].
  intros [= <- <-]. apply Hrestore.
  revert Hbody. walk_cases IH; try done;
    repeat match goal with
    | Hw : walk fuel _ _ _ _ _ = Some _ |- _ => apply IH in Hw; simpl in Hw
    end; congruence.
Qed.

Lemma size_op_ids ops : (size (op_ids ops) ≤ length ops)%nat.
Proof.
  unfold op_ids. induction ops as [|o ops IH].
  - rewrite fmap_nil, list_to_set_nil, (size_empty (C:=gset Z)). lia.
  - rewrite fmap_cons, list_to_set_cons, size_union_alt, size_singleton.
    rewrite length_cons.
    etrans; [apply Nat.add_le_mono_l, subseteq_size|]; [|apply le_n_S, IH].
    apply subseteq_difference_l. done.
Qed.

(** The nesting of [walk] is bounded by the number of instructions that are
    not on the active path: with more fuel than that, [walk] returns or
    raises. *)
Lemma walk_fuel fuel ops idx depth maxdepth s :
  (size (op_ids ops ∖ seen s) < fuel)%nat →
  is_Some (walk fuel ops idx depth maxdepth s).
Proof.
  revert idx depth maxdepth s.
  induction fuel as [|fuel IH]; intros idx depth maxdepth s Hsz; [lia|].
  simpl. destruct (ops !! idx) as [op|] eqn:Hop; [|by eexists].
  destruct (bool_decide (op_id op ∈ seen s)) eqn:Hin; simpl; [by eexists|].
  apply bool_decide_eq_false in Hin.
  destruct (depth <=? _) eqn:Hsd; [by eexists|].
  set (s1 := {| seen := seen s ∪ {[op_id op]}; startdepths := _;
                visited := _ |}).
  assert (Hlt : (size (op_ids ops ∖ seen s1) < fuel)%nat).
  { assert (op_id op ∈ op_ids ops).
    { apply elem_of_list_to_set, list_elem_of_fmap. exists op.
      split; [done|]. by eapply list_elem_of_lookup_2. }
    assert (op_ids ops ∖ seen s1 ⊂ op_ids ops ∖ seen s) as Hsub.
    { simpl. split.
      - intros x. rewrite !elem_of_difference, elem_of_union. tauto.
      - intros Hsub. specialize (Hsub (op_id op)).
        rewrite !elem_of_difference, elem_of_union, elem_of_singleton
          in Hsub. tauto. }
    apply subset_size in Hsub. lia. }
  assert (Hrec : ∀ i d m s2,
    seen s2 = seen s1 → is_Some (walk fuel ops i d m s2)).
  { intros i d m s2 E. apply IH. by rewrite E. }
  assert (Hfin : ∀ b : option (WalkState * result Z), is_Some b →
    is_Some (match b with
             | Some (s2, r) => Some (discard_seen op s2, r)
             | None => None
             end)).
  { intros [[??]|] [? ?]; by eexists. }
  apply Hfin.
  destruct (_ <? 0); [by eexists|].
  walk_cases IH; try (by eexists); try (by apply Hrec);
    try match goal with
    | Hw : walk fuel _ _ _ _ s1 = Some (?s2, _) |- _ =>
        apply Hrec; by apply walk_seen in Hw
    | Hw : walk fuel _ _ _ _ s1 = None |- _ =>
        exfalso; eapply is_Some_None; rewrite <- Hw; by apply Hrec
    end.
Qed.

Lemma calc_stack_size_run_some ops :
  ∃ s r, calc_stack_size_run ops = Some (s, r).
Proof.
  destruct (walk_fuel (S (length ops)) ops 0 0 0 walk_init) as [[s r] E].
  - simpl. rewrite difference_empty_L. apply Nat.lt_succ_r, size_op_ids.
  - by exists s, r.
Qed.

(** The exceptions [walk] raises. *)
Lemma walk_raises fuel ops idx depth maxdepth s s' e :
  walk fuel ops idx depth maxdepth s = Some (s', Raise e) →
  e = AssertionError ∨ e = ValueError ∨ e = AttributeError.
Proof.
  revert idx depth maxdepth s s'.
  induction fuel as [|fuel IH]; intros idx depth maxdepth s s'; [done|].
  simpl. destruct (ops !! idx) as [op|] eqn:Hop; [|done].
  destruct (bool_decide (op_id op ∈ seen s)) eqn:Hin; simpl; [done|].
  destruct (depth <=? _) eqn:Hsd; [done|].
  match goal with
  | |- context [match ?b with Some _ => _ | None => None end] =>
      destruct b as [[s2 r2]|] eqn:Hbody
  end; [|done].
  intros [= <- ->]. revert Hbody.
  walk_cases IH; eauto;
    repeat match goal with
    | Hw : ops_index _ _ = Raise _ |- _ => apply ops_index_raise in Hw; subst
    | Hw : _ <$> getattr _ = Raise _ |- _ =>
        apply fmap_getattr_raise in Hw; subst
    end; eauto.
Qed.

(** [maxdepth] only grows. *)
Lemma walk_maxdepth_le fuel ops idx depth maxdepth s s' d :
  walk fuel ops idx depth maxdepth s = Some (s', Ok d) → maxdepth ≤ d.
Proof.
  revert idx depth maxdepth s s' d.
  induction fuel as [|fuel IH]; intros idx depth maxdepth s s' d; [done|].
  simpl. destruct (ops !! idx) as [op|] eqn:Hop; [|intros [= <- <-]; lia].
  destruct (bool_decide (op_id op ∈ seen s)) eqn:Hin; simpl;
    [intros [= <- <-]; lia|].
  destruct (depth <=? _) eqn:Hsd; [intros [= <- <-]; lia|].
  match goal with
  | |- context [match ?b with Some _ => _ | None => None end] =>
      destruct b as [[s2 r2]|] eqn:Hbody
  end; [|done].
  intros [= <- ->]. revert Hbody.
  walk_cases IH;
    repeat match goal with
    | Hw : walk fuel _ _ _ _ _ = Some (_, Ok _) |- _ => apply IH in Hw
    end; lia.
Qed.

(** The history of [walk]: as long as no recorded depth is negative the
    traversal goes on, and the first negative one raises
    [AssertionError]. *)
Lemma walk_visited fuel ops idx depth maxdepth s s' r :
  walk fuel ops idx depth maxdepth s = Some (s', r) →
  Forall nonneg_visit (visited s) →
  (r = Raise AssertionError ∧ Exists (λ v, v.2 < 0) (visited s'))
  ∨ (r ≠ Raise AssertionError ∧ Forall nonneg_visit (visited s')).
Proof.
  revert idx depth maxdepth s s' r.
  induction fuel as [|fuel IH]; intros idx depth maxdepth s s' r; [done|].
  simpl. destruct (ops !! idx) as [op|] eqn:Hop;
    [|intros [= <- <-]; by right].
  destruct (bool_decide (op_id op ∈ seen s)) eqn:Hin; simpl;
    [intros [= <- <-]; by right|].
  destruct (depth <=? _) eqn:Hsd; [intros [= <- <-]; by right|].
  set (s1 := {| seen := seen s ∪ {[op_id op]}; startdepths := _;
                visited := _ |}).
  match goal with
  | |- context [match ?b with Some _ => _ | None => None end] =>
      destruct b as [[s2 r2]|] eqn:Hbody
  end; [|done].
  intros [= <- <-] Hall. simpl.
  revert Hbody.
  destruct (_ <? 0) eqn:Hneg.
  { intros [= <- <-]. left. split; [done|]. simpl.
    apply Exists_app. right. apply Exists_cons_hd. simpl. lia. }
  assert (Hall1 : Forall nonneg_visit (visited s1)).
  { simpl. apply Forall_app. split; [done|]. apply Forall_singleton.
    unfold nonneg_visit. simpl. lia. }
  walk_cases IH;
    try (right; by split);
    try (by eapply IH);
    repeat match goal with
    | Hw : walk fuel _ _ _ _ s1 = Some _ |- _ =>
        apply IH in Hw; [|done]; destruct Hw as [[? ?]|[? ?]]; simplify_eq
    end; try (by left); try (by right); try (by eapply IH);
    repeat match goal with
    | Hw : ops_index _ _ = Raise _ |- _ => apply ops_index_raise in Hw; subst
    | Hw : _ <$> getattr _ = Raise _ |- _ =>
        apply fmap_getattr_raise in Hw; subst
    end; by right.
Qed.

End StackSizeProofs.

Section StackSizeMore.
Context `{Catalog}.

Local Ltac walk_cases :=
  repeat (case_match; simplify_eq/=); intros; simplify_eq/=.

(** More nesting budget does not change a result. *)
Lemma walk_fuel_mono fuel fuel' ops idx depth maxdepth s x :
  (fuel ≤ fuel')%nat →
  walk fuel ops idx depth maxdepth s = Some x →
  walk fuel' ops idx depth maxdepth s = Some x.
Proof.
  revert fuel' idx depth maxdepth s x.
  induction fuel as [|fuel IH]; intros fuel' idx depth maxdepth s x Hle;
    [done|].
  destruct fuel' as [|fuel']; [lia|]. assert (Hle' : (fuel ≤ fuel')%nat) by lia.
  simpl. destruct (ops !! idx) as [op|] eqn:Hop; [|done].
  destruct (bool_decide (op_id op ∈ seen s) || _); [done|].
  set (s1 := {| seen := seen s ∪ {[op_id op]}; startdepths := _;
                visited := _ |}).
  destruct (_ <? 0); [done|].
  destruct (if has_jrel (op_cls op) then _ else _) as [[j|]|e]; [| |done].
  2:{ destruct (walk fuel ops (S idx) _ _ s1) as [y|] eqn:E; [|done].
      by rewrite (IH _ _ _ _ _ _ Hle' E). }
  destruct (if bool_decide (_ ∨ _) then _ else _) as [td md].
  destruct (ops_index ops j) as [tgt|e]; [|done].
  destruct (walk fuel ops tgt td md s1) as [[s2 [m2|e2]]|] eqn:E1; [| |done];
    rewrite (IH _ _ _ _ _ _ Hle' E1); [|done].
  destruct (bool_decide (_ ∨ _)); [done|].
  destruct (walk fuel ops (S idx) _ m2 s2) as [y|] eqn:E2; [|done].
  by rewrite (IH _ _ _ _ _ _ Hle' E2).
Qed.

Lemma ops_index_ok ops t : t ∈ op_ids ops → ∃ i, ops_index ops t = Ok i.
Proof.
  intros Ht. apply elem_of_list_to_set, list_elem_of_fmap in Ht
    as (o & -> & Ho).
  unfold ops_index.
  destruct (list_find_elem_of (λ o', op_id o' = op_id o) ops o Ho eq_refl)
    as [[i y] E].
  rewrite E. by eexists.
Qed.

(** With every jump closed, the only exception is [AssertionError]. *)
Lemma walk_closed fuel ops idx depth maxdepth s s' e :
  closed_jumps ops →
  walk fuel ops idx depth maxdepth s = Some (s', Raise e) →
  e = AssertionError.
Proof.
  intros Hclosed. revert idx depth maxdepth s s'.
  induction fuel as [|fuel IH]; intros idx depth maxdepth s s'; [done|].
  simpl. destruct (ops !! idx) as [op|] eqn:Hop; [|done].
  destruct (bool_decide (op_id op ∈ seen s) || _); [done|].
  set (s1 := {| seen := seen s ∪ {[op_id op]}; startdepths := _;
                visited := _ |}).
  destruct (_ <? 0); [by intros [= <- <-]|].
  assert (Hin : op ∈ ops) by (by eapply list_elem_of_lookup_2).
  specialize (Hclosed op Hin). unfold jump_operand in Hclosed.
  destruct (has_jrel (op_cls op)) eqn:Hjr;
    [|destruct (has_jabs (op_cls op)) eqn:Hja]; cbn [orb] in Hclosed.
  3:{ destruct (walk fuel ops (S idx) _ _ s1) as [[s2 r2]|] eqn:E; [|done].
      intros [= <- ->]. by eapply IH. }
  all: destruct (Hclosed eq_refl) as (t & -> & Ht); cbn [getattr fmap result_fmap];
    destruct (ops_index_ok _ _ Ht) as [tgt ->];
    destruct (if bool_decide (_ ∨ _) then _ else _) as [td md];
    (destruct (walk fuel ops tgt td md s1) as [[s2 [m2|e2]]|] eqn:E1;
       [|intros [= <- <-]; by eapply IH|done]);
    (destruct (bool_decide (_ ∨ _)); [done|]);
    (destruct (walk fuel ops (S idx) _ m2 s2) as [[s3 r3]|] eqn:E2; [|done]);
    intros [= <- ->]; by eapply IH.
Qed.

End StackSizeMore.

Section StackSizeEdges.
Context `{Catalog}.

Local Ltac walk_cases :=
  repeat (case_match; simplify_eq/=); intros; simplify_eq/=.

Lemma entered_skip s op depth :
  entered s op depth →
  bool_decide (op_id op ∈ seen s)
  || (depth <=? default (-100000) (startdepths s !! op_id op)) = false.
Proof.
  intros [Hin Hlt]. apply orb_false_iff.
  split; [by apply bool_decide_eq_false|lia].
Qed.

Lemma not_entered_skip s op depth :
  ¬ entered s op depth →
  bool_decide (op_id op ∈ seen s)
  || (depth <=? default (-100000) (startdepths s !! op_id op)) = true.
Proof.
  intros Hne. apply orb_true_iff.
  destruct (decide (op_id op ∈ seen s)) as [Hin|Hin];
    [left; by apply bool_decide_eq_true|].
  right. apply Z.leb_le.
  destruct (decide (default (-100000) (startdepths s !! op_id op) < depth));
    [|lia].
  exfalso. apply Hne. by split.
Qed.

(** [walk] returns at once from an instruction it does not enter. *)
Lemma walk_skipped fuel ops idx depth maxdepth s op :
  ops !! idx = Some op → ¬ entered s op depth →
  walk (S fuel) ops idx depth maxdepth s = Some (s, Ok maxdepth).
Proof.
  intros Hop Hne. simpl. rewrite Hop. by rewrite (not_entered_skip _ _ _ Hne).
Qed.

(** The history only grows. *)
Lemma walk_visited_prefix fuel ops idx depth maxdepth s s' r :
  walk fuel ops idx depth maxdepth s = Some (s', r) →
  ∃ rest, visited s' = visited s ++ rest.
Proof.
  revert idx depth maxdepth s s' r.
  induction fuel as [|fuel IH]; intros idx depth maxdepth s s' r; [done|].
  simpl. destruct (ops !! idx) as [op|] eqn:Hop.
  2:{ intros [= <- <-]. exists []. by rewrite app_nil_r. }
  destruct (bool_decide (op_id op ∈ seen s) || _).
  { intros [= <- <-]. exists []. by rewrite app_nil_r. }
  set (s1 := {| seen := seen s ∪ {[op_id op]}; startdepths := _;
                visited := _ |}).
  assert (Hs1 : ∀ s2 rest, visited s2 = visited s1 ++ rest →
    ∃ rest', visited (discard_seen op s2) = visited s ++ rest').
  { intros s2 rest E. cbn [discard_seen visited]. rewrite E. subst s1.
    cbn [visited]. rewrite <- app_assoc. by eexists. }
  destruct (_ <? 0).
  { intros [= <- <-]. apply (Hs1 s1 []). by rewrite app_nil_r. }
  destruct (if has_jrel (op_cls op) then _ else _) as [[j|]|e].
  3:{ intros [= <- <-]. apply (Hs1 s1 []). by rewrite app_nil_r. }
  2:{ destruct (walk fuel ops (S idx) _ _ s1) as [[s2 r2]|] eqn:E; [|done].
      intros [= <- <-]. apply IH in E as [rest E]. by eapply Hs1. }
  destruct (if bool_decide (_ ∨ _) then _ else _) as [td md].
  destruct (ops_index ops j) as [tgt|e].
  2:{ intros [= <- <-]. apply (Hs1 s1 []). by rewrite app_nil_r. }
  destruct (walk fuel ops tgt td md s1) as [[s2 [m2|e2]]|] eqn:E1; [| |done].
  2:{ intros [= <- <-]. apply IH in E1 as [rest E1]. by eapply Hs1. }
  apply IH in E1 as [rest1 E1].
  destruct (bool_decide (_ ∨ _)).
  { intros [= <- <-]. by eapply Hs1. }
  destruct (walk fuel ops (S idx) _ m2 s2) as [[s3 r3]|] eqn:E2; [|done].
  intros [= <- <-]. apply IH in E2 as [rest2 E2].
  apply (Hs1 s3 (rest1 ++ rest2)). by rewrite E2, E1, app_assoc.
Qed.

(** An instruction that [walk] enters is the next entry of the history. *)
Lemma walk_entry fuel ops idx depth maxdepth s s' r op :
  walk fuel ops idx depth maxdepth s = Some (s', r) →
  ops !! idx = Some op → entered s op depth →
  ∃ rest,
    visited s' = visited s ++ (idx, depth + stack_effect (op_cls op)) :: rest.
Proof.
  destruct fuel as [|fuel]; [done|]. intros Hw Hop Hent.
  simpl in Hw. rewrite Hop, (entered_skip _ _ _ Hent) in Hw.
  fold (enter s idx op depth) in Hw.
  set (s1 := enter s idx op depth) in *.
  assert (Hs1 : ∀ s2 rest, visited s2 = visited s1 ++ rest →
    visited (discard_seen op s2)
    = visited s ++ (idx, depth + stack_effect (op_cls op)) :: rest).
  { intros s2 rest E. cbn [discard_seen visited]. rewrite E. subst s1.
    cbn [enter visited]. by rewrite <- app_assoc. }
  assert (Hs0 : visited s1 = visited s1 ++ []) by (by rewrite app_nil_r).
  revert Hw. destruct (_ <? 0).
  { intros [= <- <-]. eexists. by apply Hs1. }
  destruct (if has_jrel (op_cls op) then _ else _) as [[j|]|e].
  3:{ intros [= <- <-]. eexists. by apply Hs1. }
  2:{ destruct (walk fuel ops (S idx) _ _ s1) as [[s2 r2]|] eqn:E; [|done].
      intros [= <- <-]. apply walk_visited_prefix in E as [rest E].
      eexists. by apply Hs1. }
  destruct (if bool_decide (_ ∨ _) then _ else _) as [td md].
  destruct (ops_index ops j) as [tgt|e].
  2:{ intros [= <- <-]. eexists. by apply Hs1. }
  destruct (walk fuel ops tgt td md s1) as [[s2 [m2|e2]]|] eqn:E1; [| |done].
  2:{ intros [= <- <-]. apply walk_visited_prefix in E1 as [rest E1].
      eexists. by apply Hs1. }
  apply walk_visited_prefix in E1 as [rest1 E1].
  destruct (bool_decide (_ ∨ _)).
  { intros [= <- <-]. eexists. by apply Hs1. }
  destruct (walk fuel ops (S idx) _ m2 s2) as [[s3 r3]|] eqn:E2; [|done].
  intros [= <- <-]. apply walk_visited_prefix in E2 as [rest2 E2].
  eexists. apply (Hs1 s3 (rest1 ++ rest2)). by rewrite E2, E1, app_assoc.
Qed.

(** The memoized depths only grow. *)
Lemma walk_startdepths_mono fuel ops idx depth maxdepth s s' r id sd :
  walk fuel ops idx depth maxdepth s = Some (s', r) →
  startdepths s !! id = Some sd →
  ∃ sd', startdepths s' !! id = Some sd' ∧ sd ≤ sd'.
Proof.
  revert idx depth maxdepth s s' r sd.
  induction fuel as [|fuel IH]; intros idx depth maxdepth s s' r sd; [done|].
  simpl. destruct (ops !! idx) as [op|] eqn:Hop.
  2:{ intros [= <- <-] ?. exists sd. split; [done|lia]. }
  destruct (bool_decide (op_id op ∈ seen s)) eqn:Hin; cbn [orb].
  { intros [= <- <-] ?. exists sd. split; [done|lia]. }
  destruct (depth <=? _) eqn:Hsd.
  { intros [= <- <-] ?. exists sd. split; [done|lia]. }
  apply Z.leb_gt in Hsd.
  set (s1 := {| seen := seen s ∪ {[op_id op]}; startdepths := _;
                visited := _ |}).
  intros Hw Hid.
  assert (H1 : ∃ sd1, startdepths s1 !! id = Some sd1 ∧ sd ≤ sd1).
  { subst s1. cbn [startdepths].
    destruct (decide (id = op_id op)) as [->|Hne].
    - rewrite lookup_insert_eq. exists depth. split; [done|].
      rewrite Hid in Hsd. cbn in Hsd. lia.
    - rewrite lookup_insert_ne by done. exists sd. split; [done|lia]. }
  destruct H1 as (sd1 & Hid1 & Hle1).
  assert (Hfin : ∀ s2 sd2, startdepths s2 !! id = Some sd2 → sd1 ≤ sd2 →
    ∃ sd', startdepths (discard_seen op s2) !! id = Some sd' ∧ sd ≤ sd').
  { intros s2 sd2 E Hle. exists sd2. split; [done|lia]. }
  revert Hw. destruct (_ <? 0).
  { intros [= <- <-]. eapply Hfin; [done|lia]. }
  destruct (if has_jrel (op_cls op) then _ else _) as [[j|]|e].
  3:{ intros [= <- <-]. eapply Hfin; [done|lia]. }
  2:{ destruct (walk fuel ops (S idx) _ _ s1) as [[s2 r2]|] eqn:E; [|done].
      intros [= <- <-]. eapply IH in E as (sd2 & E & Hle); [|done].
      by eapply Hfin. }
  destruct (if bool_decide (_ ∨ _) then _ else _) as [td md].
  destruct (ops_index ops j) as [tgt|e].
  2:{ intros [= <- <-]. eapply Hfin; [done|lia]. }
  destruct (walk fuel ops tgt td md s1) as [[s2 [m2|e2]]|] eqn:E1; [| |done].
  2:{ intros [= <- <-]. eapply IH in E1 as (sd2 & E1 & Hle); [|done].
      by eapply Hfin. }
  eapply IH in E1 as (sd2 & E1 & Hle2); [|done].
  destruct (bool_decide (_ ∨ _)).
  { intros [= <- <-]. by eapply Hfin. }
  destruct (walk fuel ops (S idx) _ m2 s2) as [[s3 r3]|] eqn:E2; [|done].
  intros [= <- <-]. eapply IH in E2 as (sd3 & E2 & Hle3); [|done].
  eapply Hfin; [done|lia].
Qed.

(** After a call of [walk] on an instruction that is not on the active
    path, the instruction has been entered at the depth of the call or at
    a higher one. *)
Lemma walk_memo fuel ops idx depth maxdepth s s' r op :
  walk (S fuel) ops idx depth maxdepth s = Some (s', r) →
  ops !! idx = Some op → op_id op ∉ seen s → -100000 < depth →
  ∃ sd, startdepths s' !! op_id op = Some sd ∧ depth ≤ sd.
Proof.
  intros Hw Hop Hin Hd.
  destruct (decide (default (-100000) (startdepths s !! op_id op) < depth))
    as [Hlt|Hge].
  - (* entered *)
    simpl in Hw. rewrite Hop, (entered_skip s op depth) in Hw by done.
    set (s1 := {| seen := seen s ∪ {[op_id op]}; startdepths := _;
                  visited := _ |}) in *.
    assert (H1 : startdepths s1 !! op_id op = Some depth)
      by (subst s1; cbn [startdepths]; apply lookup_insert_eq).
    assert (Hfin : ∀ s2 sd2, startdepths s2 !! op_id op = Some sd2 →
      depth ≤ sd2 →
      ∃ sd, startdepths (discard_seen op s2) !! op_id op = Some sd
            ∧ depth ≤ sd).
    { intros s2 sd2 E Hle. by exists sd2. }
    revert Hw. destruct (_ <? 0).
    { intros [= <- <-]. eapply Hfin; [done|lia]. }
    destruct (if has_jrel (op_cls op) then _ else _) as [[j|]|e].
    3:{ intros [= <- <-]. eapply Hfin; [done|lia]. }
    2:{ destruct (walk fuel ops (S idx) _ _ s1) as [[s2 r2]|] eqn:E; [|done].
        intros [= <- <-].
        eapply walk_startdepths_mono in E as (sd2 & E & Hle); [|done].
        by eapply Hfin. }
    destruct (if bool_decide (_ ∨ _) then _ else _) as [td md].
    destruct (ops_index ops j) as [tgt|e].
    2:{ intros [= <- <-]. eapply Hfin; [done|lia]. }
    destruct (walk fuel ops tgt td md s1) as [[s2 [m2|e2]]|] eqn:E1;
      [| |done].
    2:{ intros [= <- <-].
        eapply walk_startdepths_mono in E1 as (sd2 & E1 & Hle); [|done].
        by eapply Hfin. }
    eapply walk_startdepths_mono in E1 as (sd2 & E1 & Hle2); [|done].
    destruct (bool_decide (_ ∨ _)).
    { intros [= <- <-]. by eapply Hfin. }
    destruct (walk fuel ops (S idx) _ m2 s2) as [[s3 r3]|] eqn:E2; [|done].
    intros [= <- <-].
    eapply walk_startdepths_mono in E2 as (sd3 & E2 & Hle3); [|done].
    eapply Hfin; [done|lia].
  - (* memoized at this depth or a higher one *)
    rewrite (walk_skipped fuel ops idx depth maxdepth s op Hop) in Hw.
    2:{ intros [_ ?]. lia. }
    injection Hw as <- <-.
    destruct (startdepths s !! op_id op) as [sd|] eqn:E; cbn in Hge.
    + exists sd. split; [done|lia].
    + lia.
Qed.

End StackSizeEdges.

Section StackSizeStep.
Context `{Catalog}.

(** One call of [walk] on a jump instruction that it enters: the call on
    the target, then, unless the jump is unconditional, the call on the next
    instruction. *)
Lemma walk_jump_step fuel ops idx depth maxdepth s op jump tgt :
  ops !! idx = Some op → entered s op depth →
  let exit := depth + stack_effect (op_cls op) in
  0 ≤ exit →
  jump_operand op = Some jump → ops_index ops jump = Ok tgt →
  let setup := op_cls op = OP_SETUP_EXCEPT ∨ op_cls op = OP_SETUP_FINALLY in
  let unconditional :=
    op_cls op = OP_JUMP_ABSOLUTE ∨ op_cls op = OP_JUMP_FORWARD in
  let delta :=
    if decide setup then 3
    else if decide (op_cls op = OP_FOR_ITER) then -2 else 0 in
  let m0 := if maxdepth <? exit then exit else maxdepth in
  let m := if decide setup then (if m0 <? exit + 3 then exit + 3 else m0)
           else m0 in
  walk (S fuel) ops idx depth maxdepth s =
    match walk fuel ops tgt (exit + delta) m (enter s idx op depth) with
    | None => None
    | Some (s2, Raise e) => Some (discard_seen op s2, Raise e)
    | Some (s2, Ok m2) =>
      if decide unconditional then Some (discard_seen op s2, Ok m2)
      else match walk fuel ops (S idx) exit m2 s2 with
           | Some (s3, r) => Some (discard_seen op s3, r)
           | None => None
           end
    end.
Proof.
  intros Hop Hent exit Hexit Hjump Htgt setup uncond delta m0 m.
  assert (Hj : (if has_jrel (op_cls op) then Some <$> getattr (jrel op)
                else if has_jabs (op_cls op) then Some <$> getattr (jabs op)
                else Ok None) = Ok (Some jump)).
  { unfold jump_operand in Hjump.
    destruct (has_jrel _); [by rewrite Hjump|].
    destruct (has_jabs _); [by rewrite Hjump|done]. }
  assert (Hneg : (exit <? 0) = false) by (apply Z.ltb_ge; lia).
  simpl. rewrite Hop, (entered_skip _ _ _ Hent). fold exit.
  rewrite Hneg, Hj. fold (enter s idx op depth). fold m0.
  subst delta m.
  destruct (decide setup) as [Hs|Hs].
  - rewrite (bool_decide_eq_true_2 _ Hs), Htgt.
    destruct (walk fuel ops tgt (exit + 3) _ _) as [[s2 [m2|e]]|]; try done.
    destruct (decide uncond) as [Hu|Hu].
    + by rewrite (bool_decide_eq_true_2 _ Hu).
    + by rewrite (bool_decide_eq_false_2 _ Hu).
  - rewrite (bool_decide_eq_false_2 _ Hs).
    destruct (decide (op_cls op = OP_FOR_ITER)) as [Hi|Hi].
    + rewrite (bool_decide_eq_true_2 _ Hi), Htgt.
      replace (exit - 2) with (exit + -2) by lia.
      destruct (walk fuel ops tgt (exit + -2) _ _) as [[s2 [m2|e]]|];
        try done.
      destruct (decide uncond) as [Hu|Hu].
      * by rewrite (bool_decide_eq_true_2 _ Hu).
      * by rewrite (bool_decide_eq_false_2 _ Hu).
    + rewrite (bool_decide_eq_false_2 _ Hi), Htgt. rewrite Z.add_0_r.
      destruct (walk fuel ops tgt exit _ _) as [[s2 [m2|e]]|]; try done.
      destruct (decide uncond) as [Hu|Hu].
      * by rewrite (bool_decide_eq_true_2 _ Hu).
      * by rewrite (bool_decide_eq_false_2 _ Hu).
Qed.

End StackSizeStep.

Section StackSizeLoops.
Context `{Catalog}.

(** An instruction that takes the depth below zero. *)
Lemma walk_underflow fuel ops idx depth maxdepth s op :
  ops !! idx = Some op → entered s op depth →
  depth + stack_effect (op_cls op) < 0 →
  walk (S fuel) ops idx depth maxdepth s
  = Some (discard_seen op (enter s idx op depth), Raise AssertionError).
Proof.
  intros Hop Hent Hneg. simpl. rewrite Hop, (entered_skip _ _ _ Hent).
  by rewrite (proj2 (Z.ltb_lt _ _) Hneg).
Qed.

(** An instruction whose jump target is itself, alone in its unit. *)
Lemma walk_self_loop op :
  jump_operand op = Some (op_id op) →
  let e := stack_effect (op_cls op) in
  ∃ s, calc_stack_size_run [op]
       = Some (s, if e <? 0 then Raise AssertionError
                  else Ok (e + if bool_decide (op_cls op = OP_SETUP_EXCEPT
                                                ∨ op_cls op = OP_SETUP_FINALLY)
                               then 3 else 0)).
Proof.
  intros Hjump e. unfold calc_stack_size_run. cbn [length].
  assert (Hent : entered walk_init op 0).
  { split; [apply not_elem_of_empty|].
    cbn [walk_init startdepths]. rewrite lookup_empty. cbn. lia. }
  assert (Hidx : ops_index [op] (op_id op) = Ok 0%nat).
  { unfold ops_index. cbn. by rewrite decide_True. }
  destruct (e <? 0) eqn:Hneg.
  { apply Z.ltb_lt in Hneg.
    rewrite (walk_underflow 1 [op] 0 0 0 walk_init op eq_refl Hent)
      by (fold e; lia).
    by eexists. }
  apply Z.ltb_ge in Hneg.
  rewrite (walk_jump_step 1 [op] 0 0 0 walk_init op (op_id op) 0%nat
             eq_refl Hent ltac:(fold e; lia) Hjump Hidx).
  fold e. rewrite Z.add_0_l.
  set (s1 := enter walk_init 0 op 0).
  assert (Hskip : ¬ entered s1 op (e + (if decide (op_cls op = OP_SETUP_EXCEPT
                                               ∨ op_cls op = OP_SETUP_FINALLY)
     then 3 else if decide (op_cls op = OP_FOR_ITER) then -2 else 0))).
  { intros [Hin _]. apply Hin. subst s1. cbn [enter seen].
    apply elem_of_union. right. by apply elem_of_singleton. }
  rewrite (walk_skipped 0 [op] 0 _ _ s1 op eq_refl Hskip).
  assert (Hm : (if decide (op_cls op = OP_SETUP_EXCEPT
                           ∨ op_cls op = OP_SETUP_FINALLY)
                then if (if 0 <? e then e else 0) <? e + 3 then e + 3
                     else if 0 <? e then e else 0
                else if 0 <? e then e else 0)
               = e + (if bool_decide (op_cls op = OP_SETUP_EXCEPT
                                      ∨ op_cls op = OP_SETUP_FINALLY)
                      then 3 else 0)).
  { destruct (decide _) as [Hs|Hs].
    - rewrite (bool_decide_eq_true_2 _ Hs).
      destruct (0 <? e) eqn:E0; destruct (_ <? e + 3) eqn:E1;
        first [apply Z.ltb_lt in E0|apply Z.ltb_ge in E0];
        first [apply Z.ltb_lt in E1|apply Z.ltb_ge in E1]; lia.
    - rewrite (bool_decide_eq_false_2 _ Hs).
      destruct (0 <? e) eqn:E0;
        first [apply Z.ltb_lt in E0|apply Z.ltb_ge in E0]; lia. }
  rewrite Hm.
  destruct (decide (op_cls op = OP_JUMP_ABSOLUTE ∨ _)); [by eexists|].
  change (walk 1 [op] 1 e ?m s1) with (Some (s1, Ok m)). by eexists.
Qed.

End StackSizeLoops.
(** ** Claims on the stack-depth analysis *)

Section StackSizeClaims.
Context `{Catalog}.

(** C6: when [walk] processes a jump instruction, with the depth [exit]
    after its stack effect, the target is entered at [exit + 3] for
    [SETUP_EXCEPT] and [SETUP_FINALLY], at [exit - 2] for [FOR_ITER] and at
    [exit] for every other jump instruction, and the next instruction, for a
    jump that is not [JUMP_ABSOLUTE] or [JUMP_FORWARD], at [exit] itself.
    This is read off the history of the traversal, which [walk] always
    completes within its nesting budget: the entry after the one of the
    jump is the target with the stack effect of the target added to the
    depth of the jump edge; or, when the target is not entered (it is on
    the active path or memoized at that depth), the next instruction with
    its stack effect added to [exit]; and in every case the next
    instruction ends up memoized at [exit] or above. *)
Theorem jump_edge_depths fuel ops idx depth maxdepth s op jump tgt top :
  (size (op_ids ops ∖ seen s) ≤ fuel)%nat →
  ops !! idx = Some op → entered s op depth →
  let exit := depth + stack_effect (op_cls op) in
  0 ≤ exit →
  jump_operand op = Some jump → ops_index ops jump = Ok tgt →
  ops !! tgt = Some top →
  let setup := op_cls op = OP_SETUP_EXCEPT ∨ op_cls op = OP_SETUP_FINALLY in
  let unconditional :=
    op_cls op = OP_JUMP_ABSOLUTE ∨ op_cls op = OP_JUMP_FORWARD in
  let delta :=
    if decide setup then 3
    else if decide (op_cls op = OP_FOR_ITER) then -2 else 0 in
  let s1 := enter s idx op depth in
  ∃ s' r,
    walk (S fuel) ops idx depth maxdepth s = Some (s', r)
    ∧ (entered s1 top (exit + delta) →
       ∃ rest,
         visited s'
         = visited s ++ (idx, exit)
           :: (tgt, exit + delta + stack_effect (op_cls top)) :: rest)
    ∧ (¬ unconditional → ¬ entered s1 top (exit + delta) →
       ∀ next, ops !! S idx = Some next → entered s1 next exit →
       ∃ rest,
         visited s'
         = visited s ++ (idx, exit)
           :: (S idx, exit + stack_effect (op_cls next)) :: rest)
    ∧ (¬ unconditional → (∃ d, r = Ok d) →
       ∀ next, ops !! S idx = Some next → op_id next ∉ seen s1 →
       ∃ sd, startdepths s' !! op_id next = Some sd ∧ exit ≤ sd)
    ∧ (unconditional → ¬ entered s1 top (exit + delta) →
       visited s' = visited s ++ [(idx, exit)]).
Proof.
  intros Hfuel Hop Hent exit Hexit Hjump Htgt Htop setup uncond delta s1.
  destruct (walk_fuel (S fuel) ops idx depth maxdepth s ltac:(lia))
    as [[s' r] Hw].
  exists s', r. split; [done|].
  rewrite (walk_jump_step fuel ops idx depth maxdepth s op jump tgt
             Hop Hent Hexit Hjump Htgt) in Hw.
  fold exit setup uncond delta s1 in Hw.
  set (m := if decide setup then _ else _) in Hw.
  assert (Hv1 : visited s1 = visited s ++ [(idx, exit)]) by done.
  destruct (walk fuel ops tgt (exit + delta) m s1) as [[s2 r2]|] eqn:E1;
    [|done].
  assert (Hfall : ∀ s3 rest, visited s3 = visited s1 ++ rest →
    visited (discard_seen op s3) = visited s ++ (idx, exit) :: rest).
  { intros s3 rest E. cbn [discard_seen visited].
    by rewrite E, Hv1, <- app_assoc. }
  split; [|split; [|split]].
  - (* the jump edge *)
    intros Hent1.
    destruct (walk_entry _ _ _ _ _ _ _ _ _ E1 Htop Hent1) as [rest1 Hrest1].
    destruct r2 as [m2|e2]; [|injection Hw as <- <-; eexists; by apply Hfall].
    destruct (decide uncond);
      [injection Hw as <- <-; eexists; by apply Hfall|].
    destruct (walk fuel ops (S idx) exit m2 s2) as [[s3 r3]|] eqn:E2; [|done].
    injection Hw as <- <-.
    apply walk_visited_prefix in E2 as [rest2 E2].
    eexists. apply Hfall. rewrite E2, Hrest1, <- app_assoc. done.
  - (* the next instruction, the target not being entered *)
    intros Hu Hskip next Hnext Hent2.
    destruct fuel as [|fuel]; [done|].
    rewrite (walk_skipped fuel ops tgt _ m s1 top Htop Hskip) in E1.
    injection E1 as <- <-.
    destruct (decide uncond); [done|].
    destruct (walk (S fuel) ops (S idx) exit m s1) as [[s3 r3]|] eqn:E2;
      [|done].
    injection Hw as <- <-.
    destruct (walk_entry _ _ _ _ _ _ _ _ _ E2 Hnext Hent2) as [rest2 Hrest2].
    eexists. by apply Hfall.
  - (* the next instruction, in every case *)
    intros Hu [d ->] next Hnext Hseen.
    destruct r2 as [m2|e2]; [|done].
    destruct (decide uncond); [done|].
    destruct (walk fuel ops (S idx) exit m2 s2) as [[s3 r3]|] eqn:E2; [|done].
    injection Hw as <- _.
    destruct fuel as [|fuel]; [done|].
    apply walk_seen in E1.
    eapply walk_memo in E2 as (sd & Hsd & Hle);
      [|done|by rewrite E1|lia].
    by exists sd.
  - (* an unconditional jump *)
    intros Hu Hskip.
    destruct fuel as [|fuel]; [done|].
    rewrite (walk_skipped fuel ops tgt _ m s1 top Htop Hskip) in E1.
    injection E1 as <- <-.
    destruct (decide uncond); [|done].
    injection Hw as <- <-. cbn [discard_seen visited]. done.
Qed.

(** C7: the analysis raises [AssertionError] (the spec's
    [ImbalancedStackError]) as soon as the depth after the stack effect of a
    processed instruction is negative, and it does not raise it when all
    these depths are non-negative: the history of the traversal contains a
    negative depth if and only if [AssertionError] is the result. *)
Theorem negative_depth_raises (self : Code) :
  ∃ s r, calc_stack_size_run (ops self) = Some (s, r)
         ∧ _calc_stack_size self = r
         ∧ (Exists (λ v, v.2 < 0) (visited s) → r = Raise AssertionError)
         ∧ (Forall nonneg_visit (visited s) → r ≠ Raise AssertionError).
Proof.
  destruct (calc_stack_size_run_some (ops self)) as (s & r & E).
  exists s, r. split; [done|]. split.
  { unfold _calc_stack_size. by rewrite E. }
  apply walk_visited in E as [[-> Hex]|[Hr Hall]]; [| |by apply Forall_nil].
  - split; [done|]. intros Hall. exfalso.
    apply Exists_exists in Hex as (v & Hv & Hlt).
    rewrite Forall_forall in Hall. apply Hall in Hv.
    unfold nonneg_visit in Hv. lia.
  - split; [|done]. intros Hex. exfalso.
    apply Exists_exists in Hex as (v & Hv & Hlt).
    rewrite Forall_forall in Hall. apply Hall in Hv.
    unfold nonneg_visit in Hv. lia.
Qed.

(** C8, as amended: the analysis terminates on every instruction sequence,
    cycles included: [walk] never nests deeper than the number of
    instructions plus one, because an instruction on the active path is not
    entered again, and any limit on the nesting above the number of
    instructions gives the same result.  The result is not always a depth:
    it is a depth, which is not negative, or [AssertionError], [ValueError]
    or [AttributeError]; when every jump of the unit has its target in the
    unit, it is a depth exactly when no recorded depth is negative, and
    [AssertionError] otherwise.  For an instruction whose jump target is
    itself, alone in its unit, the result is its stack effect, plus 3 for
    [SETUP_EXCEPT] and [SETUP_FINALLY], when that effect is not negative,
    and [AssertionError] when it is. *)
Theorem calc_stack_size_terminates (self : Code) :
  ∃ s r, calc_stack_size_run (ops self) = Some (s, r)
    ∧ _calc_stack_size self = r
    ∧ (∀ limit, (length (ops self) < limit)%nat →
         walk limit (ops self) 0 0 0 walk_init = Some (s, r))
    ∧ ((∃ d, r = Ok d ∧ 0 ≤ d)
       ∨ r = Raise AssertionError ∨ r = Raise ValueError
       ∨ r = Raise AttributeError)
    ∧ (closed_jumps (ops self) →
       (Forall nonneg_visit (visited s) ∧ ∃ d, r = Ok d ∧ 0 ≤ d)
       ∨ (Exists (λ v, v.2 < 0) (visited s) ∧ r = Raise AssertionError))
    ∧ (∀ op, ops self = [op] → jump_operand op = Some (op_id op) →
       r = if stack_effect (op_cls op) <? 0 then Raise AssertionError
           else Ok (stack_effect (op_cls op)
                    + if bool_decide (op_cls op = OP_SETUP_EXCEPT
                                      ∨ op_cls op = OP_SETUP_FINALLY)
                      then 3 else 0)).
Proof.
  destruct (calc_stack_size_run_some (ops self)) as (s & r & E).
  exists s, r. split; [done|]. split.
  { unfold _calc_stack_size. by rewrite E. }
  split.
  { intros limit Hlimit. unfold calc_stack_size_run in E.
    eapply walk_fuel_mono; [|exact E]. lia. }
  assert (Hres : (∃ d, r = Ok d ∧ 0 ≤ d)
    ∨ r = Raise AssertionError ∨ r = Raise ValueError
    ∨ r = Raise AttributeError).
  { unfold calc_stack_size_run in E. destruct r as [d|e].
    - left. exists d. split; [done|]. by apply walk_maxdepth_le in E.
    - right. by apply walk_raises in E as [->|[->| ->]]; eauto. }
  split; [done|]. split.
  - intros Hclosed. unfold calc_stack_size_run in E.
    destruct (walk_visited _ _ _ _ _ _ _ _ E) as [[-> Hex]|[Hne Hall]];
      [by constructor|by right|].
    left. split; [done|]. destruct r as [d|e].
    + exists d. split; [done|]. by apply walk_maxdepth_le in E.
    + by apply (walk_closed _ _ _ _ _ _ _ _ Hclosed) in E as ->.
  - intros op Hops Hjump. rewrite Hops in E.
    destruct (walk_self_loop op Hjump) as [s0 E0]. congruence.
Qed.

End StackSizeClaims.

(** C6 at [SETUP_EXCEPT l; NOP; l: NOP], entered at depth 0: the entry after
    the one of [SETUP_EXCEPT] is the handler at index 2, with the depth 3. *)
Lemma jump_edge_depths_witness :
  ∃ s' r,
    walk (H:=Sample.catalog) 4 Sample.handler_ops 0 0 0 walk_init
    = Some (s', r)
    ∧ ∃ rest, visited s' = (0%nat, 0) :: (2%nat, 3) :: rest.
Proof.
  destruct (jump_edge_depths (H:=Sample.catalog) 3 Sample.handler_ops 0 0 0
              walk_init (set_jrel (Sample.op 0 Sample.SETUP_EXCEPT) 2) 2
              2%nat (Sample.op 2 Sample.NOP))
    as (s' & r & Hw & Hjump & _).
  - vm_compute. lia.
  - reflexivity.
  - split; [apply not_elem_of_empty|]. vm_compute. reflexivity.
  - vm_compute. discriminate.
  - reflexivity.
  - reflexivity.
  - reflexivity.
  - exists s', r. split; [exact Hw|]. apply Hjump.
    split; [|vm_compute; reflexivity].
    vm_compute. discriminate.
Defined.

(** The whole history at [SETUP_EXCEPT l; NOP; l: NOP]: the handler is
    entered at depth 3, the next instruction at depth 0, and the handler is
    not entered again at depth 0. *)
Example setup_except_history :
  (λ x, visited x.1) <$> calc_stack_size_run (H:=Sample.catalog)
                           Sample.handler_ops
  = Some [(0%nat, 0); (2%nat, 3); (1%nat, 0)].
Proof. vm_compute. reflexivity. Qed.

(** The whole history at [LOAD_CONST None; FOR_ITER l; POP_TOP; l: NOP]:
    [FOR_ITER] leaves the depth 2, its target is entered at depth 0 and the
    next instruction at depth 2. *)
Example for_iter_history :
  (λ x, visited x.1) <$> calc_stack_size_run (H:=Sample.catalog)
                           Sample.iter_ops
  = Some [(0%nat, 1); (1%nat, 2); (3%nat, 0); (2%nat, 1); (3%nat, 1)].
Proof. vm_compute. reflexivity. Qed.

(** C7 at [POP_TOP] on an empty stack: the depth -1 is recorded and
    [AssertionError] is raised. *)
Lemma negative_depth_raises_witness :
  _calc_stack_size (H:=Sample.catalog) Sample.underflow = Raise AssertionError.
Proof.
  destruct (negative_depth_raises (H:=Sample.catalog) Sample.underflow)
    as (s & r & Hrun & Hr & Hneg & _).
  rewrite Hr. apply Hneg.
  vm_compute in Hrun. injection Hrun as <- _.
  apply Exists_cons_hd. vm_compute. reflexivity.
Defined.

(** C8 fails: [l: POP_JUMP_IF_FALSE l] jumps to itself, and the analysis
    raises [AssertionError], for the depth -1 after the instruction. *)
Lemma self_jump_raises :
  jump_operand Sample.self_jump = Some (op_id Sample.self_jump)
  ∧ _calc_stack_size (H:=Sample.catalog)
      (Sample.code_unit [Sample.self_jump] 1 CNone)
    = Raise AssertionError.
Proof. split; [reflexivity|]. vm_compute. reflexivity. Qed.

(** C8 at [l: JUMP_ABSOLUTE l]: the analysis returns the depth 0. *)
Lemma calc_stack_size_terminates_witness :
  _calc_stack_size (H:=Sample.catalog) Sample.self_loop = Ok 0.
Proof.
  destruct (calc_stack_size_terminates (H:=Sample.catalog) Sample.self_loop)
    as (s & r & _ & Hr & _ & _ & _ & Hloop).
  rewrite Hr.
  apply (Hloop (set_jabs (Sample.op 0 Sample.JUMP_ABSOLUTE) 0));
    reflexivity.
Defined.

(** With a limit of three nested calls, [walk] does not get through three
    instructions [NOP]: this is Python's [RuntimeError].  A limit of four
    is enough. *)
Example nesting_limit :
  walk (H:=Sample.catalog) 3 (Sample.nops 0 3) 0 0 0 walk_init = None
  ∧ (snd <$> walk (H:=Sample.catalog) 4 (Sample.nops 0 3) 0 0 0 walk_init)
    = Some (Ok 0).
Proof. split; vm_compute; reflexivity. Qed.

(** ** The disassembler *)

Section DisassemblerProofs.
Context `{Catalog}.

Lemma decode_arg_inv pycode i a op st op' st' :
  decode_arg pycode i a op st = Ok (op', st') →
  op_cls op' = op_cls op ∧ op_id op' = op_id op ∧ lineno op' = lineno op
  ∧ d_ops st' = d_ops st ∧ d_table st' = d_table st.
Proof.
  unfold decode_arg.
  repeat (case_match; simplify_eq/=); intros; inv_bind; simplify_eq/=; done.
Qed.

Lemma resolve_jump_inv table op op' :
  resolve_jump table op = Ok op' →
  op_cls op' = op_cls op ∧ op_id op' = op_id op ∧ lineno op' = lineno op.
Proof.
  unfold resolve_jump.
  repeat (case_match; simplify_eq/=); intros; inv_bind; simplify_eq/=; done.
Qed.

Lemma decode_ops_no_extended_arg pycode lines n rest i ext st st' :
  has_arg OP_EXTENDED_ARG = true →
  (length rest ≤ n)%nat →
  decode_ops pycode lines rest i ext st = Ok st' →
  Forall (λ o, op_cls o ≠ OP_EXTENDED_ARG) (d_ops st) →
  Forall (λ o, op_cls o ≠ OP_EXTENDED_ARG) (d_ops st').
Proof.
  intros Hext. revert rest i ext st.
  induction n as [|n IH]; intros rest i ext st Hlen.
  { destruct rest; [|simpl in Hlen; lia]. by intros [= <-]. }
  destruct rest as [|b rest]; [by intros [= <-]|].
  simpl. intros Hb Hall.
  apply bind_Ok in Hb as (cls & Ecls & Hb).
  destruct (has_arg cls) eqn:Harg.
  - destruct rest as [|lo [|hi rest]]; try done.
    destruct (bool_decide (cls = OP_EXTENDED_ARG)) eqn:Hc.
    + eapply IH in Hb; [done|simpl in *; lia|done].
    + apply bool_decide_eq_false in Hc.
      apply bind_Ok in Hb as ([op' st1] & Earg & Hb).
      apply decode_arg_inv in Earg as (Hcls & _ & _ & Hops & _).
      eapply IH in Hb; [done|simpl in *; lia|]. simpl.
      apply Forall_app. split; [by rewrite Hops|].
      apply Forall_singleton. by rewrite Hcls.
  - eapply IH in Hb; [done|simpl in *; lia|]. simpl.
    apply Forall_app. split; [done|].
    apply Forall_singleton. simpl. intros ->. congruence.
Qed.

(** C9: the instruction sequence of a decoded code unit contains no
    [EXTENDED_ARG] instruction, for every code object that [from_code]
    accepts ([EXTENDED_ARG] being an opcode with an operand). *)
Theorem from_code_no_extended_arg pycode c :
  has_arg OP_EXTENDED_ARG = true →
  from_code pycode = Ok c →
  Forall (λ o, op_cls o ≠ OP_EXTENDED_ARG) (ops c).
Proof.
  intros Hext Hc. unfold from_code in Hc.
  apply bind_Ok in Hc as (st & Est & Hc).
  apply bind_Ok in Hc as (ops' & Eops & Hc).
  apply bind_Ok in Hc as ([va as1] & _ & Hc).
  apply bind_Ok in Hc as ([vk as2] & _ & Hc).
  injection Hc as <-. simpl.
  apply for_each_append in Eops as (l' & -> & Hl'). simpl.
  eapply decode_ops_no_extended_arg in Est; [|done..|by constructor].
  clear -Est Hl'. induction Hl' as [|o o' l l' Ho _ IH]; [done|].
  apply Forall_cons in Est as [Hcls Est].
  constructor; [|by apply IH].
  apply resolve_jump_inv in Ho as (-> & _). done.
Qed.

(** C10: the decoded docstring is the first constant exactly when that
    constant is a string, and [None] in every other case, whereas the
    encoder always puts the docstring of the unit, whatever it is, in slot 0
    of the constants. *)
Theorem docstring_recovery :
  (∀ pycode c, from_code pycode = Ok c →
     (∀ s, docstring c = CStr s ↔ ∃ rest, co_consts pycode = CStr s :: rest)
     ∧ ((∀ s rest, co_consts pycode ≠ CStr s :: rest) → docstring c = CNone))
  ∧ (∀ self pycode, to_code self = Ok pycode →
     ∃ rest, co_consts pycode = docstring self :: rest).
Proof.
  split.
  - intros pycode c Hc. unfold from_code in Hc.
    apply bind_Ok in Hc as (st & Est & Hc).
    apply bind_Ok in Hc as (ops' & Eops & Hc).
    apply bind_Ok in Hc as ([va as1] & _ & Hc).
    apply bind_Ok in Hc as ([vk as2] & _ & Hc).
    injection Hc as <-. simpl.
    destruct (co_consts pycode) as [|[|s0|z] rest]; simpl.
    + split; [|done]. intros s. split; [done|]. by intros [? ?].
    + split; [|done]. intros s. split; [done|]. by intros [? ?].
    + split.
      * intros s. split; [intros [= ->]; by eexists|]. by intros [? [= ->]].
      * intros Hno. by destruct (Hno s0 rest).
    + split; [|done]. intros s. split; [done|]. by intros [? ?].
  - intros self pycode Hc. unfold to_code in Hc.
    apply bind_Ok in Hc as ([[[pools ac] kc] st] & E2 & Hc).
    apply bind_Ok in Hc as (code' & _ & Hc).
    apply bind_Ok in Hc as (ss & _ & Hc).
    injection Hc as <-. simpl.
    unfold to_code_stage2 in E2.
    apply bind_Ok in E2 as ([[pools0 ac0] kc0] & E0 & E2).
    apply bind_Ok in E2 as (pools1 & E1 & E2).
    apply bind_Ok in E2 as (st1 & _ & E2).
    injection E2 as -> _ _ _.
    unfold initial_pools in E0.
    apply bind_Ok in E0 as (kc1 & _ & E0). injection E0 as <- _ _.
    eapply (for_each_inv (λ p, ∃ rest, p_consts p = docstring self :: rest))
      in E1; [done| |by exists []].
    intros p op p' _ Hh [rest Hrest]. clear -Hh Hrest. unfold harvest in Hh.
    repeat case_match; inv_bind; simplify_eq/=; try by eexists.
    rewrite Hrest. apply os_add_head.
Qed.
End DisassemblerProofs.

(** C9 at the byte code [EXTENDED_ARG 1; CALL_FUNCTION 0; CALL_FUNCTION 0]. *)
Lemma from_code_no_extended_arg_witness :
  ∃ c, from_code (H:=Sample.catalog)
         (Sample.pycode Sample.extended_bytes [CNone]) = Ok c
       ∧ Forall (λ o, op_cls o ≠ Sample.EXTENDED_ARG) (ops c).
Proof.
  destruct (from_code (H:=Sample.catalog)
              (Sample.pycode Sample.extended_bytes [CNone])) as [c|e] eqn:E.
  - exists c. split; [reflexivity|].
    apply (from_code_no_extended_arg (H:=Sample.catalog)
             (Sample.pycode Sample.extended_bytes [CNone]) c);
      [reflexivity|exact E].
  - vm_compute in E. discriminate E.
Defined.

(** C10 at a unit whose docstring is the integer 5: slot 0 of the constants
    holds 5 and the decoded docstring is [None]. *)
Lemma docstring_recovery_witness :
  ∃ pycode c,
    to_code (H:=Sample.catalog) Sample.int_docstring = Ok pycode
    ∧ from_code (H:=Sample.catalog) pycode = Ok c
    ∧ (∃ rest, co_consts pycode = CInt 5 :: rest)
    ∧ docstring c = CNone.
Proof.
  destruct (to_code (H:=Sample.catalog) Sample.int_docstring)
    as [pycode|e] eqn:E; [|vm_compute in E; discriminate E].
  destruct (from_code (H:=Sample.catalog) pycode) as [c|e] eqn:E';
    [|vm_compute in E; injection E as <-; vm_compute in E'; discriminate E'].
  exists pycode, c. split; [reflexivity|]. split; [exact E'|].
  destruct (docstring_recovery (H:=Sample.catalog)) as [Hdec Henc].
  destruct (Henc _ _ E) as [rest Hrest]. split; [by exists rest|].
  apply (Hdec _ _ E'). intros s rest'. rewrite Hrest. discriminate.
Defined.

(** C2: the accumulator is not reset.  In [EXTENDED_ARG 1; CALL_FUNCTION 0;
    CALL_FUNCTION 0] the prefix also reaches the second [CALL_FUNCTION],
    whose operand is decoded as 65536 instead of 0. *)
Example extended_arg_not_reset :
  ((λ c, arg <$> ops c)
     <$> from_code (H:=Sample.catalog)
           (Sample.pycode Sample.extended_bytes [CNone]))
  = Ok [Some 65536; Some 65536].
Proof. vm_compute. reflexivity. Qed.

(** ** The assembler *)

Section AssemblerProofs.
Context `{Catalog}.


Lemma emit_arg_small code_ a :
  a ≤ 0xFFFF →
  emit_arg code_ a = Ok (code_ ++ [Z.land a 0xFF; Z.land (Z.shiftr a 8) 0xFF]).
Proof.
  intros Ha. unfold emit_arg.
  destruct (0xFFFF <? a) eqn:E; [apply Z.ltb_lt in E; lia|].
  cbn [mbind result_bind].
  rewrite (ba_extend_byte _ _ (is_byte_land _)). cbn [mbind result_bind].
  rewrite (ba_extend_byte _ _ (is_byte_land _)).
  by rewrite <- !app_assoc.
Qed.


Lemma resolve_arg_inv p n jumps addr op a jumps' :
  resolve_arg p n jumps addr op = Ok (a, jumps') →
  jumps' = jumps ++ match queued_jump op with
                    | Some (k, t) => [(k, addr, t)]
                    | None => []
                    end
  ∧ (is_Some (queued_jump op) → a = Some 0).
Proof.
  unfold resolve_arg, queued_jump.
  destruct (has_local _); simpl.
  { intros Hb. inv_bind. simplify_eq/=.
    split; [by rewrite app_nil_r|by intros [? ?]]. }
  destruct (has_name _); simpl.
  { intros Hb. inv_bind. simplify_eq/=.
    split; [by rewrite app_nil_r|by intros [? ?]]. }
  destruct (has_free _); simpl.
  { intros Hb. destruct (cell op); inv_bind; simplify_eq/=;
      (split; [by rewrite app_nil_r|by intros [? ?]]). }
  destruct (has_const _); simpl.
  { intros Hb. inv_bind. simplify_eq/=.
    split; [by rewrite app_nil_r|by intros [? ?]]. }
  intros Hb.
  revert Hb. destruct (has_jrel _); [|destruct (has_jabs _)]; intros Hb.
  - apply bind_Ok in Hb as (t & Et & Hb). injection Hb as <- <-.
    destruct (jrel op); simplify_eq/=. done.
  - apply bind_Ok in Hb as (t & Et & Hb). injection Hb as <- <-.
    destruct (jabs op); simplify_eq/=. done.
  - destruct (has_arg _); inv_bind; simplify_eq/=;
      (split; [by rewrite app_nil_r|by intros [? ?]]).
Qed.

Lemma emit_arg_zero code_ : emit_arg code_ 0 = Ok (code_ ++ [0; 0]).
Proof. by rewrite emit_arg_small. Qed.

Lemma emit_arg_inv code_ a code' :
  emit_arg code_ a = Ok code' → ∃ tail, code' = code_ ++ tail.
Proof.
  unfold emit_arg. intros Hb. apply bind_Ok in Hb as (c1 & E1 & Hb).
  apply bind_Ok in Hb as (c2 & E2 & Hb).
  apply ba_extend_inv in E2 as ->. apply ba_extend_inv in Hb as ->.
  destruct (0xFFFF <? a).
  - apply bind_Ok in E1 as (c3 & E3 & E1). apply bind_Ok in E1 as (c4 & E4 & E1).
    apply ba_extend_inv in E3 as ->. apply ba_extend_inv in E4 as ->.
    apply ba_extend_inv in E1 as ->. rewrite <- !app_assoc. by eexists.
  - injection E1 as <-. rewrite <- !app_assoc. by eexists.
Qed.

Lemma emit_op_inv p n st op st' :
  emit_op p n st op = Ok st' →
  st_addrs st' = <[op_id op := len (st_code st)]> (st_addrs st)
  ∧ st_jumps st' = st_jumps st ++ match queued_jump op with
                                 | Some (k, t) => [(k, len (st_code st), t)]
                                 | None => []
                                 end
  ∧ ∃ tail, st_code st' = st_code st ++ code (op_cls op) :: tail
            ∧ (is_Some (queued_jump op) → tail = [0; 0]).
Proof.
  unfold emit_op. intros Hb.
  apply bind_Ok in Hb as (c1 & E1 & Hb). apply ba_extend_inv in E1 as ->.
  apply bind_Ok in Hb as ([[ln ll] lp] & _ & Hb).
  apply bind_Ok in Hb as ([a jumps'] & Ea & Hb).
  apply bind_Ok in Hb as (c2 & E2 & Hb). injection Hb as <-. simpl.
  apply resolve_arg_inv in Ea as [-> Ha]. do 2 (split; [done|]).
  destruct a as [a|].
  - destruct (queued_jump op) as [[k t]|] eqn:Hq.
    + specialize (Ha ltac:(by eexists)). injection Ha as ->.
      rewrite emit_arg_zero in E2. injection E2 as <-.
      exists [0; 0]. by rewrite <- app_assoc.
    + apply emit_arg_inv in E2 as [tail ->]. exists tail.
      split; [by rewrite <- app_assoc|]. by intros [? ?].
  - injection E2 as <-. exists []. split; [done|].
    intros Hq. by specialize (Ha Hq).
Qed.

Lemma spaced_mono lo hi hi' jumps :
  spaced lo hi jumps → hi ≤ hi' → spaced lo hi' jumps.
Proof.
  revert lo. induction jumps as [|[[k a] t] jumps IH]; intros lo; simpl.
  - lia.
  - intros [? ?] ?. split; [done|]. by apply IH.
Qed.

Lemma spaced_snoc lo hi hi' jumps k a t :
  spaced lo hi jumps → hi ≤ a → a + 3 ≤ hi' →
  spaced lo hi' (jumps ++ [(k, a, t)]).
Proof.
  revert lo. induction jumps as [|[[k' a'] t'] jumps IH]; intros lo; simpl.
  - lia.
  - intros [? ?] ? ?. split; [done|]. by apply IH.
Qed.

Lemma spaced_le lo hi jumps : spaced lo hi jumps → lo ≤ hi.
Proof.
  revert lo. induction jumps as [|[[k a] t] jumps IH]; intros lo; simpl.
  - done.
  - intros [? Hs]. apply IH in Hs. lia.
Qed.

(** The jumps queued by stage 2 lie at increasing addresses, each followed
    by its two operand bytes. *)
Lemma emit_op_spaced p n st op st' :
  emit_op p n st op = Ok st' →
  spaced 0 (len (st_code st)) (st_jumps st) →
  spaced 0 (len (st_code st')) (st_jumps st').
Proof.
  intros Hop Hs. apply emit_op_inv in Hop as (_ & -> & tail & -> & Htail).
  destruct (queued_jump op) as [[k t]|].
  - rewrite (Htail ltac:(by eexists)).
    eapply spaced_snoc; [done|lia|]. rewrite len_app. unfold len. simpl. lia.
  - rewrite app_nil_r. eapply spaced_mono; [done|].
    rewrite len_app. unfold len. lia.
Qed.

Lemma to_code_stage2_inv self pools ac kc st :
  to_code_stage2 self = Ok (pools, ac, kc, st) →
  ∃ pools0,
    for_each (emit_op pools (len (p_cellvars pools)))
      {| st_code := []; st_addrs := ∅; st_jumps := []; st_lnotab := [];
         st_lastlineno := firstlineno self; st_lastlinepos := 0 |}
      (ops self) = Ok st
    ∧ for_each harvest pools0 (ops self) = Ok pools
    ∧ initial_pools self = Ok (pools0, ac, kc).
Proof.
  unfold to_code_stage2. intros Hb.
  apply bind_Ok in Hb as ([[pools0 ac0] kc0] & E0 & Hb).
  apply bind_Ok in Hb as (pools1 & E1 & Hb).
  apply bind_Ok in Hb as (st1 & E2 & Hb).
  injection Hb as -> -> -> ->. by exists pools0.
Qed.

Lemma stage2_spaced self pools ac kc st :
  to_code_stage2 self = Ok (pools, ac, kc, st) →
  spaced 0 (len (st_code st)) (st_jumps st).
Proof.
  intros Hs. apply to_code_stage2_inv in Hs as (pools0 & E & _).
  eapply (for_each_inv (λ st, spaced 0 (len (st_code st)) (st_jumps st)))
    in E; [done| |simpl; unfold len; simpl; lia].
  intros ? ? ? _. apply emit_op_spaced.
Qed.

Lemma ba_setitem_ok ba i v :
  0 ≤ i → i < len ba → is_byte v = true →
  ba_setitem ba i v = Ok (<[Z.to_nat i := v]> ba).
Proof.
  intros Hi Hlt Hv. unfold ba_setitem. fold (len ba). rewrite Hv.
  destruct (i <? len ba) eqn:E; [done|]. apply Z.ltb_ge in E. lia.
Qed.

Lemma relocate_ok addrs code_ k a t ta :
  addrs !! t = Some ta → resolved k a ta ≤ 0xFFFF →
  0 ≤ a → a + 3 ≤ len code_ →
  relocate addrs code_ (k, a, t) =
    Ok (<[Z.to_nat (a + 2) := Z.land (Z.shiftr (resolved k a ta) 8) 0xFF]>
          (<[Z.to_nat (a + 1) := Z.land (resolved k a ta) 0xFF]> code_)).
Proof.
  intros Ht Hr Ha Hlen. unfold relocate, addrs_get. rewrite Ht.
  cbn [mbind result_bind]. fold (resolved k a ta).
  destruct (0xFFFF <? resolved k a ta) eqn:E; [apply Z.ltb_lt in E; lia|].
  rewrite ba_setitem_ok; [|lia|lia|apply is_byte_land].
  cbn [mbind result_bind].
  rewrite ba_setitem_ok; [done|lia| |apply is_byte_land].
  unfold len in *. rewrite length_insert. lia.
Qed.

Lemma relocate_overflow addrs code_ k a t ta :
  addrs !! t = Some ta → 0x10000 ≤ resolved k a ta →
  relocate addrs code_ (k, a, t) = Raise ExtendedJumps.
Proof.
  intros Ht Hr. unfold relocate, addrs_get. rewrite Ht.
  cbn [mbind result_bind]. fold (resolved k a ta).
  destruct (0xFFFF <? resolved k a ta) eqn:E; [done|]. apply Z.ltb_ge in E. lia.
Qed.

Lemma relocate_dangling addrs code_ k a t :
  addrs !! t = None → relocate addrs code_ (k, a, t) = Raise KeyError.
Proof. intros Ht. unfold relocate, addrs_get. by rewrite Ht. Qed.

(** The three outcomes of relocating one jump whose operand bytes are in
    the byte array. *)
Lemma relocate_cases addrs code_ k a t :
  0 ≤ a → a + 3 ≤ len code_ →
  (addrs !! t = None ∧ relocate addrs code_ (k, a, t) = Raise KeyError)
  ∨ (∃ ta, addrs !! t = Some ta ∧ 0x10000 ≤ resolved k a ta
           ∧ relocate addrs code_ (k, a, t) = Raise ExtendedJumps)
  ∨ (∃ ta, addrs !! t = Some ta ∧ resolved k a ta ≤ 0xFFFF
           ∧ relocate addrs code_ (k, a, t) =
               Ok (<[Z.to_nat (a + 2) :=
                       Z.land (Z.shiftr (resolved k a ta) 8) 0xFF]>
                     (<[Z.to_nat (a + 1) :=
                          Z.land (resolved k a ta) 0xFF]> code_))).
Proof.
  intros Ha Hlen. destruct (addrs !! t) as [ta|] eqn:Ht.
  - right. destruct (decide (resolved k a ta ≤ 0xFFFF)) as [Hr|Hr].
    + right. exists ta. do 2 (split; [done|]). by apply relocate_ok.
    + left. exists ta. split; [done|]. split; [lia|].
      apply (relocate_overflow _ _ _ _ _ ta); [done|lia].
  - left. split; [done|]. by apply relocate_dangling.
Qed.



Lemma relocate_all_raise addrs jumps lo code_ e :
  0 ≤ lo → spaced lo (len code_) jumps →
  for_each (relocate addrs) code_ jumps = Raise e →
  (e = KeyError ∧ Exists (λ '(k, a, t), addrs !! t = None) jumps)
  ∨ (e = ExtendedJumps
     ∧ Exists (λ '(k, a, t), ∃ ta,
         addrs !! t = Some ta ∧ 0x10000 ≤ resolved k a ta) jumps).
Proof.
  revert lo code_. induction jumps as [|[[k a] t] jumps IH];
    intros lo code_ Hlo Hs; cbn [for_each]; cbn [spaced] in Hs; [done|].
  destruct Hs as [Hla Hs]. pose proof (spaced_le _ _ _ Hs) as Hlen.
  destruct (relocate_cases addrs code_ k a t ltac:(lia) ltac:(lia)) as
    [[Ht E]|[(ta & Ht & Hr & E)|(ta & Ht & Hr & E)]];
    rewrite E; cbn [mbind result_bind].
  - intros [= <-]. left. split; [done|]. by apply Exists_cons_hd.
  - intros [= <-]. right. split; [done|]. apply Exists_cons_hd. by exists ta.
  - intros Hb. eapply (IH (a + 3)) in Hb as [[-> Hex]|[-> Hex]]; [| |lia|].
    + left. split; [done|]. by apply Exists_cons_tl.
    + right. split; [done|]. by apply Exists_cons_tl.
    + unfold len in *. by rewrite !length_insert.
Qed.






(** The addresses recorded by stage 2 are those of instructions of the
    unit, and every jump instruction of the unit is queued. *)
Lemma stage2_addrs self pools ac kc st t ta :
  to_code_stage2 self = Ok (pools, ac, kc, st) →
  st_addrs st !! t = Some ta → t ∈ op_ids (ops self).
Proof.
  intros Hs. apply to_code_stage2_inv in Hs as (pools0 & E & _).
  revert t ta.
  refine (for_each_inv (λ st, ∀ t ta,
    st_addrs st !! t = Some ta → t ∈ op_ids (ops self)) _ _ _ _ _ E _).
  2:{ intros ??. simpl. by rewrite lookup_empty. }
  intros s x s' Hx Hop IH t ta.
  apply emit_op_inv in Hop as (-> & _). intros Ht.
  apply lookup_insert_Some in Ht as [[<- _]|[_ Ht]]; [|by eapply IH].
  apply elem_of_list_to_set, list_elem_of_fmap. by exists x.
Qed.

Lemma stage2_queued self pools ac kc st op k t :
  to_code_stage2 self = Ok (pools, ac, kc, st) →
  op ∈ ops self → queued_jump op = Some (k, t) →
  ∃ a, (k, a, t) ∈ st_jumps st.
Proof.
  intros Hs Hop Hq. apply to_code_stage2_inv in Hs as (pools0 & E & _).
  revert k t Hq.
  refine (for_each_elem (λ op st, ∀ k t,
    queued_jump op = Some (k, t) → ∃ a, (k, a, t) ∈ st_jumps st)
    _ _ _ _ _ _ E op Hop).
  - intros s x s' Hx k' t' Hq'. apply emit_op_inv in Hx as (_ & -> & _).
    rewrite Hq'. eexists. apply elem_of_app. right. by left.
  - intros s x s' y Hx Hy k' t' Hq'. apply emit_op_inv in Hx as (_ & -> & _).
    destruct (Hy _ _ Hq') as [a Ha]. exists a. apply elem_of_app. by left.
Qed.

(** C5, as amended: a unit with a jump instruction whose target is not one
    of its instructions is never encoded: [to_code] raises.  The relocation
    of that jump raises [KeyError]; when stages 1 and 2 succeed, [to_code]
    raises [KeyError] too, unless a queued jump with a known target
    resolves to 0x10000 or more and is relocated first. *)
Theorem dangling_jump_fails self op kind target :
  op ∈ ops self → queued_jump op = Some (kind, target) →
  target ∉ op_ids (ops self) →
  (∃ e, to_code self = Raise e)
  ∧ (∀ pools ac kc st, to_code_stage2 self = Ok (pools, ac, kc, st) →
       (∀ code_ addr, relocate (st_addrs st) code_ (kind, addr, target)
                      = Raise KeyError)
       ∧ (to_code self = Raise KeyError
          ∨ (to_code self = Raise ExtendedJumps
             ∧ Exists (λ '(k, a, t), ∃ ta,
                 st_addrs st !! t = Some ta ∧ 0x10000 ≤ resolved k a ta)
                 (st_jumps st)))).
Proof.
  intros Hop Hq Hdangling.
  assert (Hstage : ∀ pools ac kc st,
    to_code_stage2 self = Ok (pools, ac, kc, st) →
    st_addrs st !! target = None
    ∧ ∃ e, to_code self = Raise e
           ∧ for_each (relocate (st_addrs st)) (st_code st) (st_jumps st)
             = Raise e).
  { intros pools ac kc st Hs.
    assert (Hnone : st_addrs st !! target = None).
    { destruct (st_addrs st !! target) as [ta|] eqn:Ht; [|done].
      by apply (stage2_addrs _ _ _ _ _ _ _ Hs) in Ht. }
    split; [done|].
    destruct (stage2_queued _ _ _ _ _ _ _ _ Hs Hop Hq) as [a Ha].
    destruct (for_each_fails (relocate (st_addrs st)) (st_jumps st)
                (st_code st) _ Ha) as [e He].
    { intros code_. exists KeyError. by apply relocate_dangling. }
    exists e. split; [|done].
    unfold to_code. rewrite Hs. cbn [mbind result_bind]. by rewrite He. }
  split.
  - destruct (to_code_stage2 self) as [[[[pools ac] kc] st]|e] eqn:Hs.
    + destruct (Hstage _ _ _ _ eq_refl) as (_ & e & He & _). by exists e.
    + exists e. unfold to_code. by rewrite Hs.
  - intros pools ac kc st Hs.
    destruct (Hstage _ _ _ _ Hs) as (Hnone & e & He & H3). split.
    { intros code_ addr. by apply relocate_dangling. }
    apply relocate_all_raise with (lo := 0) in H3 as [[-> _]|[-> Hex]];
      [by left|by right|lia|by eapply stage2_spaced].
Qed.
End AssemblerProofs.

(** C5 fails: the only instruction of this unit is a jump to an instruction
    that is not in the unit, and [to_code] raises [ValueError], for the line
    number of the jump, which is below the first line of the unit. *)
Lemma dangling_jump_other_error :
  Sample.dangling_jump ∈ ops Sample.dangling_unit
  ∧ queued_jump Sample.dangling_jump = Some (abs, 99)
  ∧ (99 ∉ op_ids (ops Sample.dangling_unit))
  ∧ to_code (H:=Sample.catalog) Sample.dangling_unit = Raise ValueError.
Proof.
  split; [by left|]. split; [reflexivity|]. split; [|vm_compute; reflexivity].
  unfold op_ids. simpl. intros Hin.
  apply elem_of_union in Hin as [Hin|Hin].
  - by apply elem_of_singleton in Hin.
  - by apply elem_of_empty in Hin.
Qed.

(** The amended C5 at a jump to an instruction that is not in the unit. *)
Lemma dangling_jump_fails_witness :
  queued_jump (set_jabs (Sample.op 0 Sample.JUMP_ABSOLUTE) 99) = Some (abs, 99)
  ∧ ∃ e, to_code (H:=Sample.catalog) Sample.dangling_unit' = Raise e.
Proof.
  split; [reflexivity|].
  apply (dangling_jump_fails (H:=Sample.catalog) Sample.dangling_unit'
           (set_jabs (Sample.op 0 Sample.JUMP_ABSOLUTE) 99) abs 99).
  - apply list_elem_of_singleton. reflexivity.
  - reflexivity.
  - unfold op_ids. simpl. intros Hin.
    apply elem_of_union in Hin as [Hin|Hin].
    + apply elem_of_singleton in Hin. discriminate Hin.
    + apply elem_of_empty in Hin. exact Hin.
Defined.

(** When nothing else is wrong, the exception is [KeyError]. *)
Example dangling_jump_key_error :
  to_code (H:=Sample.catalog) Sample.dangling_unit' = Raise KeyError.
Proof. vm_compute. reflexivity. Qed.
(** * The round trip [from_code (to_code u)] *)

Section LayoutProofs.
Context `{Catalog}.

Lemma resolve_arg_placeholder p jumps addr op a jumps' :
  resolve_arg p (len (p_cellvars p)) jumps addr op = Ok (a, jumps') →
  placeholder p op = a.
Proof.
  unfold placeholder, resolve_arg.
  intros Hb.
  repeat match type of Hb with
  | (if ?b then _ else _) = _ => destruct b
  | match cell op with _ => _ end = _ => destruct (cell op)
  end; inv_bind; simplify_eq/=;
  repeat match goal with
  | Hx : ?m = Ok _ |- context [?m] => rewrite Hx; simpl
  end; done.
Qed.

Lemma emit_op_code p st op st' :
  emit_op p (len (p_cellvars p)) st op = Ok st' →
  (∀ a, placeholder p op = Some a → a ≤ 0xFFFF) →
  st_code st' = st_code st ++ chunk (op_cls op) (placeholder p op).
Proof.
  unfold emit_op. intros Hb Hsmall.
  apply bind_Ok in Hb as (c1 & E1 & Hb). apply ba_extend_inv in E1 as ->.
  apply bind_Ok in Hb as ([[ln ll] lp] & _ & Hb).
  apply bind_Ok in Hb as ([a jumps'] & Ea & Hb).
  apply bind_Ok in Hb as (c2 & E2 & Hb). injection Hb as <-. cbn [st_code].
  apply resolve_arg_placeholder in Ea. rewrite Ea. unfold chunk.
  destruct a as [a|].
  - rewrite emit_arg_small in E2 by (by apply Hsmall).
    injection E2 as <-. by rewrite <- app_assoc.
  - injection E2 as <-. done.
Qed.

Lemma placed_jumps_app l1 l2 :
  placed_jumps (l1 ++ l2) = placed_jumps l1 ++ placed_jumps l2.
Proof. unfold placed_jumps. apply omap_app. Qed.

(** Stage 2 lays the instructions out one after the other. *)
Lemma emit_all_layout p ops st st' :
  for_each (emit_op p (len (p_cellvars p))) st ops = Ok st' →
  (∀ op a, op ∈ ops → placeholder p op = Some a → a ≤ 0xFFFF) →
  let placed := place (placeholder p) (len (st_code st)) ops in
  st_code st'
  = st_code st ++ (ops ≫= λ op, chunk (op_cls op) (placeholder p op))
  ∧ st_jumps st' = st_jumps st ++ placed_jumps placed
  ∧ st_addrs st' = placed_addrs (st_addrs st) placed.
Proof.
  revert st. induction ops as [|op ops IH]; intros st; cbn [for_each].
  { intros [= <-] _. cbn. by rewrite !app_nil_r. }
  intros Hb Hsmall. apply bind_Ok in Hb as (st1 & E1 & Hb).
  assert (Hcode := emit_op_code _ _ _ _ E1
    (λ a, Hsmall op a (list_elem_of_here _ _))).
  apply emit_op_inv in E1 as (Haddrs & Hjumps & _).
  apply IH in Hb as (-> & -> & ->);
    [|intros o a Ho; apply Hsmall; by right].
  rewrite Hcode, Hjumps, Haddrs, len_app. cbn [place].
  split; [|split].
  - cbn [mbind list_bind]. by rewrite <- app_assoc.
  - unfold placed_jumps at 2. cbn [omap list_omap].
    destruct (queued_jump op) as [[k t]|]; cbn; by rewrite <- app_assoc.
  - done.
Qed.
End LayoutProofs.
Section RelocateLayout.
Context `{Catalog}.

Lemma queued_jump_placeholder p op k t :
  queued_jump op = Some (k, t) → placeholder p op = Some 0.
Proof.
  unfold queued_jump, placeholder, resolve_arg.
  destruct (has_local _), (has_name _), (has_free _), (has_const _);
    simpl; try done.
  destruct (has_jrel _).
  { destruct (jrel op); [done|by intros ?]. }
  destruct (has_jabs _); [|done].
  destruct (jabs op); [done|by intros ?].
Qed.

Lemma insert_operand (pre rest : list Z) c a b x y :
  <[Z.to_nat (len pre + 2) := y]>
    (<[Z.to_nat (len pre + 1) := x]> (pre ++ c :: a :: b :: rest))
  = pre ++ c :: x :: y :: rest.
Proof.
  unfold len.
  replace (Z.to_nat (Z.of_nat (length pre) + 2)) with (length pre + 2)%nat
    by lia.
  replace (Z.to_nat (Z.of_nat (length pre) + 1)) with (length pre + 1)%nat
    by lia.
  rewrite (insert_app_r_alt pre _ (length pre + 1)) by lia.
  rewrite (insert_app_r_alt pre _ (length pre + 2)) by lia.
  replace (length pre + 1 - length pre)%nat with 1%nat by lia.
  replace (length pre + 2 - length pre)%nat with 2%nat by lia.
  done.
Qed.

(** Stage 3 turns the layout with placeholders into the layout with the
    resolved jumps. *)
Lemma relocate_layout p addrs ops pre code' :
  for_each (relocate addrs)
    (pre ++ (ops ≫= λ op, chunk (op_cls op) (placeholder p op)))
    (placed_jumps (place (placeholder p) (len pre) ops)) = Ok code' →
  code' = pre ++ (place (placeholder p) (len pre) ops
                  ≫= λ '(a, op), chunk (op_cls op) (final_operand p addrs a op))
  ∧ Forall (λ '(a, op), ∀ k t, queued_jump op = Some (k, t) →
      ∃ ta, addrs !! t = Some ta ∧ resolved k a ta ≤ 0xFFFF)
      (place (placeholder p) (len pre) ops).
Proof.
  revert pre. induction ops as [|op ops IH]; intros pre.
  { cbn. intros [= <-]. done. }
  cbn [place mbind list_bind]. unfold placed_jumps. cbn [omap list_omap].
  fold (placed_jumps (place (placeholder p)
    (len pre + len (chunk (op_cls op) (placeholder p op))) ops)).
  destruct (queued_jump op) as [[k t]|] eqn:Hq; cbn [fmap option_fmap option_map].
  - rewrite (queued_jump_placeholder p _ _ _ Hq).
    set (rest := ops ≫= _).
    change (chunk (op_cls op) (Some 0)) with [code (op_cls op); 0; 0].
    cbn [app for_each]. intros Hb.
    apply bind_Ok in Hb as (code1 & E1 & Hb).
    destruct (relocate_cases addrs (pre ++ code (op_cls op) :: 0 :: 0 :: rest)
      k (len pre) t) as [[_ E]|[(ta & _ & _ & E)|(ta & Ht & Hr & E)]].
    { unfold len. lia. }
    { rewrite len_app. unfold len. cbn [length]. lia. }
    all: rewrite E in E1; try done. injection E1 as <-.
    rewrite insert_operand in Hb.
    set (lo := Z.land (resolved k (len pre) ta) 255) in *.
    set (hi := Z.land (Z.shiftr (resolved k (len pre) ta) 8) 255) in *.
    change (pre ++ code (op_cls op) :: lo :: hi :: rest)
      with (pre ++ [code (op_cls op); lo; hi] ++ rest) in Hb.
    rewrite app_assoc in Hb.
    replace (len pre + len [code (op_cls op); 0; 0])
      with (len (pre ++ [code (op_cls op); lo; hi])) in *
      by (rewrite len_app; done).
    subst rest. apply IH in Hb as [-> Hall]. split.
    + assert (final_operand p addrs (len pre) op
              = Some (resolved k (len pre) ta)) as ->.
      { unfold final_operand. by rewrite Hq, Ht. }
      change (chunk (op_cls op) (Some (resolved k (len pre) ta)))
        with [code (op_cls op); lo; hi].
      by rewrite <- app_assoc.
    + constructor; [|done]. intros k' t' Hq'. rewrite Hq in Hq'.
      injection Hq' as <- <-. by exists ta.
  - intros Hb.
    replace (len pre + len (chunk (op_cls op) (placeholder p op)))
      with (len (pre ++ chunk (op_cls op) (placeholder p op))) in *
      by apply len_app.
    rewrite app_assoc in Hb. apply IH in Hb as [-> Hall]. split.
    + assert (final_operand p addrs (len pre) op = placeholder p op) as ->.
      { unfold final_operand. by rewrite Hq. }
      by rewrite <- app_assoc.
    + constructor; [|done]. intros k' t' Hq'. by rewrite Hq in Hq'.
Qed.
End RelocateLayout.
Lemma os_index_tuple_get {A} `{EqDecision A} (s : list A) x i :
  os_index s x = Ok i → tuple_get s i = Ok x ∧ 0 ≤ i < len s.
Proof.
  unfold os_index. destruct (list_find _ s) as [[n y]|] eqn:E; [|done].
  intros [= <-]. apply list_find_Some in E as (Hn & -> & _).
  apply lookup_lt_Some in Hn as Hlt. unfold tuple_get, len.
  destruct (Z.of_nat n <? 0) eqn:E1; [lia|]. rewrite E1.
  rewrite Nat2Z.id, Hn. split; [done|lia].
Qed.

Lemma tuple_get_ge {A} (s : list A) i :
  len s ≤ i → tuple_get s i = Raise IndexError.
Proof.
  intros Hi. unfold tuple_get, len in *.
  destruct (i <? 0) eqn:E1; [lia|]. rewrite E1.
  rewrite lookup_ge_None_2; [done|lia].
Qed.

Lemma getattr_Ok {A} (o : option A) a : getattr o = Ok a → o = Some a.
Proof. destruct o; simpl; congruence. Qed.

Section DecodeOperand.
Context `{Catalog}.

(** Decoding the operand stage 2 resolved gives back the symbol. *)
Lemma decode_arg_resolved pycode i x op0 op st a js :
  flags_ok (op_cls op) = true → has_arg (op_cls op) = true →
  op_cls op0 = op_cls op → arg op0 = Some x → cell op0 = None →
  resolve_arg (pools_of pycode) (len (co_cellvars pycode)) [] 0 op
    = Ok (a, js) →
  (queued_jump op = None → a = Some x) →
  ∃ op' st',
    decode_arg pycode i x op0 st = Ok (op', st')
    ∧ d_ops st' = d_ops st ∧ d_table st' = d_table st
    ∧ op_id op' = op_id op0 ∧ op_cls op' = op_cls op
    ∧ lineno op' = lineno op0
    ∧ same_operand op op'
    ∧ (has_jrel (op_cls op) = true → jrel op' = Some (i + x))
    ∧ (has_jabs (op_cls op) = true → jabs op' = Some x).
Proof.
  intros Hflags Harg Hcls Harg0 Hcell0 Hres Hx.
  unfold flags_ok in Hflags. unfold decode_arg, same_operand.
  unfold queued_jump in Hx. unfold resolve_arg in Hres.
  rewrite Hcls. rewrite Harg in *.
  destruct (has_local (op_cls op)) eqn:Hl, (has_name (op_cls op)) eqn:Hn,
    (has_free (op_cls op)) eqn:Hf, (has_const (op_cls op)) eqn:Hc,
    (has_jrel (op_cls op)) eqn:Hjr, (has_jabs (op_cls op)) eqn:Hja;
    try discriminate Hflags; cbn [orb] in Hx; cbn [negb andb orb].
  all: try (specialize (Hx eq_refl)).
  all: inv_bind; simplify_eq/=;
    repeat match goal with
    | E : getattr _ = Ok _ |- _ => apply getattr_Ok in E
    end.
  all: repeat match goal with
    | E : os_index _ _ = Ok _ |- _ =>
        apply os_index_tuple_get in E as [? ?]
    end.
  - (* local *)
    match goal with E : tuple_get _ _ = Ok _ |- _ => rewrite E end. cbn.
    eexists _, _. repeat split; try done; intros; simpl; congruence.
  - (* name *)
    match goal with E : tuple_get _ _ = Ok _ |- _ => rewrite E end. cbn.
    eexists _, _. repeat split; try done; intros; simpl; congruence.
  - (* free *)
    destruct (cell op) as [cl|] eqn:Hcell; inv_bind; simplify_eq/=;
      repeat match goal with
      | E : getattr _ = Ok _ |- _ => apply getattr_Ok in E
      | E : os_index _ _ = Ok _ |- _ =>
          apply os_index_tuple_get in E as [? ?]
      end.
    + match goal with E : tuple_get _ _ = Ok _ |- _ => rewrite E end. cbn.
      eexists _, _. repeat split; try done; intros; simpl; congruence.
    + rewrite tuple_get_ge by lia.
      match goal with
      | E : tuple_get _ ?i = Ok _ |- _ =>
          replace (i + len (co_cellvars pycode) - len (co_cellvars pycode))
            with i by lia; rewrite E
      end. cbn.
      eexists _, _. repeat split; try done; intros; simpl; congruence.
  - (* const *)
    match goal with E : tuple_get _ _ = Ok _ |- _ => rewrite E end. cbn.
    eexists _, _. repeat split; try done; intros; simpl; congruence.
  - (* jrel *)
    eexists _, _. repeat split; try done; intros; simpl; congruence.
  - (* jabs *)
    eexists _, _. repeat split; try done; intros; simpl; congruence.
  - (* raw *)
    eexists _, _. repeat split; try done; intros; simpl; congruence.
Qed.
End DecodeOperand.
Lemma operand_bytes_value x :
  0 ≤ x ≤ 0xFFFF →
  Z.land x 0xFF + Z.land (Z.shiftr x 8) 0xFF * 256 + 0 = x.
Proof.
  intros Hx. rewrite !land_255, Z.shiftr_div_pow2 by lia.
  change (2 ^ 8) with 256.
  rewrite (Z.mod_small (x / 256)) by (split; [apply Z.div_pos; lia|
    apply Z.div_lt_upper_bound; lia]).
  pose proof (Z.div_mod x 256 ltac:(lia)). lia.
Qed.

Section DecodeLayout.
Context `{Catalog}.

Lemma decode_ops_step_arg pycode lines b c lo hi rest i ext st :
  OPMAP b = Some c → has_arg c = true → c ≠ OP_EXTENDED_ARG →
  decode_ops pycode lines (b :: lo :: hi :: rest) i ext st
  = ('(op, st1) ←
       decode_arg pycode (i + 1 + 2) (lo + hi * 256 + ext)
         (set_arg (new_op c i (lines !! i)) (lo + hi * 256 + ext))
         {| d_table := <[i := i]> (d_table st); d_ops := d_ops st;
            d_freevars := d_freevars st; d_cellvars := d_cellvars st |};
     decode_ops pycode lines rest (i + 1 + 2) ext
       {| d_table := d_table st1; d_ops := d_ops st1 ++ [op];
          d_freevars := d_freevars st1; d_cellvars := d_cellvars st1 |}).
Proof.
  intros Hb Harg Hc. cbn [decode_ops]. rewrite Hb. cbn [mbind result_bind].
  rewrite Harg. by rewrite bool_decide_eq_false_2.
Qed.

Lemma decode_ops_step_noarg pycode lines b c rest i ext st :
  OPMAP b = Some c → has_arg c = false →
  decode_ops pycode lines (b :: rest) i ext st
  = decode_ops pycode lines rest (i + 1) ext
      {| d_table := <[i := i]> (d_table st);
         d_ops := d_ops st ++ [new_op c i (lines !! i)];
         d_freevars := d_freevars st; d_cellvars := d_cellvars st |}.
Proof.
  intros Hb Harg. cbn [decode_ops]. rewrite Hb. cbn [mbind result_bind].
  by rewrite Harg.
Qed.

(** The operand of an instruction that stage 2 has resolved, by the
    [has_arg] flag of its class. *)
Lemma placeholder_has_arg p op r :
  flags_ok (op_cls op) = true →
  resolve_arg p (len (p_cellvars p)) [] 0 op = Ok r →
  if has_arg (op_cls op) then is_Some (placeholder p op)
  else placeholder p op = None ∧ queued_jump op = None.
Proof.
  intros Hflags Hres. unfold placeholder. rewrite Hres. destruct r as [a js].
  unfold flags_ok in Hflags. unfold resolve_arg in Hres. unfold queued_jump.
  destruct (has_local (op_cls op)), (has_name (op_cls op)),
    (has_free (op_cls op)), (has_const (op_cls op)),
    (has_jrel (op_cls op)), (has_jabs (op_cls op)), (has_arg (op_cls op));
    try discriminate Hflags; cbn [orb];
    try destruct (cell op); inv_bind; simplify_eq/=; by eauto.
Qed.

Lemma queued_jump_flags op k t :
  flags_ok (op_cls op) = true → queued_jump op = Some (k, t) →
  (k = rel ∧ has_jrel (op_cls op) = true ∧ has_jabs (op_cls op) = false
   ∧ jrel op = Some t)
  ∨ (k = abs ∧ has_jabs (op_cls op) = true ∧ has_jrel (op_cls op) = false
     ∧ jabs op = Some t).
Proof.
  unfold flags_ok, queued_jump.
  destruct (has_local (op_cls op)), (has_name (op_cls op)),
    (has_free (op_cls op)), (has_const (op_cls op)),
    (has_jrel (op_cls op)), (has_jabs (op_cls op)), (has_arg (op_cls op));
    try discriminate; cbn [orb]; intros _ Hq.
  - left. destruct (jrel op); simplify_eq/=. done.
  - right. destruct (jabs op); simplify_eq/=. done.
Qed.

Lemma flags_jump_queued p op r :
  flags_ok (op_cls op) = true →
  resolve_arg p (len (p_cellvars p)) [] 0 op = Ok r →
  has_jrel (op_cls op) || has_jabs (op_cls op) = true →
  is_Some (queued_jump op).
Proof.
  intros Hflags Hres. destruct r as [a js].
  unfold flags_ok in Hflags. unfold resolve_arg in Hres. unfold queued_jump.
  destruct (has_local (op_cls op)), (has_name (op_cls op)),
    (has_free (op_cls op)), (has_const (op_cls op)),
    (has_jrel (op_cls op)), (has_jabs (op_cls op)), (has_arg (op_cls op));
    try discriminate Hflags; cbn [orb]; try discriminate;
    inv_bind; simplify_eq/=; intros _;
    match goal with
    | E : getattr _ = Ok _ |- _ => apply getattr_Ok in E; rewrite E
    end; by eexists.
Qed.
End DecodeLayout.
Section DecodeLayoutMain.
Context `{Catalog}.

(** Stage 1 of [from_code] on the final layout gives one instruction per
    placed instruction. *)
Lemma decode_layout pycode lines addrs ops i dst :
  let p := pools_of pycode in
  let placed := place (placeholder p) i ops in
  Forall (encodable p addrs) placed →
  ∃ dst' ops',
    decode_ops pycode lines
      (placed ≫= λ '(a, op), chunk (op_cls op) (final_operand p addrs a op))
      i 0 dst = Ok dst'
    ∧ d_ops dst' = d_ops dst ++ ops'
    ∧ d_table dst' = placed_table (d_table dst) placed
    ∧ Forall2 (decoded lines addrs) placed ops'.
Proof.
  intros p. revert i dst. induction ops as [|op ops IH]; intros i dst placed.
  { intros _. exists dst, []. cbn. by rewrite app_nil_r. }
  subst placed. cbn [place]. intros Hall.
  apply Forall_cons in Hall as [Hop Hall].
  destruct Hop as (Hmap & Hext & Hflags & [r Hres] & Hknown & Hrange).
  pose proof (placeholder_has_arg p op r Hflags Hres) as Harg.
  cbn [mbind list_bind].
  destruct (has_arg (op_cls op)) eqn:Ha.
  - destruct Harg as [a0 Ha0].
    assert (∃ x, final_operand p addrs i op = Some x) as [x Hx].
    { unfold final_operand. destruct (queued_jump op) as [[k t]|] eqn:Hq.
      - destruct (Hknown _ _ eq_refl) as [ta ->]. by eexists.
      - by exists a0. }
    specialize (Hrange x Hx). rewrite Hx in *. rewrite Ha0 in *.
    change (chunk (op_cls op) (Some x))
      with [code (op_cls op); Z.land x 0xFF; Z.land (Z.shiftr x 8) 0xFF].
    change (len (chunk (op_cls op) (Some a0))) with 3 in *.
    cbn [app].
    rewrite (decode_ops_step_arg _ _ _ (op_cls op)) by done.
    rewrite operand_bytes_value by done.
    destruct r as [a js].
    edestruct (decode_arg_resolved pycode (i + 1 + 2) x
      (set_arg (new_op (op_cls op) i (lines !! i)) x) op
      {| d_table := <[i:=i]> (d_table dst); d_ops := d_ops dst;
         d_freevars := d_freevars dst; d_cellvars := d_cellvars dst |})
      as (op' & st1 & -> & Hops1 & Htab1 & Hid & Hcls & Hline & Hsame
          & Hjrel & Hjabs); try done; try exact Hres.
    { intros Hq. unfold final_operand in Hx. rewrite Hq in Hx.
      unfold placeholder in Hx. fold p in Hres. rewrite Hres in Hx.
      done. }
    cbn [mbind result_bind].
    replace (i + 1 + 2) with (i + 3) by lia.
    edestruct (IH (i + 3)) as (dst' & ops' & -> & Hops' & Htab' & Hdec);
      [exact Hall|].
    exists dst', (op' :: ops'). split; [done|]. split; [|split].
    + rewrite Hops'. cbn [d_ops]. rewrite Hops1. cbn [d_ops].
      by rewrite <- app_assoc.
    + rewrite Htab'. cbn [d_table placed_table foldl]. by rewrite Htab1.
    + constructor; [|done]. unfold decoded.
      do 3 (split; [done|]). split; [done|]. split.
      * intros Hjr. specialize (Hjrel Hjr).
        destruct (flags_jump_queued p op _ Hflags Hres) as [[k t] Hq].
        { by rewrite Hjr. }
        destruct (queued_jump_flags _ _ _ Hflags Hq)
          as [(-> & _ & _ & Ht)|(_ & _ & ? & _)]; [|congruence].
        destruct (Hknown _ _ Hq) as [ta Hta].
        exists t, ta. do 2 (split; [done|]). rewrite Hjrel. f_equal.
        unfold final_operand in Hx. rewrite Hq, Hta in Hx.
        injection Hx as <-. unfold resolved. rewrite bool_decide_eq_true_2 by done.
        lia.
      * intros Hja. specialize (Hjabs Hja).
        destruct (flags_jump_queued p op _ Hflags Hres) as [[k t] Hq].
        { rewrite Hja. apply orb_true_r. }
        destruct (queued_jump_flags _ _ _ Hflags Hq)
          as [(_ & _ & ? & _)|(-> & _ & _ & Ht)]; [congruence|].
        destruct (Hknown _ _ Hq) as [ta Hta].
        exists t, ta. do 2 (split; [done|]). rewrite Hjabs. f_equal.
        unfold final_operand in Hx. rewrite Hq, Hta in Hx.
        injection Hx as <-. unfold resolved. by rewrite bool_decide_eq_false_2.
  - destruct Harg as [Hnone Hq].
    assert (final_operand p addrs i op = None) as Hx.
    { unfold final_operand. by rewrite Hq. }
    rewrite Hx, Hnone in *.
    change (chunk (op_cls op) None) with [code (op_cls op)] in *.
    change (len [code (op_cls op)]) with 1 in *. cbn [app].
    rewrite (decode_ops_step_noarg _ _ _ (op_cls op)) by done.
    edestruct (IH (i + 1)) as (dst' & ops' & -> & Hops' & Htab' & Hdec);
      [exact Hall|].
    exists dst', (new_op (op_cls op) i (lines !! i) :: ops').
    split; [done|]. split; [|split].
    + rewrite Hops'. cbn [d_ops]. by rewrite <- app_assoc.
    + rewrite Htab'. done.
    + constructor; [|done]. unfold decoded, same_operand.
      unfold flags_ok in Hflags. rewrite Ha in Hflags.
      cbn [new_op op_id op_cls lineno].
      do 3 (split; [done|]).
      destruct (has_local (op_cls op)), (has_name (op_cls op)),
        (has_free (op_cls op)), (has_const (op_cls op)),
        (has_jrel (op_cls op)), (has_jabs (op_cls op));
        try discriminate Hflags; repeat split; try done.
      intros Ha'. congruence.
Qed.
End DecodeLayoutMain.
(** ** Placed instructions *)

Lemma place_snd f i ops : (place f i ops).*2 = ops.
Proof.
  revert i. induction ops as [|op ops IH]; intros i; [done|].
  cbn [place fmap list_fmap]. cbn. f_equal. apply IH.
Qed.

Lemma place_lookup_op f i ops k a op :
  place f i ops !! k = Some (a, op) → ops !! k = Some op.
Proof.
  intros Hk. rewrite <- (place_snd f i ops), list_lookup_fmap, Hk. done.
Qed.

Lemma place_lookup f i ops k op :
  ops !! k = Some op → ∃ a, place f i ops !! k = Some (a, op).
Proof.
  intros Hk. destruct (place f i ops !! k) as [[a op']|] eqn:E.
  - apply place_lookup_op in E as E'. exists a. congruence.
  - apply lookup_ge_None in E.
    apply lookup_lt_Some in Hk.
    rewrite <- (place_snd f i ops), length_fmap in Hk. lia.
Qed.

Lemma len_chunk_pos c a : 1 ≤ len (chunk c a).
Proof. unfold len, chunk. destruct a; cbn [length]; lia. Qed.

Lemma place_ge f i ops k a op :
  place f i ops !! k = Some (a, op) → i ≤ a.
Proof.
  revert i k. induction ops as [|o ops IH]; intros i k; [done|].
  cbn [place]. destruct k as [|k]; cbn.
  - intros [= <- <-]. lia.
  - intros Hk. apply IH in Hk. pose proof (len_chunk_pos (op_cls o) (f o)). lia.
Qed.

(** Placed instructions do not overlap. *)
Lemma place_sorted f i ops k k' a a' op op' :
  (k < k')%nat →
  place f i ops !! k = Some (a, op) → place f i ops !! k' = Some (a', op') →
  a + len (chunk (op_cls op) (f op)) ≤ a'.
Proof.
  revert i k k'. induction ops as [|o ops IH]; intros i k k' Hlt; [done|].
  cbn [place]. destruct k' as [|k']; [lia|]. destruct k as [|k]; cbn.
  - intros [= <- <-] Hk'. by apply place_ge in Hk'.
  - apply IH. lia.
Qed.

Lemma place_inj f i ops k k' a op op' :
  place f i ops !! k = Some (a, op) → place f i ops !! k' = Some (a, op') →
  k = k'.
Proof.
  intros Hk Hk'. destruct (Nat.lt_trichotomy k k') as [Hlt|[->|Hlt]]; [|done|].
  - pose proof (place_sorted _ _ _ _ _ _ _ _ _ Hlt Hk Hk').
    pose proof (len_chunk_pos (op_cls op) (f op)). lia.
  - pose proof (place_sorted _ _ _ _ _ _ _ _ _ Hlt Hk' Hk).
    pose proof (len_chunk_pos (op_cls op') (f op')). lia.
Qed.

Lemma placed_addrs_notin m placed t :
  (∀ a op, (a, op) ∈ placed → op_id op ≠ t) →
  placed_addrs m placed !! t = m !! t.
Proof.
  revert m. induction placed as [|[a op] placed IH]; intros m Hne; [done|].
  cbn [placed_addrs foldl]. fold (placed_addrs (<[op_id op:=a]> m) placed).
  rewrite IH by (intros ???; eapply Hne; by right).
  apply lookup_insert_ne. eapply Hne. by left.
Qed.

(** With distinct identities, the address recorded for an instruction is
    its own. *)
Lemma placed_addrs_lookup m placed k a op :
  NoDup ((λ x, op_id x.2) <$> placed) →
  placed !! k = Some (a, op) →
  placed_addrs m placed !! op_id op = Some a.
Proof.
  revert m k. induction placed as [|[a' op'] placed IH]; intros m k Hnd; [done|].
  cbn [fmap list_fmap] in Hnd. apply NoDup_cons in Hnd as [Hnotin Hnd].
  cbn [placed_addrs foldl]. fold (placed_addrs (<[op_id op':=a']> m) placed).
  destruct k as [|k]; cbn.
  - intros [= <- <-]. rewrite placed_addrs_notin; [apply lookup_insert_eq|].
    intros a2 op2 Hin Heq. apply Hnotin. cbn. rewrite <- Heq.
    apply list_elem_of_fmap. by exists (a2, op2).
  - intros Hk. by eapply IH.
Qed.

(** A recorded address is the address of a placed instruction. *)
Lemma placed_addrs_elem m placed t ta :
  placed_addrs m placed !! t = Some ta →
  m !! t = Some ta ∨ ∃ k op, placed !! k = Some (ta, op) ∧ op_id op = t.
Proof.
  revert m. induction placed as [|[a op] placed IH]; intros m; [by left|].
  cbn [placed_addrs foldl]. fold (placed_addrs (<[op_id op:=a]> m) placed).
  intros Ht. apply IH in Ht as [Ht|(k & op' & Hk & Hid)].
  - apply lookup_insert_Some in Ht as [[<- <-]|[_ Ht]]; [|by left].
    right. by exists 0%nat, op.
  - right. by exists (S k), op'.
Qed.

Lemma placed_table_lookup m placed k a op :
  placed !! k = Some (a, op) →
  (∀ a v, m !! a = Some v → v = a) →
  placed_table m placed !! a = Some a.
Proof.
  revert m k. induction placed as [|[a' op'] placed IH]; intros m k; [done|].
  cbn [placed_table foldl]. fold (placed_table (<[a':=a']> m) placed).
  intros Hk Hm.
  assert (Hm' : ∀ a v, <[a':=a']> m !! a = Some v → v = a).
  { intros a0 v Hv. apply lookup_insert_Some in Hv as [[<- <-]|[_ Hv]];
      [done|by apply Hm]. }
  destruct k as [|k]; cbn in Hk.
  - injection Hk as <- <-.
    assert (Hkeep : ∀ l m0, m0 !! a' = Some a' →
      (∀ a v, m0 !! a = Some v → v = a) →
      placed_table m0 l !! a' = Some a').
    { clear. induction l as [|[b ob] l IHl]; intros m0 H0 Hm0; [done|].
      cbn [placed_table foldl]. fold (placed_table (<[b:=b]> m0) l).
      apply IHl.
      - destruct (decide (b = a')) as [->|Hne];
          [apply lookup_insert_eq|by rewrite lookup_insert_ne].
      - intros a0 v Hv.
        apply lookup_insert_Some in Hv as [[<- <-]|[_ Hv]];
          [done|by apply Hm0]. }
    apply Hkeep; [apply lookup_insert_eq|done].
  - by eapply IH.
Qed.
(** ** Stage 2 and stage 3 of [from_code] after [to_code] *)

Lemma for_each_append_id {A} (f : A → result A) (l : list A) acc :
  Forall (λ x, f x = Ok x) l →
  for_each (λ acc x, y ← f x; Ok (acc ++ [y])) acc l = Ok (acc ++ l).
Proof.
  revert acc. induction l as [|x l IH]; intros acc Hall; cbn [for_each].
  - by rewrite app_nil_r.
  - apply Forall_cons in Hall as [Hx Hall]. rewrite Hx. cbn.
    rewrite IH by done. by rewrite <- app_assoc.
Qed.

(** An instruction whose jump operand is an address of the table is left as
    it is by stage 2 of [from_code]. *)
Lemma resolve_jump_id table op :
  (has_jrel (op_cls op) = true →
   ∃ t, jrel op = Some t ∧ table !! t = Some t) →
  (has_jrel (op_cls op) = false → has_jabs (op_cls op) = true →
   ∃ t, jabs op = Some t ∧ table !! t = Some t) →
  resolve_jump table op = Ok op.
Proof.
  intros Hjr Hja. unfold resolve_jump, table_get.
  destruct (has_jrel (op_cls op)).
  - destruct (Hjr eq_refl) as (t & Ht & Htab). rewrite Ht. cbn.
    rewrite Htab. cbn. destruct op. cbn in *. by subst.
  - destruct (has_jabs (op_cls op)); [|done].
    destruct (Hja eq_refl eq_refl) as (t & Ht & Htab). rewrite Ht. cbn.
    rewrite Htab. cbn. destruct op. cbn in *. by subst.
Qed.

Lemma os_add_app {A} `{EqDecision A} (s : list A) x :
  ∃ l, os_add s x = s ++ l.
Proof.
  unfold os_add. case_match; [exists []; by rewrite app_nil_r|by eexists].
Qed.

Lemma os_add_new {A} `{EqDecision A} (s : list A) x :
  x ∉ s → os_add s x = s ++ [x].
Proof. intros Hx. unfold os_add. by rewrite bool_decide_eq_false_2. Qed.

Lemma os_extend_new {A} `{EqDecision A} (s l : list A) :
  NoDup (s ++ l) → os_extend s l = s ++ l.
Proof.
  unfold os_extend. revert s. induction l as [|x l IH]; intros s Hnd; cbn.
  - by rewrite app_nil_r.
  - rewrite os_add_new.
    + rewrite IH; rewrite <- app_assoc; done.
    + apply NoDup_app in Hnd as (_ & Hdisj & _). intros Hx.
      apply (Hdisj _ Hx). by left.
Qed.

Section DecodeParams.
Context `{Catalog}.

Lemma calc_flags_varargs self :
  bool_decide (Z.land (_calc_flags self) CO_VARARGS ≠ 0)
  = truthy_str (vararg self).
Proof.
  unfold _calc_flags.
  destruct (negb (existsb _ _OPTIMIZE_NEG_SET)), (bool_decide (OP_YIELD_VALUE ∈ _)),
    (negb (existsb _ FREE_OPS)), (truthy_str (vararg self)),
    (truthy_str (varkwarg self)), (newlocals self); vm_compute; done.
Qed.

Lemma calc_flags_varkeywords self :
  bool_decide (Z.land (_calc_flags self) CO_VARKEYWORDS ≠ 0)
  = truthy_str (varkwarg self).
Proof.
  unfold _calc_flags.
  destruct (negb (existsb _ _OPTIMIZE_NEG_SET)), (bool_decide (OP_YIELD_VALUE ∈ _)),
    (negb (existsb _ FREE_OPS)), (truthy_str (vararg self)),
    (truthy_str (varkwarg self)), (newlocals self); vm_compute; done.
Qed.
End DecodeParams.
Lemma os_extend_app {A} `{EqDecision A} (s l : list A) :
  ∃ l', os_extend s l = s ++ l'.
Proof.
  unfold os_extend. revert s. induction l as [|x l IH]; intros s; cbn.
  - exists []. by rewrite app_nil_r.
  - destruct (os_add_app s x) as [l1 ->]. destruct (IH (s ++ l1)) as [l2 ->].
    exists (l1 ++ l2). by rewrite app_assoc.
Qed.

Lemma os_extend_truthy {A} `{EqDecision A} (s : list A) o :
  NoDup (s ++ default [] o) →
  (if truthy_seq o then os_extend s (default [] o) else s) = s ++ default [] o.
Proof.
  destruct o as [[|x l]|]; cbn [truthy_seq default]; intros Hnd;
    rewrite ?app_nil_r; try done.
  by apply os_extend_new.
Qed.

Section ParamsProofs.
Context `{Catalog}.

Lemma initial_pools_varnames self p ac kc :
  NoDup (declared_names self) →
  initial_pools self = Ok (p, ac, kc) →
  ac = length (default [] (args self))
  ∧ kc = length (default [] (kwonlyargs self))
  ∧ ∃ rest, p_varnames p = declared_names self ++ rest.
Proof.
  unfold declared_names, initial_pools. intros Hnd Hb.
  apply bind_Ok in Hb as (kc' & Ekc & Hb). injection Hb as <- <- <-.
  cbn [p_varnames].
  set (a := default [] (args self)) in *.
  set (k := default [] (kwonlyargs self)) in *.
  set (v := if truthy_str (vararg self) then [default ""%string (vararg self)]
            else []) in *.
  set (w := if truthy_str (varkwarg self)
            then [default ""%string (varkwarg self)] else []) in *.
  assert (Ha : (if truthy_seq (args self) then os_extend [] a else []) = a).
  { apply (os_extend_truthy [] (args self)). cbn.
    by apply NoDup_app in Hnd as [? _]. }
  rewrite Ha.
  assert (Hk : (if truthy_seq (kwonlyargs self) then os_extend a k else a)
               = a ++ k).
  { apply os_extend_truthy. rewrite app_assoc in Hnd.
    by apply NoDup_app in Hnd as [? _]. }
  rewrite Hk.
  assert (Hv : (if truthy_str (vararg self)
                then os_add (a ++ k) (default ""%string (vararg self))
                else a ++ k) = a ++ k ++ v).
  { subst v. destruct (truthy_str (vararg self)); [|by rewrite app_nil_r].
    rewrite os_add_new; [by rewrite <- app_assoc|].
    rewrite !app_assoc in Hnd. apply NoDup_app in Hnd as [Hnd _].
    apply NoDup_app in Hnd as (_ & Hdisj & _). intros Hin.
    apply (Hdisj _ Hin). by left. }
  rewrite Hv.
  assert (Hw : (if truthy_str (varkwarg self)
                then os_add (a ++ k ++ v) (default ""%string (varkwarg self))
                else a ++ k ++ v) = a ++ k ++ v ++ w).
  { subst w. destruct (truthy_str (varkwarg self)); [|by rewrite app_nil_r].
    rewrite os_add_new; [by rewrite <- !app_assoc|].
    rewrite !app_assoc in Hnd.
    apply NoDup_app in Hnd as (_ & Hdisj & _). intros Hin.
    rewrite app_assoc in Hin. apply (Hdisj _ Hin). by left. }
  rewrite Hw. split; [done|]. split.
  { clear -Ekc. subst k. destruct (kwonlyargs self); [|done].
    by injection Ekc as <-. }
  destruct (truthy_seq (varnames self)); [|exists []; by rewrite app_nil_r].
  destruct (os_extend_app (a ++ k ++ v ++ w) (default [] (varnames self)))
    as [l' ->]. by exists l'.
Qed.

Lemma harvest_varnames p op p' :
  harvest p op = Ok p' → ∃ l, p_varnames p' = p_varnames p ++ l.
Proof.
  unfold harvest. intros Hh.
  repeat case_match; inv_bind; simplify_eq/=;
    try (exists []; by rewrite app_nil_r).
  apply os_add_app.
Qed.

Lemma harvest_all_varnames p ops p' :
  for_each harvest p ops = Ok p' → ∃ l, p_varnames p' = p_varnames p ++ l.
Proof.
  revert p. induction ops as [|op ops IH]; intros p; cbn [for_each].
  - intros [= <-]. exists []. by rewrite app_nil_r.
  - intros Hb. apply bind_Ok in Hb as (p1 & E1 & Hb).
    apply harvest_varnames in E1 as [l1 E1]. apply IH in Hb as [l2 ->].
    rewrite E1. exists (l1 ++ l2). by rewrite app_assoc.
Qed.
End ParamsProofs.
Lemma pools_of_eta pools ac kc ns ss fl code_ fn nm fl' ln :
  pools_of
    {| co_argcount := ac; co_kwonlyargcount := kc; co_nlocals := ns;
       co_stacksize := ss; co_flags := fl; co_code := code_;
       co_consts := p_consts pools; co_names := p_names pools;
       co_varnames := p_varnames pools; co_filename := fn; co_name := nm;
       co_firstlineno := fl'; co_lnotab := ln;
       co_freevars := p_freevars pools; co_cellvars := p_cellvars pools |}
  = pools.
Proof. by destruct pools. Qed.

Section RoundTripLemmas.
Context `{Catalog}.

Lemma resolve_arg_indep p n js addr op a js' :
  resolve_arg p n js addr op = Ok (a, js') →
  ∃ js'', resolve_arg p n [] 0 op = Ok (a, js'').
Proof.
  unfold resolve_arg. intros Hb.
  repeat match type of Hb with
  | (if ?b then _ else _) = _ => destruct b
  | match cell op with _ => _ end = _ => destruct (cell op)
  end; inv_bind; simplify_eq/=;
  repeat match goal with
  | Hx : ?m = Ok _ |- context [?m] => rewrite Hx; cbn
  end; by eexists.
Qed.

Lemma emit_op_resolved p n st op st' :
  emit_op p n st op = Ok st' → ∃ r, resolve_arg p n [] 0 op = Ok r.
Proof.
  unfold emit_op. intros Hb.
  apply bind_Ok in Hb as (c1 & _ & Hb).
  apply bind_Ok in Hb as ([[ln ll] lp] & _ & Hb).
  apply bind_Ok in Hb as ([a jumps'] & Ea & _).
  apply resolve_arg_indep in Ea as [js Ea]. by eexists.
Qed.

Lemma emit_all_resolved p n st ops st' op :
  for_each (emit_op p n) st ops = Ok st' → op ∈ ops →
  ∃ r, resolve_arg p n [] 0 op = Ok r.
Proof.
  intros Hb Hop.
  refine (for_each_elem (λ op _, ∃ r, resolve_arg p n [] 0 op = Ok r)
            _ _ _ _ _ _ Hb op Hop).
  - intros s x s' Hx. by eapply emit_op_resolved.
  - by intros.
Qed.

(** The operands stage 2 writes for instructions other than jumps fit in 16
    bits when the pools are small. *)
Lemma placeholder_range pycode op r a :
  flags_ok (op_cls op) = true →
  resolve_arg (pools_of pycode) (len (co_cellvars pycode)) [] 0 op = Ok r →
  pools_small pycode → raw_ok op →
  placeholder (pools_of pycode) op = Some a → 0 ≤ a ≤ 0xFFFF.
Proof.
  intros Hflags Hres (Hv & Hn & Hc & Hf) Hraw. unfold placeholder.
  change (p_cellvars (pools_of pycode)) with (co_cellvars pycode).
  rewrite Hres. destruct r as [a' js]. intros ->.
  unfold flags_ok in Hflags. unfold raw_ok in Hraw.
  unfold resolve_arg in Hres.
  destruct (has_local (op_cls op)), (has_name (op_cls op)),
    (has_free (op_cls op)), (has_const (op_cls op)),
    (has_jrel (op_cls op)), (has_jabs (op_cls op)), (has_arg (op_cls op));
    try discriminate Hflags; cbn [orb] in Hraw;
    try destruct (cell op); inv_bind; simplify_eq/=;
    repeat match goal with
    | E : os_index _ _ = Ok _ |- _ =>
        apply os_index_tuple_get in E as [_ ?]
    | E : getattr _ = Ok _ |- _ => apply getattr_Ok in E
    end; unfold len in *; try lia.
  all: by apply Hraw.
Qed.
End RoundTripLemmas.
Section RoundTripCore.
Context `{Catalog}.

Lemma to_code_inv self pycode :
  to_code self = Ok pycode →
  ∃ pools ac kc st code_ ss,
    to_code_stage2 self = Ok (pools, ac, kc, st)
    ∧ for_each (relocate (st_addrs st)) (st_code st) (st_jumps st) = Ok code_
    ∧ _calc_stack_size self = Ok ss
    ∧ pycode =
        {| co_argcount := ac; co_kwonlyargcount := kc;
           co_nlocals := length (p_varnames pools); co_stacksize := ss;
           co_flags := _calc_flags self; co_code := code_;
           co_consts := p_consts pools; co_names := p_names pools;
           co_varnames := p_varnames pools; co_filename := filename self;
           co_name := code_name self; co_firstlineno := firstlineno self;
           co_lnotab := st_lnotab st; co_freevars := p_freevars pools;
           co_cellvars := p_cellvars pools |}.
Proof.
  unfold to_code. intros Hb.
  apply bind_Ok in Hb as ([[[pools ac] kc] st] & E2 & Hb).
  apply bind_Ok in Hb as (code_ & E3 & Hb).
  apply bind_Ok in Hb as (ss & E4 & Hb). injection Hb as <-.
  by exists pools, ac, kc, st, code_, ss.
Qed.

(** The byte code of an encoded unit is the layout of its instructions, and
    every placed instruction is one the decoder reads back. *)
Lemma to_code_layout self pycode :
  round_trip_ready self pycode → to_code self = Ok pycode →
  let p := pools_of pycode in
  let placed := place (placeholder p) 0 (ops self) in
  let addrs := placed_addrs ∅ placed in
  co_code pycode
  = (placed ≫= λ '(a, op), chunk (op_cls op) (final_operand p addrs a op))
  ∧ Forall (encodable p addrs) placed.
Proof.
  intros (Hnd & Hcls & Hraw & Hfwd & Hsmall & _) Hc p placed addrs.
  apply to_code_inv in Hc as (pools & ac & kc & st & code_ & ss & H2 & H3 & _
                              & Hpy).
  assert (Hp : p = pools) by (subst p pycode; apply pools_of_eta).
  assert (Hcell : len (co_cellvars pycode) = len (p_cellvars pools))
    by (by subst pycode).
  apply to_code_stage2_inv in H2 as (pools0 & Hemit & _ & _).
  assert (Hres : ∀ op, op ∈ ops self →
    ∃ r, resolve_arg p (len (p_cellvars p)) [] 0 op = Ok r).
  { intros op Hop. rewrite Hp. by eapply emit_all_resolved. }
  assert (Hrange : ∀ op a, op ∈ ops self →
    placeholder p op = Some a → 0 ≤ a ≤ 0xFFFF).
  { intros op a Hop Ha. destruct (Hres op Hop) as [r Hr].
    rewrite Forall_forall in Hcls, Hraw.
    eapply (placeholder_range pycode op r); try done.
    - by apply Hcls.
    - by apply Hraw. }
  rewrite <- Hp in Hemit.
  apply emit_all_layout in Hemit as (Hcode & Hjumps & Haddrs).
  2:{ intros op a Hop Ha. by apply (Hrange op a Hop). }
  cbn [st_code st_jumps st_addrs app len length] in Hcode, Hjumps, Haddrs.
  change (Z.of_nat 0) with 0 in *. fold placed in Hjumps, Haddrs.
  fold addrs in Haddrs.
  rewrite Hcode, Hjumps, Haddrs in H3.
  apply (relocate_layout p addrs (ops self) []) in H3 as [Hfinal Hjumpok].
  fold placed in Hfinal, Hjumpok. cbn [app] in Hfinal.
  split; [by subst pycode|].
  apply Forall_lookup. intros k [a op] Hk.
  pose proof (place_lookup_op _ _ _ _ _ _ Hk) as Hopk.
  pose proof (list_elem_of_lookup_2 _ _ _ Hopk) as Hop.
  rewrite Forall_forall in Hcls. destruct (Hcls op Hop) as (Hmap & Hext & Hflags).
  rewrite Forall_lookup in Hjumpok. specialize (Hjumpok k _ Hk). cbn in Hjumpok.
  unfold encodable. do 3 (split; [done|]). split; [by apply Hres|]. split.
  { intros kd t Hq. destruct (Hjumpok _ _ Hq) as (ta & Hta & _). by eexists. }
  intros x Hx. unfold final_operand in Hx.
  destruct (queued_jump op) as [[kd t]|] eqn:Hq; [|by eapply Hrange].
  destruct (Hjumpok _ _ eq_refl) as (ta & Hta & Hle). rewrite Hta in Hx.
  injection Hx as <-. split; [|done].
  assert (Hnd' : NoDup ((λ x, op_id x.2) <$> placed)).
  { replace ((λ x : Z * Op, op_id x.2) <$> placed)
      with (op_id <$> placed.*2) by (by rewrite <- list_fmap_compose).
    subst placed. by rewrite place_snd. }
  destruct kd; unfold resolved; cbn [bool_decide decide_rel].
  - (* relative: the target is a later instruction *)
    rewrite bool_decide_eq_true_2 by done.
    destruct (Hfwd k op t Hopk Hq) as (k' & tgt & Hlt & Hk' & Hid).
    destruct (place_lookup (placeholder p) 0 _ _ _ Hk') as [a' Ha'].
    fold placed in Ha'.
    pose proof (placed_addrs_lookup ∅ placed k' a' tgt Hnd' Ha') as Hlook.
    rewrite Hid in Hlook. fold addrs in Hlook. rewrite Hta in Hlook.
    injection Hlook as ->.
    pose proof (place_sorted _ _ _ _ _ _ _ _ _ Hlt Hk Ha') as Hsorted.
    rewrite (queued_jump_placeholder p _ _ _ Hq) in Hsorted.
    change (len (chunk (op_cls op) (Some 0))) with 3 in Hsorted. lia.
  - (* absolute: an address *)
    rewrite bool_decide_eq_false_2 by done.
    apply placed_addrs_elem in Hta as [Hta|(k' & tgt & Hk' & _)];
      [by rewrite lookup_empty in Hta|].
    by apply place_ge in Hk'.
Qed.
End RoundTripCore.
Lemma tuple_get_nat {A} (l : list A) n x :
  l !! n = Some x → tuple_get l (Z.of_nat n) = Ok x.
Proof.
  intros Hn. unfold tuple_get.
  destruct (Z.of_nat n <? 0) eqn:E; [apply Z.ltb_lt in E; lia|].
  rewrite ?E. by rewrite Nat2Z.id, Hn.
Qed.

Section FromCodeAfter.
Context `{Catalog}.

(** Stage 3 of [from_code] finds the names of [*args] and [**kwargs]. *)
Lemma decode_params_ok self pycode :
  NoDup (declared_names self) → to_code self = Ok pycode →
  let argstop := (co_argcount pycode + co_kwonlyargcount pycode)%nat in
  ∃ va s1 vk s2,
    (if bool_decide (Z.land (co_flags pycode) CO_VARARGS ≠ 0) then
       x ← tuple_get (co_varnames pycode) (Z.of_nat argstop);
       Ok (Some x, S argstop)
     else Ok (None, argstop)) = Ok (va, s1)
    ∧ (if bool_decide (Z.land (co_flags pycode) CO_VARKEYWORDS ≠ 0) then
         x ← tuple_get (co_varnames pycode) (Z.of_nat s1);
         Ok (Some x, S s1)
       else Ok (None, s1)) = Ok (vk, s2).
Proof.
  intros Hnd Hc argstop.
  apply to_code_inv in Hc as (pools & ac & kc & st & code_ & ss & H2 & _ & _
                              & ->).
  subst argstop. cbn [co_argcount co_kwonlyargcount co_flags co_varnames].
  apply to_code_stage2_inv in H2 as (pools0 & _ & Hharvest & Hinit).
  apply initial_pools_varnames in Hinit as (-> & -> & rest & Hnames); [|done].
  apply harvest_all_varnames in Hharvest as [more Hmore].
  rewrite Hnames in Hmore. rewrite Hmore. clear Hmore Hnames.
  rewrite calc_flags_varargs, calc_flags_varkeywords.
  unfold declared_names.
  set (a := default [] (args self)). set (k := default [] (kwonlyargs self)).
  assert (Hfirst : ∀ (x : string) tail,
    (((a ++ k ++ x :: tail) ++ rest) ++ more)
    !! (length a + length k)%nat = Some x).
  { intros x tail. rewrite <- !app_assoc. cbn [app]. rewrite app_assoc.
    apply list_lookup_middle. by rewrite length_app. }
  assert (Hsecond : ∀ (x y : string),
    (((a ++ k ++ [x; y]) ++ rest) ++ more)
    !! S (length a + length k) = Some y).
  { intros x y. rewrite <- !app_assoc. cbn [app].
    change (x :: y :: rest ++ more) with ([x] ++ y :: rest ++ more).
    rewrite !app_assoc. apply list_lookup_middle.
    rewrite !length_app. cbn [length]. lia. }
  destruct (truthy_str (vararg self)), (truthy_str (varkwarg self));
    cbn [app].
  - eexists _, _, _, _. split.
    + by rewrite (tuple_get_nat _ _ _ (Hfirst _ _)).
    + by rewrite (tuple_get_nat _ _ _ (Hsecond _ _)).
  - eexists _, _, _, _. split; [|done].
    by rewrite (tuple_get_nat _ _ _ (Hfirst _ _)).
  - eexists _, _, _, _. split; [done|].
    by rewrite (tuple_get_nat _ _ _ (Hfirst _ _)).
  - by eexists _, _, _, _.
Qed.

(** [from_code] accepts the code object of an encoded unit, and its
    instructions are those stage 1 decodes from the layout. *)
Lemma from_code_after self pycode :
  round_trip_ready self pycode → to_code self = Ok pycode →
  let p := pools_of pycode in
  let placed := place (placeholder p) 0 (ops self) in
  let addrs := placed_addrs ∅ placed in
  ∃ c, from_code pycode = Ok c
       ∧ Forall2 (decoded (dict (findlinestarts pycode)) addrs) placed (ops c).
Proof.
  intros Hready Hc p placed addrs.
  destruct (to_code_layout self pycode Hready Hc) as [Hcode Henc].
  fold p placed addrs in Hcode, Henc.
  destruct (decode_layout pycode (dict (findlinestarts pycode)) addrs
              (ops self) 0
              {| d_table := ∅; d_ops := []; d_freevars := [];
                 d_cellvars := [] |} Henc)
    as (dst' & ops' & Hdec & Hops & Htab & Hall).
  fold p placed in Hdec, Htab, Hall. cbn [d_ops d_table app] in Hops, Htab.
  destruct Hready as (_ & _ & _ & _ & _ & Hnames).
  destruct (decode_params_ok self pycode Hnames Hc)
    as (va & s1 & vk & s2 & Hva & Hvk).
  unfold from_code. rewrite Hcode, Hdec. cbn [mbind result_bind].
  rewrite Hops, Htab.
  rewrite for_each_append_id.
  - cbn [mbind result_bind app]. rewrite Hva. cbn [mbind result_bind].
    rewrite Hvk. cbn [mbind result_bind]. eexists. split; [done|]. done.
  - apply Forall_forall. intros op' Hop'.
    apply list_elem_of_lookup_1 in Hop' as [k Hk'].
    destruct (Forall2_lookup_r _ _ _ _ _ Hall Hk') as ([a op] & Hk & Hd).
    destruct Hd as (_ & Hcls & _ & _ & Hjr & Hja).
    assert (Htable : ∀ t ta, addrs !! t = Some ta →
      placed_table ∅ placed !! ta = Some ta).
    { intros t ta Hta.
      apply placed_addrs_elem in Hta as [Hta|(k0 & tgt & Hk0 & _)];
        [by rewrite lookup_empty in Hta|].
      eapply placed_table_lookup; [done|]. intros ??. by rewrite lookup_empty. }
    apply resolve_jump_id; rewrite Hcls.
    + intros Hf. destruct (Hjr Hf) as (t & ta & _ & Hta & ->).
      exists ta. split; [done|]. by eapply Htable.
    + intros _ Hf. destruct (Hja Hf) as (t & ta & _ & Hta & ->).
      exists ta. split; [done|]. by eapply Htable.
Qed.
End FromCodeAfter.
Section RoundTripInstructions.

(** Instructions decoded from placed instructions match them, and have
    distinct identities. *)
Lemma decoded_op_matches f lines ops ops' :
  let placed := place f 0 ops in
  let addrs := placed_addrs ∅ placed in
  Forall2 (decoded lines addrs) placed ops' →
  NoDup (op_id <$> ops')
  ∧ Forall2 (op_matches ops ops') ops ops'
  ∧ Forall2 (λ '(a, _) op', lineno op' = lines !! a) placed ops'.
Proof.
  intros placed addrs Hall.
  assert (Hlen : length ops = length ops').
  { rewrite <- (Forall2_length _ _ _ Hall). subst placed.
    by rewrite <- (place_snd f 0 ops) at 1; rewrite length_fmap. }
  assert (Hid : ∀ k a op op', placed !! k = Some (a, op) →
    ops' !! k = Some op' → op_id op' = a).
  { intros k a op op' Hk Hk'.
    by destruct (Forall2_lookup_lr _ _ _ _ _ _ Hall Hk Hk') as (? & _). }
  split; [|split].
  - apply NoDup_alt. intros i j a Hi Hj.
    rewrite list_lookup_fmap in Hi, Hj.
    destruct (ops' !! i) as [oi|] eqn:Ei; [|done].
    destruct (ops' !! j) as [oj|] eqn:Ej; [|done].
    cbn in Hi, Hj. injection Hi as Hi. injection Hj as Hj.
    destruct (Forall2_lookup_r _ _ _ _ _ Hall Ei) as ([ai opi] & Hpi & _).
    destruct (Forall2_lookup_r _ _ _ _ _ Hall Ej) as ([aj opj] & Hpj & _).
    pose proof (Hid _ _ _ _ Hpi Ei). pose proof (Hid _ _ _ _ Hpj Ej).
    eapply (place_inj f 0 ops); [exact Hpi|]. replace ai with aj by congruence.
    exact Hpj.
  - apply Forall2_same_length_lookup. split; [done|].
    intros k op op' Hk Hk'.
    destruct (place_lookup f 0 _ _ _ Hk) as [a Ha]. fold placed in Ha.
    destruct (Forall2_lookup_lr _ _ _ _ _ _ Hall Ha Hk')
      as (_ & Hcls & _ & Hsame & Hjr & Hja).
    assert (Hpos : ∀ t ta, addrs !! t = Some ta →
      same_position ops ops' t ta).
    { intros t ta Hta.
      apply placed_addrs_elem in Hta as [Hta|(k0 & tgt & Hk0 & Htgt)];
        [by rewrite lookup_empty in Hta|].
      destruct (Forall2_lookup_l _ _ _ _ _ Hall Hk0) as (tgt' & Hk0' & _).
      exists k0, tgt, tgt'. split; [by eapply place_lookup_op|].
      split; [done|]. split; [done|]. by eapply Hid. }
    split; [done|]. split; [done|]. split.
    + intros Hf. destruct (Hjr Hf) as (t & ta & Ht & Hta & Ht').
      exists t, ta. do 2 (split; [done|]). by apply Hpos.
    + intros Hf. destruct (Hja Hf) as (t & ta & Ht & Hta & Ht').
      exists t, ta. do 2 (split; [done|]). by apply Hpos.
  - eapply Forall2_impl; [exact Hall|]. intros [a op] op' Hd.
    by destruct Hd as (_ & _ & ? & _).
Qed.
End RoundTripInstructions.
(** ** The line table *)

Lemma findlinestarts_zero c rest last ln ad :
  findlinestarts_loop (0 :: c :: rest) last ln ad
  = findlinestarts_loop rest last (ln + c) ad.
Proof. done. Qed.

Lemma findlinestarts_same b c rest ln ad :
  b ≠ 0 →
  findlinestarts_loop (b :: c :: rest) (Some ln) ln ad
  = findlinestarts_loop rest (Some ln) (ln + c) (ad + b).
Proof.
  intros Hb. cbn [findlinestarts_loop].
  rewrite bool_decide_eq_false_2 by done.
  by rewrite bool_decide_eq_true_2.
Qed.

Lemma findlinestarts_new b c rest last ln ad :
  b ≠ 0 → last ≠ Some ln →
  findlinestarts_loop (b :: c :: rest) last ln ad
  = (ad, ln) :: findlinestarts_loop rest (Some ln) (ln + c) (ad + b).
Proof.
  intros Hb Hlast. cbn [findlinestarts_loop].
  rewrite bool_decide_eq_false_2 by done.
  by rewrite bool_decide_eq_false_2.
Qed.

Lemma findlinestarts_pos_padding j rest ln ad :
  findlinestarts_loop (pos_padding j ++ rest) (Some ln) ln ad
  = findlinestarts_loop rest (Some ln) ln (ad + 255 * Z.of_nat j).
Proof.
  revert ad. induction j as [|j IH]; intros ad.
  - cbn [pos_padding app]. f_equal. lia.
  - cbn [pos_padding app]. rewrite findlinestarts_same by done.
    rewrite Z.add_0_r, IH. f_equal. lia.
Qed.

Lemma findlinestarts_line_padding m rest last ln ad :
  findlinestarts_loop (line_padding m ++ rest) last ln ad
  = findlinestarts_loop rest last (ln + 255 * Z.of_nat m) ad.
Proof.
  revert ln. induction m as [|m IH]; intros ln.
  - cbn [line_padding app]. f_equal. lia.
  - cbn [line_padding app]. rewrite findlinestarts_zero, IH. f_equal. lia.
Qed.

Lemma lnotab_pad_pos_spec fuel ln p ln' p' :
  lnotab_pad_pos fuel ln p = Ok (ln', p') → (Z.to_nat p ≤ fuel)%nat →
  ∃ j, ln' = ln ++ pos_padding j ∧ p = p' + 255 * Z.of_nat j ∧ p' ≤ 255
       ∧ (0 < p → 0 < p') ∧ (p ≤ 255 → j = 0%nat).
Proof.
  revert ln p. induction fuel as [|fuel IH]; intros ln p;
    cbn [lnotab_pad_pos].
  - intros [= <- <-] Hf. exists 0%nat. cbn. rewrite app_nil_r.
    repeat split; lia.
  - destruct (255 <? p) eqn:E.
    + apply Z.ltb_lt in E. intros Hb Hf.
      apply bind_Ok in Hb as (ln1 & E1 & Hb). apply ba_extend_inv in E1 as ->.
      apply IH in Hb as (j & -> & Hp & Hle & Hpos & _); [|lia].
      exists (S j). cbn [pos_padding]. rewrite <- app_assoc.
      repeat split; try done; lia.
    + apply Z.ltb_ge in E. intros [= <- <-] Hf. exists 0%nat. cbn.
      rewrite app_nil_r. repeat split; lia.
Qed.

Lemma lnotab_pad_line_spec fuel ln p l ln' p' l' :
  lnotab_pad_line fuel ln p l = Ok (ln', p', l') → (Z.to_nat l ≤ fuel)%nat →
  (l ≤ 255 ∧ ln' = ln ∧ p' = p ∧ l' = l)
  ∨ (∃ m, ln' = ln ++ p :: 255 :: line_padding m ∧ p' = 0
          ∧ l = l' + 255 * (Z.of_nat m + 1) ∧ 0 < l' ≤ 255).
Proof.
  revert ln p l. induction fuel as [|fuel IH]; intros ln p l;
    cbn [lnotab_pad_line].
  - intros [= <- <- <-] Hf. left. repeat split; lia.
  - destruct (255 <? l) eqn:E.
    + apply Z.ltb_lt in E. intros Hb Hf.
      apply bind_Ok in Hb as (ln1 & E1 & Hb). apply ba_extend_inv in E1 as ->.
      apply IH in Hb as [(Hle & -> & -> & ->)|(m & -> & -> & Hl & Hl')];
        [| |lia].
      * right. exists 0%nat. cbn [line_padding].
        repeat split; try done; lia.
      * right. exists (S m). cbn [line_padding]. rewrite <- app_assoc.
        repeat split; try done; lia.
    + apply Z.ltb_ge in E. intros [= <- <- <-] Hf. left. repeat split; lia.
Qed.
(** What [dis.findlinestarts] makes of the entries [to_code] writes for an
    instruction [p] bytes and [l] lines after the last one with a line
    number: the pending pair is yielded when the address advances, and the
    new pair is pending. *)
Lemma lnotab_update_decode ln p l ln' :
  lnotab_update ln p l = Ok ln' → 0 ≤ p → 0 ≤ l → (0 < p → 0 < l) →
  ∃ delta, ln' = ln ++ delta
    ∧ ∀ rest last lineno addr, last ≠ Some lineno →
        findlinestarts_loop (delta ++ rest) last lineno addr
        = (if bool_decide (p = 0) then [] else [(addr, lineno)])
          ++ findlinestarts_loop rest
               (if bool_decide (p = 0) then last else Some lineno)
               (lineno + l) (addr + p).
Proof.
  unfold lnotab_update. intros Hb Hp Hl Hpl.
  destruct (bool_decide (l = 0)) eqn:El; cbn [andb] in Hb.
  { apply bool_decide_eq_true in El as ->.
    assert (p = 0) as -> by lia. rewrite bool_decide_eq_true_2 in Hb by done.
    apply ba_extend_inv in Hb as ->. exists [0; 0]. split; [done|].
    intros rest last lineno addr _. cbn [app].
    rewrite findlinestarts_zero. rewrite bool_decide_eq_true_2 by done.
    by rewrite !Z.add_0_r. }
  apply bool_decide_eq_false in El.
  apply bind_Ok in Hb as ([ln1 p1] & E1 & Hb).
  apply bind_Ok in Hb as ([[ln2 p2] l2] & E2 & Hb).
  apply lnotab_pad_pos_spec in E1 as (j & -> & Hp1 & Hp1le & Hp1pos & Hj);
    [|lia].
  apply lnotab_pad_line_spec in E2
    as [(Hle & -> & -> & ->)|(m & -> & -> & Hl2 & Hl2')]; [| |lia].
  - (* no line padding *)
    rewrite (bool_decide_eq_false_2 (l = 0)) in Hb by done.
    rewrite orb_true_r in Hb. apply ba_extend_inv in Hb as ->.
    exists (pos_padding j ++ [p1; l]). split; [by rewrite app_assoc|].
    intros rest last lineno addr Hlast. rewrite <- app_assoc. cbn [app].
    destruct (decide (p = 0)) as [->|Hp0].
    + rewrite Hj by lia. cbn [pos_padding app].
      assert (p1 = 0) as -> by lia.
      rewrite findlinestarts_zero. rewrite bool_decide_eq_true_2 by done.
      cbn [app]. f_equal; lia.
    + rewrite (bool_decide_eq_false_2 (p = 0)) by done.
      destruct j as [|j].
      * cbn [pos_padding app]. rewrite findlinestarts_new by (done || lia).
        cbn [app]. do 2 f_equal; lia.
      * cbn [pos_padding app]. rewrite findlinestarts_new by done.
        rewrite Z.add_0_r, findlinestarts_pos_padding.
        rewrite findlinestarts_same by lia. cbn [app]. do 2 f_equal; lia.
  - (* line padding *)
    rewrite (bool_decide_eq_false_2 (l2 = 0)) in Hb by lia.
    rewrite orb_true_r in Hb. apply ba_extend_inv in Hb as ->.
    exists (pos_padding j ++ p1 :: 255 :: line_padding m ++ [0; l2]).
    split; [by rewrite <- !app_assoc|].
    intros rest last lineno addr Hlast. rewrite <- !app_assoc. cbn [app].
    rewrite <- !app_assoc. cbn [app].
    destruct (decide (p = 0)) as [->|Hp0].
    + rewrite Hj by lia. cbn [pos_padding app].
      assert (p1 = 0) as -> by lia.
      rewrite findlinestarts_zero, findlinestarts_line_padding.
      rewrite findlinestarts_zero. rewrite bool_decide_eq_true_2 by done.
      cbn [app]. f_equal; lia.
    + rewrite (bool_decide_eq_false_2 (p = 0)) by done.
      destruct j as [|j].
      * cbn [pos_padding app]. rewrite findlinestarts_new by (done || lia).
        rewrite findlinestarts_line_padding, findlinestarts_zero.
        cbn [app]. do 2 f_equal; lia.
      * cbn [pos_padding app]. rewrite findlinestarts_new by done.
        rewrite Z.add_0_r, findlinestarts_pos_padding.
        rewrite findlinestarts_same by lia.
        rewrite findlinestarts_line_padding, findlinestarts_zero.
        cbn [app]. do 2 f_equal; lia.
Qed.
Section EmitLines.
Context `{Catalog}.

Lemma emit_op_lines p n st op st' :
  emit_op p n st op = Ok st' →
  match lineno op with
  | None =>
    st_lnotab st' = st_lnotab st ∧ st_lastlineno st' = st_lastlineno st
    ∧ st_lastlinepos st' = st_lastlinepos st
  | Some line =>
    lnotab_update (st_lnotab st) (len (st_code st) - st_lastlinepos st)
      (line - st_lastlineno st) = Ok (st_lnotab st')
    ∧ st_lastlineno st' = line ∧ st_lastlinepos st' = len (st_code st)
  end.
Proof.
  unfold emit_op. intros Hb.
  apply bind_Ok in Hb as (c1 & _ & Hb).
  apply bind_Ok in Hb as ([[ln ll] lp] & El & Hb).
  apply bind_Ok in Hb as ([a jumps'] & _ & Hb).
  apply bind_Ok in Hb as (c2 & _ & Hb). injection Hb as <-.
  cbn [st_lnotab st_lastlineno st_lastlinepos].
  destruct (lineno op) as [line|].
  - apply bind_Ok in El as (ln1 & E1 & El). by injection El as <- <- <-.
  - by injection El as <- <- <-.
Qed.

(** The entries written after an instruction with a line number yield the
    pairs of the instructions that follow. *)
Lemma emit_rest_lines p ops st st' :
  for_each (emit_op p (len (p_cellvars p))) st ops = Ok st' →
  (∀ op a, op ∈ ops → placeholder p op = Some a → a ≤ 0xFFFF) →
  0 ≤ st_lastlinepos st < len (st_code st) →
  lines_increasing (st_lastlineno st) ops →
  ∃ delta, st_lnotab st' = st_lnotab st ++ delta
    ∧ ∀ rest last, last ≠ Some (st_lastlineno st) →
      ∃ ys last',
        findlinestarts_loop (delta ++ rest) last (st_lastlineno st)
          (st_lastlinepos st)
        = ys ++ findlinestarts_loop rest last' (st_lastlineno st')
                  (st_lastlinepos st')
        ∧ last' ≠ Some (st_lastlineno st')
        ∧ ys ++ [(st_lastlinepos st', st_lastlineno st')]
          = (st_lastlinepos st, st_lastlineno st)
            :: annotated (place (placeholder p) (len (st_code st)) ops).
Proof.
  revert st. induction ops as [|op ops IH]; intros st; cbn [for_each].
  { intros [= <-] _ _ _. exists []. split; [by rewrite app_nil_r|].
    intros rest last Hlast. exists [], last. done. }
  intros Hb Hsmall Hpos Hinc. apply bind_Ok in Hb as (st1 & E1 & Hb).
  assert (Hcode := emit_op_code _ _ _ _ E1
    (λ a, Hsmall op a (list_elem_of_here _ _))).
  pose proof (len_chunk_pos (op_cls op) (placeholder p op)) as Hchunk.
  pose proof (emit_op_lines _ _ _ _ _ E1) as Hlines.
  cbn [lines_increasing] in Hinc. cbn [place annotated omap list_omap].
  fold (annotated (place (placeholder p)
    (len (st_code st) + len (chunk (op_cls op) (placeholder p op))) ops)).
  replace (len (st_code st) + len (chunk (op_cls op) (placeholder p op)))
    with (len (st_code st1)) by (by rewrite Hcode, len_app).
  destruct (lineno op) as [line|].
  - destruct Hlines as (Hup & Hll & Hlp). destruct Hinc as [Hlt Hinc].
    apply lnotab_update_decode in Hup as (delta1 & Hln1 & Hdec1);
      [|lia|lia|lia].
    apply IH in Hb as (delta2 & Hln2 & Hdec2).
    + exists (delta1 ++ delta2). split.
      { by rewrite Hln2, Hln1, <- app_assoc. }
      intros rest last Hlast.
      rewrite <- app_assoc, (Hdec1 _ _ _ _ Hlast).
      rewrite bool_decide_eq_false_2 by lia. cbn [app].
      replace (st_lastlineno st + (line - st_lastlineno st)) with line by lia.
      replace (st_lastlinepos st + (len (st_code st) - st_lastlinepos st))
        with (len (st_code st)) by lia.
      rewrite <- Hll, <- Hlp.
      destruct (Hdec2 rest (Some (st_lastlineno st)))
        as (ys & last' & -> & Hlast' & Hys).
      { rewrite Hll. intros [=]. lia. }
      exists ((st_lastlinepos st, st_lastlineno st) :: ys), last'.
      split; [done|]. split; [done|]. cbn [app fmap option_fmap option_map].
      by rewrite Hys.
    + intros o a Ho. apply Hsmall. by right.
    + rewrite Hlp, Hcode, len_app. lia.
    + by rewrite Hll.
  - destruct Hlines as (Hln & Hll & Hlp).
    apply IH in Hb as (delta2 & Hln2 & Hdec2).
    + exists delta2. split; [by rewrite Hln2, Hln|].
      intros rest last Hlast. rewrite <- Hll, <- Hlp.
      destruct (Hdec2 rest last) as (ys & last' & -> & Hlast' & Hys).
      { by rewrite Hll. }
      exists ys, last'. split; [done|]. split; [done|]. by rewrite Hys.
    + intros o a Ho. apply Hsmall. by right.
    + rewrite Hlp, Hcode, len_app. lia.
    + by rewrite Hll.
Qed.
End EmitLines.
(** ** The dictionary of the line starts *)

Lemma dict_snoc {V} (l : list (Z * V)) x :
  dict (l ++ [x]) = <[x.1 := x.2]> (dict l).
Proof. unfold dict. by rewrite foldl_app. Qed.

Lemma dict_lookup_Some {V} (l : list (Z * V)) k v :
  NoDup l.*1 → (k, v) ∈ l → dict l !! k = Some v.
Proof.
  induction l as [|x l IH] using rev_ind; [by intros _ ?%elem_of_nil|].
  rewrite fmap_app, dict_snoc. intros Hnd Hin.
  apply NoDup_app in Hnd as (Hnd & Hne & _).
  apply elem_of_app in Hin as [Hin|Hin].
  - rewrite lookup_insert_ne; [by apply IH|].
    intros <-. eapply (Hne x.1); [|cbn; left].
    apply list_elem_of_fmap. by exists (x.1, v).
  - apply list_elem_of_singleton in Hin as <-. cbn. apply lookup_insert_eq.
Qed.

Lemma dict_lookup_None {V} (l : list (Z * V)) k :
  k ∉ l.*1 → dict l !! k = None.
Proof.
  induction l as [|x l IH] using rev_ind; [done|].
  rewrite fmap_app, dict_snoc. intros Hnotin.
  apply not_elem_of_app in Hnotin as [Hl Hx].
  rewrite lookup_insert_ne; [by apply IH|].
  intros <-. apply Hx. cbn. left.
Qed.

Lemma place_NoDup f i ops : NoDup (place f i ops).*1.
Proof.
  apply NoDup_alt. intros k k' a Hk Hk'. rewrite list_lookup_fmap in Hk, Hk'.
  destruct (place f i ops !! k) as [[a1 o1]|] eqn:E1; [|done].
  destruct (place f i ops !! k') as [[a2 o2]|] eqn:E2; [|done].
  cbn in Hk, Hk'. injection Hk as ->. injection Hk' as ->.
  by eapply place_inj.
Qed.

Lemma annotated_sublist placed : (annotated placed).*1 `sublist_of` placed.*1.
Proof.
  induction placed as [|[a op] placed IH]; [done|].
  unfold annotated. cbn [omap list_omap].
  fold (annotated placed). destruct (lineno op) as [line|]; cbn.
  - by apply sublist_skip.
  - by apply sublist_cons.
Qed.

Lemma annotated_elem placed a line :
  (a, line) ∈ annotated placed ↔
  ∃ op, (a, op) ∈ placed ∧ lineno op = Some line.
Proof.
  unfold annotated. rewrite list_elem_of_omap. split.
  - intros ([a' op] & Hin & Heq). destruct (lineno op) as [l|] eqn:E; [|done].
    cbn in Heq. injection Heq as -> ->. by exists op.
  - intros (op & Hin & Hl). exists (a, op). split; [done|]. by rewrite Hl.
Qed.

(** The dictionary of the annotated addresses gives every instruction its
    line number. *)
Lemma dict_annotated f i ops k a op :
  place f i ops !! k = Some (a, op) →
  dict (annotated (place f i ops)) !! a = lineno op.
Proof.
  intros Hk. destruct (lineno op) as [line|] eqn:El.
  - apply dict_lookup_Some.
    + exact (sublist_NoDup _ _ (place_NoDup _ _ _) (annotated_sublist _)).
    + apply annotated_elem. exists op. split; [|done].
      by eapply list_elem_of_lookup_2.
  - apply dict_lookup_None. intros Hin.
    apply list_elem_of_fmap in Hin as ([a' line] & Ha & Hin). cbn in Ha.
    subst a'. apply annotated_elem in Hin as (op' & Hin & Hl).
    apply list_elem_of_lookup_1 in Hin as [k' Hk'].
    pose proof (place_inj _ _ _ _ _ _ _ _ Hk Hk') as <-. congruence.
Qed.

Section RoundTrip.
Context `{Catalog}.

(** [dis.findlinestarts] on the line table of an encoded unit yields the
    line numbers of the instructions that have one. *)
Lemma to_code_lines self pycode :
  round_trip_ready self pycode → lines_ok self → to_code self = Ok pycode →
  ops self ≠ [] →
  findlinestarts pycode
  = annotated (place (placeholder (pools_of pycode)) 0 (ops self)).
Proof.
  intros (Hnd & Hcls & Hraw & Hfwd & Hsmall & _) Hlines Hc Hne.
  set (p := pools_of pycode).
  apply to_code_inv in Hc as (pools & ac & kc & st & code_ & ss & H2 & H3 & _
                              & Hpy).
  assert (Hp : p = pools) by (subst p pycode; apply pools_of_eta).
  apply to_code_stage2_inv in H2 as (pools0 & Hemit & _ & _).
  assert (Hrange : ∀ op a, op ∈ ops self →
    placeholder p op = Some a → a ≤ 0xFFFF).
  { intros op a Hop Ha.
    assert (∃ r, resolve_arg p (len (p_cellvars p)) [] 0 op = Ok r)
      as [r Hr] by (rewrite Hp; by eapply emit_all_resolved).
    rewrite Forall_forall in Hcls, Hraw.
    eapply (placeholder_range pycode op r); try done.
    - by apply Hcls.
    - by apply Hraw. }
  rewrite <- Hp in Hemit. unfold findlinestarts.
  replace (co_lnotab pycode) with (st_lnotab st) by (by subst pycode).
  replace (co_firstlineno pycode) with (firstlineno self) by (by subst pycode).
  unfold lines_ok in Hlines.
  destruct (ops self) as [|op ops] eqn:Eops; [done|].
  destruct Hlines as (line & Hline & Hfirst & Hinc).
  cbn [for_each] in Hemit. apply bind_Ok in Hemit as (st1 & E1 & Hemit).
  assert (Hcode := emit_op_code _ _ _ _ E1
    (λ a, Hrange op a (list_elem_of_here _ _))).
  pose proof (len_chunk_pos (op_cls op) (placeholder p op)) as Hchunk.
  pose proof (emit_op_lines _ _ _ _ _ E1) as Hl1. rewrite Hline in Hl1.
  cbn [st_lnotab st_code st_lastlineno st_lastlinepos] in Hl1, Hcode.
  change (len []) with 0 in Hl1. destruct Hl1 as (Hup & Hll & Hlp).
  apply lnotab_update_decode in Hup as (delta1 & Hln1 & Hdec1); [|lia..].
  apply emit_rest_lines in Hemit as (delta2 & Hln2 & Hdec2).
  - rewrite Hln2, Hln1. cbn [app].
    rewrite <- (app_nil_r (delta1 ++ delta2)), <- app_assoc.
    rewrite (Hdec1 _ None) by done.
    rewrite bool_decide_eq_true_2 by lia. cbn [app].
    replace (firstlineno self + (line - firstlineno self)) with line by lia.
    replace (0 + (0 - 0)) with 0 by lia.
    destruct (Hdec2 [] None) as (ys & last' & Hys & Hlast' & Hall).
    { by rewrite Hll. }
    rewrite Hll, Hlp in Hys. rewrite Hys. cbn [findlinestarts_loop].
    rewrite bool_decide_eq_false_2 by done. rewrite Hall, Hll, Hlp.
    cbn [place]. unfold annotated at 2. cbn [omap list_omap].
    rewrite Hline. cbn. f_equal. rewrite Hcode, len_app. done.
  - intros o a Ho. apply Hrange. by right.
  - rewrite Hlp, Hcode, len_app. cbn [len length]. unfold len in *. lia.
  - by rewrite Hll.
Qed.

End RoundTrip.
Section RoundTripTheorem.
Context `{Catalog}.

(** C1, as amended: for a unit with distinct instruction objects, classes of
    the catalog other than [EXTENDED_ARG], operands and pool indices of 16
    bits, forward relative jumps, distinct parameter names, and line numbers
    that the line table can carry (one on the first instruction, not below
    the first line of the unit, and strictly increasing from one annotated
    instruction to the next), if [to_code] returns a code object then
    [from_code] accepts it and returns a unit with as many instructions,
    which are distinct objects and have, position by position, the same
    opcode, the same symbolic operand, a jump target at the same position,
    and the same line number. *)
Theorem round_trip self pycode :
  round_trip_ready self pycode → lines_ok self → to_code self = Ok pycode →
  ∃ c, from_code pycode = Ok c
       ∧ NoDup (op_id <$> ops c)
       ∧ Forall2 (λ op op', op_matches (ops self) (ops c) op op'
                            ∧ lineno op' = lineno op)
           (ops self) (ops c).
Proof.
  intros Hready Hlines Hc.
  destruct (from_code_after self pycode Hready Hc) as (c & Hfrom & Hdec).
  exists c. split; [done|].
  destruct (decoded_op_matches _ _ _ _ Hdec) as (Hnd & Hmatch & Hline).
  split; [done|].
  apply Forall2_same_length_lookup. split; [by eapply Forall2_length|].
  intros k op op' Hk Hk'. split.
  { by eapply Forall2_lookup_lr. }
  destruct (place_lookup (placeholder (pools_of pycode)) 0 _ _ _ Hk)
    as [a Ha].
  pose proof (Forall2_lookup_lr _ _ _ _ _ _ Hline Ha Hk') as Hl.
  cbn in Hl. rewrite Hl, (to_code_lines self pycode Hready Hlines Hc).
  - by eapply dict_annotated.
  - intros Hnil. by rewrite Hnil in Hk.
Qed.

End RoundTripTheorem.

(** C1 at the unit [Sample.annotated_jump]. *)
Lemma round_trip_witness :
  ∃ pycode,
    to_code (H:=Sample.catalog) Sample.annotated_jump = Ok pycode
    ∧ round_trip_ready (H:=Sample.catalog) Sample.annotated_jump pycode
    ∧ lines_ok Sample.annotated_jump
    ∧ ∃ c, from_code (H:=Sample.catalog) pycode = Ok c
           ∧ NoDup (op_id <$> ops c)
           ∧ Forall2 (λ op op',
                        op_matches (ops Sample.annotated_jump) (ops c) op op'
                        ∧ lineno op' = lineno op)
               (ops Sample.annotated_jump) (ops c).
Proof.
  destruct (to_code (H:=Sample.catalog) Sample.annotated_jump)
    as [pycode|e] eqn:E; [|vm_compute in E; discriminate E].
  assert (Hready :
    round_trip_ready (H:=Sample.catalog) Sample.annotated_jump pycode).
  { pose proof E as E'. vm_compute in E'. injection E' as <-.
    split; [|split; [|split; [|split; [|split]]]].
    - apply (bool_decide_unpack _). vm_compute. exact I.
    - repeat constructor; discriminate.
    - repeat (apply Forall_cons; split;
              [intros Hf a Ha; vm_compute in Hf, Ha;
               first [discriminate Hf|discriminate Ha]|]).
      constructor.
    - intros k op t Hk Hq.
      destruct k as [|[|[|[|k]]]]; cbn in Hk; try discriminate Hk;
        injection Hk as <-; vm_compute in Hq; try discriminate Hq.
      injection Hq as <-.
      exists 3%nat, (Sample.at_line 3 (Sample.op 3 Sample.RETURN_VALUE)).
      split; [lia|]. split; reflexivity.
    - unfold pools_small, len. cbn. lia.
    - apply (bool_decide_unpack _). vm_compute. exact I. }
  assert (Hlines : lines_ok Sample.annotated_jump).
  { exists 1. cbn. repeat split; lia. }
  exists pycode. split; [reflexivity|]. split; [exact Hready|].
  split; [exact Hlines|].
  exact (round_trip (H:=Sample.catalog) Sample.annotated_jump pycode
           Hready Hlines E).
Defined.

(** C1 fails for two instructions on the same line: the line table has an
    entry for the first one only, and the second one is decoded without a
    line number. *)
Lemma round_trip_loses_lines :
  ∃ pycode c,
    to_code (H:=Sample.catalog) Sample.same_line = Ok pycode
    ∧ from_code (H:=Sample.catalog) pycode = Ok c
    ∧ (lineno <$> ops Sample.same_line) = [Some 1; Some 1]
    ∧ (lineno <$> ops c) = [Some 1; None].
Proof.
  eexists _, _. split; [vm_compute; reflexivity|].
  split; [vm_compute; reflexivity|]. split; reflexivity.
Qed.

(** C1 fails for a unit without line numbers as well: the first instruction
    is decoded with the first line of the unit. *)
Example first_line_added :
  ∃ pycode c,
    to_code (H:=Sample.catalog) Sample.forward_jump = Ok pycode
    ∧ from_code (H:=Sample.catalog) pycode = Ok c
    ∧ (lineno <$> ops Sample.forward_jump) = [None; None; None; None]
    ∧ (lineno <$> ops c) = [Some 1; None; None; None].
Proof.
  eexists _, _. split; [vm_compute; reflexivity|].
  split; [vm_compute; reflexivity|]. split; reflexivity.
Qed.

(** An operand of more than 16 bits does not survive either: [to_code]
    writes the opcode before the [EXTENDED_ARG] marker, so that the decoder
    reads the marker as the operand of the instruction and the rest as
    opcodes. *)
Example extended_operand_not_decoded :
  ∃ pycode,
    to_code (H:=Sample.catalog) Sample.extended_operand = Ok pycode
    ∧ co_code pycode = [131; 144; 1; 0; 0; 0]
    ∧ from_code (H:=Sample.catalog) pycode = Raise KeyError.
Proof.
  eexists. split; [vm_compute; reflexivity|].
  split; vm_compute; reflexivity.
Qed.
(** ** Relocation and operand width *)

Section RelocationOrder.
Context `{Catalog}.





End RelocationOrder.

Section FarJumps.
Import Sample.
Local Existing Instance Sample.catalog.






End FarJumps.

Section FarJumpsClaims.
Import Sample.
Local Existing Instance Sample.catalog.




End FarJumpsClaims.



Section WideOperands.
Context `{Catalog}.








End WideOperands.

Section ManyLocals.
Import Sample.
Local Existing Instance Sample.catalog.


#[local] Instance name_of_inj : Inj (=) (=) name_of.
Proof.
  intros n m Hnm. unfold name_of in Hnm. cbn [String.append] in Hnm.
  injection Hnm as Hnm. by apply (inj pretty).
Qed.



End ManyLocals.


(** Stage 3 at [LOAD_CONST None; JUMP_FORWARD l; NOP; l: RETURN_VALUE]: the
    jump at address 3 to address 7 gets the operand 1. *)
Example forward_jump_patched :
  (co_code <$> to_code (H:=Sample.catalog) Sample.forward_jump)
  = Ok [100; 0; 0; 110; 1; 0; 9; 83].
Proof. vm_compute. reflexivity. Qed.

(** A raw operand of 2**32 is written as the extended argument 0 and the
    operand 0. *)
Example wide_operand_truncated :
  (co_code <$> to_code (H:=Sample.catalog) Sample.wide_operand)
  = Ok [131; 144; 0; 0; 0; 0].
Proof. vm_compute. reflexivity. Qed.

